(** * notion-cli: idempotent mutation layer and selector-driven range editor

    A shallow embedding of
      - [src/idempotency/store.ts]   (the TTL-pruned idempotency store),
      - [src/commands/mutation.ts]   (the mutation coordinator),
      - [src/notion/repository.ts]   (flattener, selector resolver,
                                      range replacement, block reads,
                                      inserts and deletions, the retry
                                      of page mutations),
    followed by the properties established about them.

    Conventions of the embedding.
      - JavaScript numbers that the code uses as integers (timestamps in
        milliseconds, indices, counts) are [Z] or [nat].
      - [Date.now()] is an explicit clock value, which moves only while the
        process sleeps or a callback runs; an operation of [Store] reads it
        once.
      - A thrown JavaScript value is a [Thrown] record; a call that may
        throw returns an [Outcome].
      - The store file is a [File].  [Store] and [Mutation] embed the
        store operations and the coordinator as they run once the advisory
        lock is held and when the writes of the store file succeed.
        [Locked] embeds them with [withLock], [acquireLock] and the writes
        as the code has them; what depends on an operation failing there is
        stated about [Locked], and the two embeddings are shown to agree
        when the lock is free and the writes succeed.
      - An [await] gives way to the rest of the system only in [sleep] and
        in the callbacks [run] and [recover]: a sleep of [ms] milliseconds
        advances the clock by [ms] and lets the other processes write the
        store file; a callback returns any outcome and any new clock and
        file.
      - The remote service is a [NotionClientAdapter] over a state of its
        own; every call may change that state.
      - Loops that the code does not bound ([while (true)] over pages, the
        recursion of [walk]) take fuel; a program that runs out of fuel
        returns [None]. *)

From Stdlib Require Import ZArith Ascii String List Bool Lia.
From stdpp Require Import base decidable option list gmap strings fin_maps pretty.

Local Open Scope Z_scope.

(* ===================================================================== *)
(** ** Thrown values and outcomes                                          *)
(* ===================================================================== *)

(** What the code can observe of a thrown value: whether it is an instance
    of [CliError], and its [code], [status], [message], [retryable] and
    [details] properties ([details] as the list of the strings it holds). *)
Record Thrown := mkThrown {
  isCliError : bool;
  code : option string;
  status : option Z;
  message : string;
  retryable : bool;
  details : option (list string)
}.

#[export] Instance Thrown_eq_dec : EqDecision Thrown.
Proof. solve_decision. Defined.

(** [new CliError(code, message, { retryable })]. *)
Definition CliError (c msg : string) (r : bool) : Thrown :=
  {| isCliError := true; code := Some c; status := None;
     message := msg; retryable := r; details := None |}.

(** [new CliError(code, message, { details })]. *)
Definition CliErrorWith (c msg : string) (d : list string) : Thrown :=
  {| isCliError := true; code := Some c; status := None;
     message := msg; retryable := false; details := Some d |}.

Inductive Outcome (A : Type) : Type :=
| Returned (a : A)
| Threw (e : Thrown).
Arguments Returned {A} a.
Arguments Threw {A} e.

(* ===================================================================== *)
(** ** Programs: state, exceptions and loop fuel                           *)
(* ===================================================================== *)

(** A program over a state [S]: [None] means that a loop ran out of fuel,
    [Some (Threw e, s)] that the code threw [e] in state [s]. *)
Definition Prog (S A : Type) : Type := S -> option (Outcome A * S).

Definition ret {S A} (a : A) : Prog S A := fun s => Some (Returned a, s).

Definition throw {S A} (e : Thrown) : Prog S A := fun s => Some (Threw e, s).

Definition outOfFuel {S A} : Prog S A := fun _ => None.

Definition bind {S A B} (m : Prog S A) (k : A -> Prog S B) : Prog S B :=
  fun s =>
    match m s with
    | None => None
    | Some (Returned a, s') => k a s'
    | Some (Threw e, s') => Some (Threw e, s')
    end.

(** [try { body } catch (e) { handler e }]. *)
Definition tryCatch {S A} (body : Prog S A) (handler : Thrown -> Prog S A)
  : Prog S A :=
  fun s =>
    match body s with
    | None => None
    | Some (Returned a, s') => Some (Returned a, s')
    | Some (Threw e, s') => handler e s'
    end.

Definition get {S} : Prog S S := fun s => Some (Returned s, s).

Definition modify {S} (f : S -> S) : Prog S unit :=
  fun s => Some (Returned tt, f s).

Declare Scope prog_scope.
Delimit Scope prog_scope with prog.
Notation "x <- m ;; k" := (bind m (fun x => k))
  (at level 100, m at next level, right associativity) : prog_scope.
Notation "m ;;; k" := (bind m (fun _ => k))
  (at level 100, right associativity) : prog_scope.

(* ===================================================================== *)
(** ** JSON, as far as the store needs it                                  *)
(* ===================================================================== *)

(** [JSON.stringify] and [JSON.parse] on the values a mutation returns.
    [JSON_parse] is [None] where [JSON.parse] throws. *)
Class JsonCodec (Resp : Type) := {
  JSON_stringify : Resp -> string;
  JSON_parse : string -> option Resp
}.

Definition dquote : string := String (ascii_of_nat 34) EmptyString.
Definition nul : string := String (ascii_of_nat 0) EmptyString.

(* ===================================================================== *)
(** ** The idempotency store ([src/idempotency/store.ts])                  *)
(* ===================================================================== *)

Module Store.

Definition PRUNE_TTL_MS : Z := 180000.

Record StoreEntry := mkEntry {
  inputHash : string;
  responseJson : string;
  createdAt : Z
}.

#[export] Instance StoreEntry_eq_dec : EqDecision StoreEntry.
Proof. solve_decision. Defined.

Abbreviation StoreData := (gmap string StoreEntry).

(** The backing file: absent, not parseable as JSON, or holding a map. *)
Inductive File :=
| Missing
| Corrupt
| Stored (data : StoreData).

Inductive IdempotencyLookup (Resp : Type) :=
| LMiss
| LPending
| LReplay (response : Resp)
| LConflict (storedHash : string).
Arguments LMiss {Resp}.
Arguments LPending {Resp}.
Arguments LReplay {Resp} response.
Arguments LConflict {Resp} storedHash.

Inductive IdempotencyReservation (Resp : Type) :=
| RExecute
| RPending
| RReplay (response : Resp)
| RConflict (storedHash : string).
Arguments RExecute {Resp}.
Arguments RPending {Resp}.
Arguments RReplay {Resp} response.
Arguments RConflict {Resp} storedHash.

(** [JSON.stringify({ __notion_lite_pending: true })]. *)
Definition PENDING_RESPONSE_JSON : string :=
  "{" +:+ dquote +:+ "__notion_lite_pending" +:+ dquote +:+ ":true}".

Definition compositeKey (idempotencyKey commandName : string) : string :=
  idempotencyKey +:+ nul +:+ commandName.

Definition expired (now : Z) (entry : StoreEntry) : bool :=
  PRUNE_TTL_MS <? now - createdAt entry.

(** The pruning loop of [loadDataUnlocked]: every key whose entry is older
    than the TTL is deleted. *)
Definition prune (now : Z) (data : StoreData) : StoreData :=
  filter (fun kv => expired now kv.2 = false) data.

Definition saveDataUnlocked (data : StoreData) (_ : File) : File := Stored data.

(** [loadDataUnlocked]: the map read, and the file it leaves behind. *)
Definition loadDataUnlocked (now : Z) (f : File) : StoreData * File :=
  match f with
  | Missing => (∅, f)
  | Corrupt => (∅, saveDataUnlocked ∅ f)
  | Stored data =>
      let data' := prune now data in
      let pruned := negb (bool_decide (data' = data)) in
      (data', if pruned then saveDataUnlocked data' f else f)
  end.

(** The four operations, as the function that each of them hands to
    [withLock] computes them when its writes succeed; [Locked] below adds
    the lock and the writes that fail. *)
Section Operations.
Context {Resp : Type} `{JsonCodec Resp}.

Definition corruptError : Thrown :=
  CliError "internal_error" "Stored idempotency response is corrupt." false.

Definition finalizeError : Thrown :=
  CliError "internal_error"
    "Failed to finalize idempotency record for mutation replay." false.

Definition lookup (now : Z) (idempotencyKey commandName inputHash' : string)
    (f : File) : Outcome (IdempotencyLookup Resp) * File :=
  let '(data, f1) := loadDataUnlocked now f in
  match data !! compositeKey idempotencyKey commandName with
  | None => (Returned LMiss, f1)
  | Some entry =>
      if negb (String.eqb (inputHash entry) inputHash') then
        (Returned (LConflict (inputHash entry)), f1)
      else if String.eqb (responseJson entry) PENDING_RESPONSE_JSON then
        (Returned LPending, f1)
      else
        match JSON_parse (responseJson entry) with
        | Some response => (Returned (LReplay response), f1)
        | None => (Threw corruptError, f1)
        end
  end.

Definition reserve (now : Z) (idempotencyKey commandName inputHash' : string)
    (f : File) : Outcome (IdempotencyReservation Resp) * File :=
  let '(data, f1) := loadDataUnlocked now f in
  let key := compositeKey idempotencyKey commandName in
  match data !! key with
  | None =>
      let data' :=
        <[key := {| inputHash := inputHash';
                    responseJson := PENDING_RESPONSE_JSON;
                    createdAt := now |}]> data in
      (Returned RExecute, saveDataUnlocked data' f1)
  | Some entry =>
      if negb (String.eqb (inputHash entry) inputHash') then
        (Returned (RConflict (inputHash entry)), f1)
      else if String.eqb (responseJson entry) PENDING_RESPONSE_JSON then
        (Returned RPending, f1)
      else
        match JSON_parse (responseJson entry) with
        | Some response => (Returned (RReplay response), f1)
        | None => (Threw corruptError, f1)
        end
  end.

Definition complete (now : Z) (idempotencyKey commandName inputHash' : string)
    (response : Resp) (f : File) : Outcome unit * File :=
  let '(data, f1) := loadDataUnlocked now f in
  let key := compositeKey idempotencyKey commandName in
  match data !! key with
  | None =>
      let data' :=
        <[key := {| inputHash := inputHash';
                    responseJson := JSON_stringify response;
                    createdAt := now |}]> data in
      (Returned tt, saveDataUnlocked data' f1)
  | Some entry =>
      if negb (String.eqb (inputHash entry) inputHash') then
        (Threw finalizeError, f1)
      else
        let data' :=
          <[key := {| inputHash := inputHash entry;
                      responseJson := JSON_stringify response;
                      createdAt := now |}]> data in
        (Returned tt, saveDataUnlocked data' f1)
  end.

Definition release (now : Z) (idempotencyKey commandName inputHash' : string)
    (f : File) : Outcome unit * File :=
  let '(data, f1) := loadDataUnlocked now f in
  let key := compositeKey idempotencyKey commandName in
  match data !! key with
  | Some entry =>
      if String.eqb (inputHash entry) inputHash'
         && String.eqb (responseJson entry) PENDING_RESPONSE_JSON
      then (Returned tt, saveDataUnlocked (delete key data) f1)
      else (Returned tt, f1)
  | None => (Returned tt, f1)
  end.

(** A terminal outcome that the store can hold: its JSON text parses back
    to it and is not the text of the pending sentinel. *)
Definition storable (response : Resp) : Prop :=
  JSON_parse (JSON_stringify response) = Some response
  /\ JSON_stringify response <> PENDING_RESPONSE_JSON.

End Operations.

(** What a reader of the store sees at time [now]: the entries that
    [loadDataUnlocked] returns. *)
Definition visible (now : Z) (f : File) : StoreData := (loadDataUnlocked now f).1.

End Store.

(* ===================================================================== *)
(** ** The mutation coordinator ([src/commands/mutation.ts])               *)
(* ===================================================================== *)

Module Mutation.
Import Store.

(** What callbacks and sleeping can change: the wall clock and the store
    file (another process may write it while this one waits). *)
Record Env := mkEnv {
  clock : Z;
  file : File
}.

(** An asynchronous callback ([run], [recover]): it returns or throws, and
    leaves a new environment behind. *)
Definition Callback (A : Type) : Type := Env -> Outcome A * Env.

(** [hashObject] of [src/utils/json.ts], which is not part of the sources
    at hand: the digest of a request shape, and the digest of the object
    [{ commandName, requestShape }]. *)
Class RequestHash (Shape : Type) := {
  hashObject : Shape -> string;
  hashCommandShape : string -> Shape -> string
}.

Record AuditEvent := mkAudit {
  ev_command : string;
  ev_entity : option string;
  ev_request_id : string;
  ev_idempotency_key : string;
  ev_target_ids : option (list string);
  ev_ok : bool;
  ev_recovery_attempted : option bool;
  ev_recovery_succeeded : option bool;
  ev_idempotency_persist_degraded : option bool;
  ev_outcome_uncertain : option bool;
  ev_timestamp : Z
}.

(** The [let] flags of one invocation. *)
Record Flags := mkFlags {
  ownsReservation : bool;
  recoveryAttempted : bool;
  recoverySucceeded : bool;
  idempotencyPersistDegraded : bool;
  outcomeUncertain : bool
}.

Definition noFlags : Flags := mkFlags false false false false false.

(** The state one invocation runs in. [runCalls] and [recoverCalls] count
    the invocations of the callbacks, [auditLog] lists the events handed to
    [appendAuditLog], oldest first. *)
Record Frame := mkFrame {
  env : Env;
  runCalls : nat;
  recoverCalls : nat;
  auditLog : list AuditEvent;
  flags : Flags
}.

Definition withEnv (e : Env) (fr : Frame) : Frame :=
  mkFrame e (runCalls fr) (recoverCalls fr) (auditLog fr) (flags fr).

Definition withFlags (g : Flags -> Flags) (fr : Frame) : Frame :=
  mkFrame (env fr) (runCalls fr) (recoverCalls fr) (auditLog fr) (g (flags fr)).

Definition setOwnsReservation (fl : Flags) : Flags :=
  mkFlags true (recoveryAttempted fl) (recoverySucceeded fl)
          (idempotencyPersistDegraded fl) (outcomeUncertain fl).
Definition setRecoveryAttempted (fl : Flags) : Flags :=
  mkFlags (ownsReservation fl) true (recoverySucceeded fl)
          (idempotencyPersistDegraded fl) (outcomeUncertain fl).
Definition setRecoverySucceeded (fl : Flags) : Flags :=
  mkFlags (ownsReservation fl) (recoveryAttempted fl) true
          (idempotencyPersistDegraded fl) (outcomeUncertain fl).
Definition setIdempotencyPersistDegraded (fl : Flags) : Flags :=
  mkFlags (ownsReservation fl) (recoveryAttempted fl) (recoverySucceeded fl)
          true (outcomeUncertain fl).
Definition setOutcomeUncertain (fl : Flags) : Flags :=
  mkFlags (ownsReservation fl) (recoveryAttempted fl) (recoverySucceeded fl)
          (idempotencyPersistDegraded fl) true.

Definition getStatus (error : Thrown) : option Z := status error.
Definition getCode (error : Thrown) : option string := code error.

Definition isAmbiguousMutationError (error : Thrown)
    (override : option (Thrown -> bool)) : bool :=
  match override with
  | Some f => f error
  | None =>
      if isCliError error && bool_decide (code error = Some "retryable_upstream")
      then true
      else
        match getStatus error with
        | Some st =>
            if (st =? 429) || (500 <=? st) then true
            else bool_decide (getCode error = Some "internal_error")
        | None => bool_decide (getCode error = Some "internal_error")
        end
  end.

Definition inProgressError : Thrown :=
  CliError "retryable_upstream"
    "A matching mutation is already in progress. Retry this request shortly."
    true.

Definition keyConflictError (command storedHash incomingHash : string) : Thrown :=
  CliErrorWith "idempotency_key_conflict" "Internal idempotency key collision."
    [command; storedHash; incomingHash].

Definition unconfirmedError : Thrown :=
  CliError "retryable_upstream"
    "Mutation outcome could not be confirmed. Re-read before retrying." true.

Section Coordinator.
Context {Shape Resp : Type} `{JsonCodec Resp} `{RequestHash Shape}.

(** What the other processes have done to the store file by the time a
    sleep of this process ends at the given clock value. *)
Variable others : Z -> File -> File.

Record MutationArgs := mkArgs {
  commandName : string;
  requestId : string;
  requestShape : Shape;
  entity : option string;
  targetIds : option (list string);
  run : Callback Resp;
  recover : option (Callback (option Resp));
  isAmbiguousError : option (Thrown -> bool)
}.

Definition buildInternalIdempotencyKey (now : Z) (command : string)
    (shape : Shape) : string :=
  let bucket := now / 120000 in
  let digest := hashCommandShape command shape in
  command +:+ ":" +:+ pretty bucket +:+ ":" +:+ digest.

(** *** Primitive steps *)

Definition dateNow : Prog Frame Z :=
  fun fr => Some (Returned (clock (env fr)), fr).

(** [await sleep(ms)]: the clock advances by [ms] and the other processes
    have had their turn on the store file. *)
Definition sleep (ms : Z) : Prog Frame unit :=
  modify (fun fr =>
    let t := clock (env fr) + ms in
    withEnv (mkEnv t (others t (file (env fr)))) fr).

(** A store operation, run at the current clock on the current file. *)
Definition onStore {A} (op : Z -> File -> Outcome A * File) : Prog Frame A :=
  fun fr =>
    let '(o, f') := op (clock (env fr)) (file (env fr)) in
    Some (o, withEnv (mkEnv (clock (env fr)) f') fr).

Definition callRun (cb : Callback Resp) : Prog Frame Resp :=
  fun fr =>
    let '(o, e') := cb (env fr) in
    Some (o, mkFrame e' (S (runCalls fr)) (recoverCalls fr) (auditLog fr) (flags fr)).

Definition callRecover (cb : Callback (option Resp)) : Prog Frame (option Resp) :=
  fun fr =>
    let '(o, e') := cb (env fr) in
    Some (o, mkFrame e' (runCalls fr) (S (recoverCalls fr)) (auditLog fr) (flags fr)).

(** [safeAppendAuditLog]: the event is handed to the audit sink; whatever
    the sink does, nothing is thrown. *)
Definition safeAppendAuditLog (event : AuditEvent) : Prog Frame unit :=
  modify (fun fr =>
    mkFrame (env fr) (runCalls fr) (recoverCalls fr) (auditLog fr ++ [event]) (flags fr)).

Definition setFlag (g : Flags -> Flags) : Prog Frame unit := modify (withFlags g).

(** *** Waiting for a pending reservation *)

(** The inner [while (Date.now() < deadline)] loop. [Some l] is
    [resolved = true] with [lookup = l]; [None] is the deadline passing
    with the entry still pending. *)
Fixpoint pollLoop (fuel : nat) (deadline : Z)
    (idempotencyKey command requestHash : string)
    : Prog Frame (option (IdempotencyReservation Resp)) :=
  (now <- dateNow ;;
   if now <? deadline then
     match fuel with
     | O => outOfFuel
     | S fuel' =>
         sleep 50 ;;;
         current <- onStore (fun t => lookup t idempotencyKey command requestHash) ;;
         match current with
         | LPending => pollLoop fuel' deadline idempotencyKey command requestHash
         | LMiss =>
             l <- onStore (fun t => reserve t idempotencyKey command requestHash) ;;
             ret (Some l)
         | LReplay response => ret (Some (RReplay response))
         | LConflict storedHash => ret (Some (RConflict storedHash))
         end
     end
   else ret None)%prog.

(** The outer [while (lookup.kind === "pending")] loop. *)
Fixpoint awaitReservation (fuel : nat) (lookup0 : IdempotencyReservation Resp)
    (idempotencyKey command requestHash : string)
    : Prog Frame (IdempotencyReservation Resp) :=
  match lookup0 with
  | RPending =>
      match fuel with
      | O => outOfFuel
      | S fuel' =>
          (now <- dateNow ;;
           let deadline := now + 15000 in
           resolved <- pollLoop 300 deadline idempotencyKey command requestHash ;;
           match resolved with
           | Some l => ret l
           | None =>
               l <- onStore (fun t => reserve t idempotencyKey command requestHash) ;;
               match l with
               | RPending => throw inProgressError
               | _ => awaitReservation fuel' l idempotencyKey command requestHash
               end
           end)%prog
      end
  | _ => ret lookup0
  end.

(** *** The coordinator *)

Definition auditOf (args : MutationArgs) (idempotencyKey : string)
    (ok : bool) (fl : option (Flags * bool)) (now : Z) : AuditEvent :=
  {| ev_command := commandName args;
     ev_entity := entity args;
     ev_request_id := requestId args;
     ev_idempotency_key := idempotencyKey;
     ev_target_ids := targetIds args;
     ev_ok := ok;
     ev_recovery_attempted := (fun p => recoveryAttempted p.1) <$> fl;
     ev_recovery_succeeded := (fun p => recoverySucceeded p.1) <$> fl;
     ev_idempotency_persist_degraded :=
       (fun p => idempotencyPersistDegraded p.1) <$> fl;
     ev_outcome_uncertain := snd <$> fl;
     ev_timestamp := now |}.

(** The [catch (error)] branch of the ambiguous-failure handling around
    [args.run()]. *)
Definition onRunError (args : MutationArgs) (error : Thrown) : Prog Frame Resp :=
  (if negb (isAmbiguousMutationError error (isAmbiguousError args)) then
     throw error
   else
     setFlag setRecoveryAttempted ;;;
     match recover args with
     | Some rc =>
         tryCatch
           (recovered <- callRecover rc ;;
            match recovered with
            | Some response =>
                setFlag setRecoverySucceeded ;;; ret response
            | None =>
                setFlag setOutcomeUncertain ;;; throw unconfirmedError
            end)
           (fun _ => setFlag setOutcomeUncertain ;;; throw unconfirmedError)
     | None =>
         setFlag setOutcomeUncertain ;;; throw unconfirmedError
     end)%prog.

(** [store.complete] in its [try], the audit record of a success, and
    the [return response]. *)
Definition persistAndReport (args : MutationArgs)
    (idempotencyKey requestHash : string) (response : Resp) : Prog Frame Resp :=
  (tryCatch
     (onStore (fun t => complete t idempotencyKey (commandName args) requestHash response))
     (fun _ => setFlag setIdempotencyPersistDegraded) ;;;
   fr <- get ;;
   safeAppendAuditLog
     (auditOf args idempotencyKey true (Some (flags fr, false)) (clock (env fr))) ;;;
   ret response)%prog.

(** The outer [try] from [ownsReservation = true] onwards. *)
Definition runOwned (args : MutationArgs) (idempotencyKey requestHash : string)
    : Prog Frame Resp :=
  (setFlag setOwnsReservation ;;;
   response <- tryCatch (callRun (run args)) (onRunError args) ;;
   persistAndReport args idempotencyKey requestHash response)%prog.

(** The first [reserve] and the wait that follows it. *)
Definition acquireReservation (args : MutationArgs)
    (idempotencyKey requestHash : string) : Prog Frame (IdempotencyReservation Resp) :=
  (first <- onStore (fun t => reserve t idempotencyKey (commandName args) requestHash) ;;
   awaitReservation 2 first idempotencyKey (commandName args) requestHash)%prog.

(** The body of the outer [try]. *)
Definition attempt (args : MutationArgs) (idempotencyKey requestHash : string)
    : Prog Frame Resp :=
  (lookup1 <- acquireReservation args idempotencyKey requestHash ;;
   match lookup1 with
   | RConflict storedHash =>
       throw (keyConflictError (commandName args) storedHash requestHash)
   | RReplay response =>
       now <- dateNow ;;
       safeAppendAuditLog (auditOf args idempotencyKey true None now) ;;;
       ret response
   | _ => runOwned args idempotencyKey requestHash
   end)%prog.

(** The outer [catch (error)]. *)
Definition onFailure (args : MutationArgs) (idempotencyKey requestHash : string)
    (error : Thrown) : Prog Frame Resp :=
  (fr <- get ;;
   (if ownsReservation (flags fr) then
      onStore (fun t => release t idempotencyKey (commandName args) requestHash)
    else ret tt) ;;;
   fr' <- get ;;
   safeAppendAuditLog
     (auditOf args idempotencyKey false
        (Some (flags fr', outcomeUncertain (flags fr'))) (clock (env fr'))) ;;;
   throw error)%prog.

Definition executeMutationWithIdempotency (args : MutationArgs) : Prog Frame Resp :=
  fun fr0 =>
    let requestHash := hashObject (requestShape args) in
    let idempotencyKey :=
      buildInternalIdempotencyKey (clock (env fr0)) (commandName args) (requestShape args) in
    tryCatch (attempt args idempotencyKey requestHash)
             (onFailure args idempotencyKey requestHash)
             (withFlags (fun _ => noFlags) fr0).

End Coordinator.

Arguments MutationArgs : clear implicits.

(** The state of a first invocation in environment [e]. *)
Definition startFrame (e : Env) : Frame := mkFrame e 0 0 [] noFlags.

(** *** Conditions used in the statements about the coordinator *)

Section Conditions.
Context {Shape Resp : Type}.

(** [ownsReservation] becomes true: the wait ended with neither a
    conflict nor a replay. *)
Definition ownedBy (l : IdempotencyReservation Resp) : bool :=
  match l with
  | RConflict _ | RReplay _ => false
  | _ => true
  end.

(** The environment after the recovery attempt, if there is one. *)
Definition afterRecover (args : MutationArgs Shape Resp) (e : Env) : Env :=
  match recover args with
  | Some rc => (rc e).2
  | None => e
  end.

(** Recovery is absent, returns null, or throws. *)
Definition recoveryFails (args : MutationArgs Shape Resp) (e : Env) : Prop :=
  match recover args with
  | Some rc => (rc e).1 = Returned None \/ exists err, (rc e).1 = Threw err
  | None => True
  end.



End Conditions.

End Mutation.

(* ===================================================================== *)
(** ** Blocks, selectors and range replacement
       ([src/notion/repository.ts])                                        *)
(* ===================================================================== *)

Module Repository.

(** *** Data *)

(** What the code reads of a block object returned by the remote service:
    [id], [type], [has_children === true], [last_edited_time] (each [None]
    when it is not a string) and the [plain_text] items of
    [block[type].rich_text] ([None] when there is no such array; an item is
    [None] when its [plain_text] is not a string). *)
Record RawBlock := mkRaw {
  raw_id : option string;
  raw_type : option string;
  raw_rich_text : option (list (option string));
  raw_has_children : bool;
  raw_last_edited_time : option string
}.

Record FlatBlock := mkFlat {
  id : string;
  parent_id : string;
  type : option string;
  text : string;
  has_children : bool;
  last_edited_time : option string;
  sibling_index : nat;
  order_index : nat
}.

#[export] Instance FlatBlock_eq_dec : EqDecision FlatBlock.
Proof. solve_decision. Defined.

(** A field of a selector as parsed from JSON. *)
Inductive StrField :=
| SAbsent
| SString (s : string)
| SNotString.

(** [nth] as parsed from JSON: absent, an integer, or anything else. *)
Inductive NthField :=
| NAbsent
| NInteger (n : Z)
| NNotInteger.

Record RawWhere := mkRawWhere {
  rw_type : StrField;
  rw_text_contains : StrField;
  rw_parent_id : StrField
}.

Record BlockSelector := mkSelector {
  sel_where : option RawWhere;
  sel_nth : NthField;
  sel_from : StrField
}.

Inductive From := FromStart | FromEnd.

Record Where := mkWhere {
  w_type : option string;
  w_text_contains : option string;
  w_parent_id : option string
}.

(** The result of [normalizeSelector]. *)
Record Selector := mkNormalized {
  where_ : Where;
  from : From;
  nth : option Z
}.

Inductive BlockInsertPosition :=
| PosStart
| PosEnd
| PosAfterBlock (after : string).

(** A block to insert: its [type], if any, and the rest of its content. *)
Record NewBlock := mkNew {
  nb_type : option string;
  nb_content : string
}.

Record ListPayload := mkListPayload {
  lp_block_id : string;
  lp_page_size : Z;
  lp_start_cursor : option string
}.

(** [results] holds [None] for an item that is not an object. *)
Record ListResponse := mkListResponse {
  lr_results : option (list (option RawBlock));
  lr_has_more : bool;
  lr_next_cursor : option string
}.

Record AppendPayload := mkAppendPayload {
  ap_block_id : string;
  ap_children : list NewBlock;
  ap_position : BlockInsertPosition
}.

(** [results] holds, for each item, its [id] when that is a string. *)
Record AppendResponse := mkAppendResponse {
  ar_results : option (list (option string))
}.

(** The remote client, over a remote state [R]. *)
Class NotionClientAdapter (R : Type) := {
  listBlockChildren : ListPayload -> R -> Outcome ListResponse * R;
  appendBlockChildren : AppendPayload -> R -> Outcome AppendResponse * R;
  deleteBlock : string -> R -> Outcome unit * R
}.

(** A write request sent to the remote service, and whether it returned. *)
Inductive Mutation :=
| MAppend (payload : AppendPayload) (returned : bool)
| MDelete (block_id : string) (returned : bool).

(** The remote state and the write requests sent so far, oldest first. *)
Record RState (R : Type) := mkRState {
  remote : R;
  mutations : list Mutation
}.
Arguments mkRState {R} remote mutations.
Arguments remote {R} r.
Arguments mutations {R} r.

Definition isReturned {A} (o : Outcome A) : bool :=
  match o with Returned _ => true | Threw _ => false end.

(** The block ids whose deletion the remote service has confirmed. *)
Definition confirmedDeleted (log : list Mutation) : list string :=
  flat_map (fun m => match m with MDelete b true => [b] | _ => [] end) log.

(** *** Strings *)

Definition lowerAscii (c : ascii) : ascii :=
  let n := nat_of_ascii c in
  if (65 <=? n)%nat && (n <=? 90)%nat then ascii_of_nat (n + 32) else c.

(** [String.prototype.toLowerCase], on ASCII letters. *)
Fixpoint toLowerCase (s : string) : string :=
  match s with
  | EmptyString => EmptyString
  | String c rest => String (lowerAscii c) (toLowerCase rest)
  end.

(** [haystack.includes(needle)]. *)
Fixpoint includes (needle haystack : string) : bool :=
  String.prefix needle haystack
  || match haystack with
     | EmptyString => false
     | String _ rest => includes needle rest
     end.

(** [items.join(sep)]. *)
Fixpoint join (sep : string) (items : list string) : string :=
  match items with
  | [] => ""
  | [x] => x
  | x :: rest => x +:+ sep +:+ join sep rest
  end.

(** Truthiness of an optional string: absent and [""] are falsy. *)
Definition truthy (o : option string) : bool :=
  match o with
  | Some s => negb (String.eqb s "")
  | None => false
  end.

Definition typeError (msg : string) : Thrown :=
  {| isCliError := false; code := None; status := None;
     message := msg; retryable := false; details := None |}.

Definition liftOutcome {S A} (o : Outcome A) : Prog S A := fun s => Some (o, s).

(** *** Selectors *)

Definition extractBlockText (block : RawBlock) : option string :=
  match raw_type block with
  | None => None
  | Some _ =>
      match raw_rich_text block with
      | None => None
      | Some richText => Some (join "" (map (fun item => default "" item) richText))
      end
  end.

Definition strFieldOk (f : StrField) : bool :=
  match f with SNotString => false | _ => true end.

Definition strFieldValue (f : StrField) : option string :=
  match f with SString s => Some s | _ => None end.

Definition normalizeSelector (raw : BlockSelector) (label : string)
    : Outcome Selector :=
  let where0 := default (mkRawWhere SAbsent SAbsent SAbsent) (sel_where raw) in
  let fromOk :=
    match sel_from raw with
    | SAbsent => Some FromStart
    | SString s =>
        if String.eqb s "start" then Some FromStart
        else if String.eqb s "end" then Some FromEnd
        else None
    | SNotString => None
    end in
  match fromOk with
  | None =>
      Threw (CliError "invalid_input" (label +:+ ".from must be either start or end.") false)
  | Some from0 =>
      let nthBad :=
        match sel_nth raw with
        | NAbsent => false
        | NInteger n => n <? 1
        | NNotInteger => true
        end in
      if nthBad then
        Threw (CliError "invalid_input"
                 (label +:+ ".nth must be a positive integer when provided.") false)
      else if negb (strFieldOk (rw_type where0)) then
        Threw (CliError "invalid_input" (label +:+ ".where.type must be a string.") false)
      else if negb (strFieldOk (rw_text_contains where0)) then
        Threw (CliError "invalid_input"
                 (label +:+ ".where.text_contains must be a string.") false)
      else if negb (strFieldOk (rw_parent_id where0)) then
        Threw (CliError "invalid_input"
                 (label +:+ ".where.parent_id must be a string.") false)
      else
        Returned
          {| where_ := {| w_type := strFieldValue (rw_type where0);
                          w_text_contains := strFieldValue (rw_text_contains where0);
                          w_parent_id := strFieldValue (rw_parent_id where0) |};
             from := from0;
             nth := match sel_nth raw with NInteger n => Some n | _ => None end |}
  end.

Definition matchesSelector (block : FlatBlock) (selector : Selector) : bool :=
  if truthy (w_type (where_ selector))
     && negb (bool_decide (type block = w_type (where_ selector)))
  then false
  else if truthy (w_parent_id (where_ selector))
          && negb (bool_decide (Some (parent_id block) = w_parent_id (where_ selector)))
  then false
  else if truthy (w_text_contains (where_ selector))
          && negb (includes (toLowerCase (default "" (w_text_contains (where_ selector))))
                            (toLowerCase (text block)))
  then false
  else true.

Definition matchesOf (blocks : list FlatBlock) (selector : Selector) : list FlatBlock :=
  List.filter (fun block => matchesSelector block selector) blocks.

(** [selector.from === "start" ? selector.nth - 1 : matches.length - selector.nth]. *)
Definition nthIndex (selector : Selector) (n : Z) (count : nat) : Z :=
  match from selector with
  | FromStart => n - 1
  | FromEnd => Z.of_nat count - n
  end.

Record Resolved := mkResolved {
  selected : FlatBlock;
  res_matches : list FlatBlock;
  res_selector : Selector
}.

Definition resolveSelectorStrict (blocks : list FlatBlock)
    (selectorRaw : BlockSelector) (label : string) : Outcome Resolved :=
  match normalizeSelector selectorRaw label with
  | Threw e => Threw e
  | Returned selector =>
      let matches := matchesOf blocks selector in
      match matches with
      | [] => Threw (CliError "not_found" (label +:+ " matched no blocks.") false)
      | first :: _ =>
          match nth selector with
          | None =>
              if (1 <? length matches)%nat then
                Threw (CliError "conflict"
                  (label +:+ " matched " +:+ pretty (length matches)
                   +:+ " blocks. Provide nth and/or where.parent_id to disambiguate.")
                  false)
              else Returned (mkResolved first matches selector)
          | Some n =>
              let index := nthIndex selector n (length matches) in
              if (index <? 0) || (Z.of_nat (length matches) <=? index) then
                Threw (CliError "not_found"
                  (label +:+ " nth=" +:+ pretty n +:+ " is out of range for "
                   +:+ pretty (length matches) +:+ " matches.") false)
              else
                (* the index is in range here, so the lookup succeeds *)
                match matches !! Z.to_nat index with
                | Some block => Returned (mkResolved block matches selector)
                | None => Threw (typeError "selected is undefined")
                end
          end
      end
  end.

Definition toSelectionPayload (block : FlatBlock) : FlatBlock := block.

Record Selection := mkSelection {
  sn_scope_id : string;
  sn_selector : Selector;
  match_count : nat;
  ambiguous : bool;
  sn_selected : option FlatBlock;
  sn_matches : list FlatBlock
}.

(** [selectBlocks] from the filtering of the flattened blocks onwards. *)
Definition selectAmong (scopeId : string) (selector : Selector)
    (blocks : list FlatBlock) : Outcome Selection :=
  let matches := matchesOf blocks selector in
  match matches with
  | [] => Threw (CliError "not_found" "selector-json matched no blocks." false)
  | first :: _ =>
      let result (sel : option FlatBlock) (amb : bool) :=
        Returned {| sn_scope_id := scopeId;
                    sn_selector := selector;
                    match_count := length matches;
                    ambiguous := amb;
                    sn_selected := toSelectionPayload <$> sel;
                    sn_matches := map toSelectionPayload matches |} in
      match nth selector with
      | Some n =>
          let index := nthIndex selector n (length matches) in
          if (index <? 0) || (Z.of_nat (length matches) <=? index) then
            Threw (CliError "not_found"
              ("selector-json nth=" +:+ pretty n +:+ " is out of range for "
               +:+ pretty (length matches) +:+ " matches.") false)
          else result (matches !! Z.to_nat index) false
      | None =>
          if (length matches =? 1)%nat then result (Some first) false
          else result None true
      end
  end.

Definition siblingsFingerprint (siblings : list FlatBlock) : string :=
  join "|" (map (fun block => id block +:+ ":" +:+ default "" (last_edited_time block))
                siblings).

(** *** The flatten order, described directly *)

Definition toFlat (parentId : string) (blockId : string) (block : RawBlock)
    (siblingIndex orderIndex : nat) : FlatBlock :=
  {| id := blockId;
     parent_id := parentId;
     type := raw_type block;
     text := default "" (extractBlockText block);
     has_children := raw_has_children block;
     last_edited_time := raw_last_edited_time block;
     sibling_index := siblingIndex;
     order_index := orderIndex |}.

Definition withOrder (orderIndex : nat) (block : FlatBlock) : FlatBlock :=
  {| id := id block;
     parent_id := parent_id block;
     type := type block;
     text := text block;
     has_children := has_children block;
     last_edited_time := last_edited_time block;
     sibling_index := sibling_index block;
     order_index := orderIndex |}.

(** The blocks of [l] numbered [start], [start + 1], ... in [order_index]. *)
Definition renumber (start : nat) (l : list FlatBlock) : list FlatBlock :=
  imap (fun i block => withOrder (start + i) block) l.

(** The children of a parent that have an id, each with its position among
    all the children listed for the parent. *)
Definition childBlocksFrom (parentId : string) (rest : list (nat * RawBlock))
    : list FlatBlock :=
  omap (fun entry : nat * RawBlock =>
          if truthy (raw_id entry.2) then
            Some (toFlat parentId (default "" (raw_id entry.2)) entry.2 entry.1 0)
          else None)
       rest.

(** [sequence]: all the lists, if none is missing. *)
Fixpoint allOf {A} (l : list (option (list A))) : option (list A) :=
  match l with
  | [] => Some []
  | None :: _ => None
  | Some x :: rest =>
      match allOf rest with
      | Some xs => Some (x ++ xs)
      | None => None
      end
  end.

(** What is flattened below one sibling. *)
Definition belowWith (levelOrder' : string -> option (list FlatBlock))
    (sibling : FlatBlock) : option (list FlatBlock) :=
  if has_children sibling then levelOrder' (id sibling) else Some [].

(** The order in which a tree is flattened, for a remote tree that does not
    change, given by the children of each block: first all the children of
    the parent, in sibling order; then, for each of them that has children,
    in sibling order, the flatten order below it.  [None] when the tree is
    nested deeper than [depth]. *)
Fixpoint levelOrder (depth : nat) (childrenOf : string -> list RawBlock)
    (parentId : string) : option (list FlatBlock) :=
  match depth with
  | O => None
  | S depth' =>
      let sibs := childBlocksFrom parentId (imap (fun i x => (i, x)) (childrenOf parentId)) in
      match allOf (map (belowWith (levelOrder depth' childrenOf)) sibs) with
      | Some below => Some (sibs ++ below)
      | None => None
      end
  end.

(** The depth-first pre-order of the same tree: each block is followed by
    the pre-order of its own subtree before its next sibling. *)
Fixpoint preOrder (depth : nat) (childrenOf : string -> list RawBlock)
    (parentId : string) : option (list FlatBlock) :=
  match depth with
  | O => None
  | S depth' =>
      let sibs := childBlocksFrom parentId (imap (fun i x => (i, x)) (childrenOf parentId)) in
      allOf (map (fun sibling =>
                    if has_children sibling
                    then match preOrder depth' childrenOf (id sibling) with
                         | Some below => Some (sibling :: below)
                         | None => None
                         end
                    else Some [sibling])
                 sibs)
  end.

(** A flattened block is the [sibling_index]-th child listed for its
    parent. *)
Definition listedAs (childrenOf : string -> list RawBlock) (block : FlatBlock) : Prop :=
  exists raw,
    childrenOf (parent_id block) !! sibling_index block = Some raw
    /\ raw_id raw = Some (id block).

(** *** Reading the remote tree *)

Section Remote.
Context {R : Type} `{NotionClientAdapter R}.

Abbreviation St := (RState R).

Definition callList (payload : ListPayload) : Prog St ListResponse :=
  fun st =>
    let '(o, r') := listBlockChildren payload (remote st) in
    Some (o, mkRState r' (mutations st)).

Definition callAppend (payload : AppendPayload) : Prog St AppendResponse :=
  fun st =>
    let '(o, r') := appendBlockChildren payload (remote st) in
    Some (o, mkRState r' (mutations st ++ [MAppend payload (isReturned o)])).

Definition callDelete (blockId : string) : Prog St unit :=
  fun st =>
    let '(o, r') := deleteBlock blockId (remote st) in
    Some (o, mkRState r' (mutations st ++ [MDelete blockId (isReturned o)])).

(** The [while (true)] loop of [listDirectChildren], one page per round. *)
Fixpoint listPages (fuel : nat) (parentId : string) (cursor : option string)
    (items : list RawBlock) : Prog St (list RawBlock) :=
  match fuel with
  | O => outOfFuel
  | S fuel' =>
      (response <- callList {| lp_block_id := parentId;
                               lp_page_size := 100;
                               lp_start_cursor := if truthy cursor then cursor else None |} ;;
       let items' := items ++ omap (fun raw => raw) (default [] (lr_results response)) in
       if negb (lr_has_more response) || negb (truthy (lr_next_cursor response))
       then ret items'
       else listPages fuel' parentId (lr_next_cursor response) items')%prog
  end.

Definition listDirectChildren (fuel : nat) (parentId : string)
    : Prog St (list RawBlock) :=
  listPages fuel parentId None [].

(** [siblingsRaw.entries()]. *)
Definition entries {A} (l : list A) : list (nat * A) := imap (fun i x => (i, x)) l.

Definition scanLimitError (maxBlocks : Z) : Thrown :=
  CliError "invalid_input"
    ("Selection scan exceeded max blocks (" +:+ pretty maxBlocks
     +:+ "). Increase scan_max_blocks.") false.

(** The first [for] loop of [walk]: it pushes each child that has an id
    onto [blocks] and onto [siblings]. *)
Fixpoint pushSiblings (maxBlocks : Z) (parentId : string)
    (rest : list (nat * RawBlock)) (blocks siblings : list FlatBlock)
    : Outcome (list FlatBlock * list FlatBlock) :=
  match rest with
  | [] => Returned (blocks, siblings)
  | (siblingIndex, block) :: rest' =>
      if truthy (raw_id block) then
        if maxBlocks <=? Z.of_nat (length blocks) then
          Threw (scanLimitError maxBlocks)
        else
          let flat := toFlat parentId (default "" (raw_id block)) block
                             siblingIndex (length blocks) in
          pushSiblings maxBlocks parentId rest' (blocks ++ [flat]) (siblings ++ [flat])
      else pushSiblings maxBlocks parentId rest' blocks siblings
  end.

(** The two accumulators of [flattenScopeBlocks]. *)
Record Flattened := mkFlattened {
  blocks : list FlatBlock;
  siblingsByParent : gmap string (list FlatBlock)
}.

(** A [for (const x of items)] loop whose body updates an accumulator. *)
Fixpoint forEach {A Acc} (items : list A) (body : A -> Acc -> Prog St Acc)
    (acc : Acc) : Prog St Acc :=
  match items with
  | [] => ret acc
  | x :: rest => (acc' <- body x acc ;; forEach rest body acc')%prog
  end.

(** [walk]; [pages] bounds the pages of one listing, [fuel] the nesting
    depth. *)
Fixpoint walk (pages fuel : nat) (maxBlocks : Z) (parentId : string) (acc : Flattened)
    : Prog St Flattened :=
  match fuel with
  | O => outOfFuel
  | S fuel' =>
      (siblingsRaw <- listDirectChildren pages parentId ;;
       pushed <- liftOutcome
                   (pushSiblings maxBlocks parentId (entries siblingsRaw) (blocks acc) []) ;;
       let acc1 := {| blocks := pushed.1;
                      siblingsByParent := <[parentId := pushed.2]> (siblingsByParent acc) |} in
       forEach pushed.2
         (fun sibling a =>
            if has_children sibling then walk pages fuel' maxBlocks (id sibling) a
            else ret a)
         acc1)%prog
  end.

Definition flattenScopeBlocks (fuel : nat) (scopeId : string) (maxBlocks : Z)
    : Prog St Flattened :=
  walk fuel fuel maxBlocks scopeId {| blocks := []; siblingsByParent := ∅ |}.

Definition selectBlocks (fuel : nat) (scopeId : string) (selector : BlockSelector)
    (maxBlocks : Z) : Prog St Selection :=
  (normalized <- liftOutcome (normalizeSelector selector "selector-json") ;;
   flattened <- flattenScopeBlocks fuel scopeId maxBlocks ;;
   liftOutcome (selectAmong scopeId normalized (blocks flattened)))%prog.

(** *** Writing *)

(** [chunk(items, chunkSize)]; [fuel] bounds the number of chunks. *)
Fixpoint chunk {A} (fuel : nat) (items : list A) (chunkSize : nat) : list (list A) :=
  match fuel with
  | O => []
  | S fuel' =>
      match items with
      | [] => []
      | _ => take chunkSize items :: chunk fuel' (drop chunkSize items) chunkSize
      end
  end.

Inductive InsertResult :=
| WouldInsert (parent : string) (position : BlockInsertPosition)
              (would_insert_count : nat) (block_types : list string)
| Inserted (parent : string) (position : BlockInsertPosition)
           (inserted_count : nat) (inserted_ids : list string).

Definition blockTypes (newBlocks : list NewBlock) : list string :=
  map (fun block => default "unknown" (nb_type block)) newBlocks.

(** The [for (const children of chunks)] loop of [insertBlocks]. *)
Fixpoint insertChunks (parentId : string) (chunks : list (list NewBlock))
    (currentPosition : BlockInsertPosition) (insertedIds : list string)
    : Prog St (list string) :=
  match chunks with
  | [] => ret insertedIds
  | children :: rest =>
      (response <- callAppend {| ap_block_id := parentId;
                                 ap_children := children;
                                 ap_position := currentPosition |} ;;
       let chunkIds :=
         List.filter (fun i => negb (String.eqb i ""))
                     (omap (fun item => item) (default [] (ar_results response))) in
       let position' :=
         match last chunkIds with
         | Some lastId => PosAfterBlock lastId
         | None => currentPosition
         end in
       insertChunks parentId rest position' (insertedIds ++ chunkIds))%prog
  end.

Definition insertBlocks (parentId : string) (newBlocks : list NewBlock)
    (position : BlockInsertPosition) (dryRun : bool) : Prog St InsertResult :=
  match newBlocks with
  | [] => throw (CliError "invalid_input" "At least one block is required." false)
  | _ =>
      if dryRun then
        ret (WouldInsert parentId position (length newBlocks) (blockTypes newBlocks))
      else
        (insertedIds <- insertChunks parentId
                          (chunk (length newBlocks) newBlocks 100) position [] ;;
         ret (Inserted parentId position (length newBlocks) insertedIds))%prog
  end.

(** A [for] loop that deletes the given blocks one after the other. *)
Fixpoint deleteEach (blockIds : list string) (deletedIds : list string)
    : Prog St (list string) :=
  match blockIds with
  | [] => ret deletedIds
  | blockId :: rest =>
      (callDelete blockId ;;; deleteEach rest (deletedIds ++ [blockId]))%prog
  end.

Record DeleteResult := mkDeleteResult {
  deleted_count : nat;
  deleted_ids : list string
}.

Definition deleteBlocks (blockIds : list string) : Prog St DeleteResult :=
  (deletedIds <- deleteEach blockIds [] ;;
   ret {| deleted_count := length deletedIds; deleted_ids := deletedIds |})%prog.

(** *** Range replacement *)

Record ReplaceArgs := mkReplaceArgs {
  scopeId : string;
  startSelector : BlockSelector;
  endSelector : BlockSelector;
  newBlocks : list NewBlock;
  inclusiveStart : bool;
  inclusiveEnd : bool;
  dryRun : bool;
  maxBlocks : Z
}.

Record Plan := mkPlan {
  plan_scope_id : string;
  plan_parent_id : string;
  plan_start : FlatBlock;
  plan_end : FlatBlock;
  inclusive_start : bool;
  inclusive_end : bool;
  delete_ids : list string;
  delete_count : nat;
  insert_position : BlockInsertPosition;
  insert_count : nat
}.

Inductive ReplaceResult :=
| DryRun (plan : Plan) (block_types : list string)
| Replaced (plan : Plan) (inserted_count : nat) (inserted_ids : list string)
           (deleted_count : nat).

(** [items.slice(start, stop)] for [0 <= start]. *)
Definition slice {A} (items : list A) (start stop : Z) : list A :=
  take (Z.to_nat (stop - start)) (drop (Z.to_nat start) items).

Definition replaceFromOf (args : ReplaceArgs) (startBlock : FlatBlock) : Z :=
  if inclusiveStart args then Z.of_nat (sibling_index startBlock)
  else Z.of_nat (sibling_index startBlock) + 1.

Definition replaceToOf (args : ReplaceArgs) (endBlock : FlatBlock) : Z :=
  if inclusiveEnd args then Z.of_nat (sibling_index endBlock)
  else Z.of_nat (sibling_index endBlock) - 1.

Definition crossParentError : Thrown :=
  CliError "invalid_input"
    "start-selector-json and end-selector-json must resolve to siblings under the same parent block."
    false.

Definition startAfterEndError : Thrown :=
  CliError "invalid_input"
    "start-selector-json resolved after end-selector-json within the sibling order."
    false.

Definition rangeChangedError : Thrown :=
  CliError "conflict"
    "Target block range changed during planning. Retry to re-resolve the selection."
    false.

(** What planning leaves for the execution: the plan, the siblings of the
    parent as flattened, and the blocks to delete. *)
Record Planned := mkPlanned {
  the_plan : Plan;
  siblings : list FlatBlock;
  blocksToDelete : list FlatBlock
}.

(** [replaceBlockRange] from the resolution of the selectors to the
    [plan] object. *)
Definition planRange (flattened : Flattened) (args : ReplaceArgs) : Outcome Planned :=
  match resolveSelectorStrict (blocks flattened) (startSelector args) "start-selector-json" with
  | Threw e => Threw e
  | Returned start =>
  match resolveSelectorStrict (blocks flattened) (endSelector args) "end-selector-json" with
  | Threw e => Threw e
  | Returned end_ =>
      let startBlock := selected start in
      let endBlock := selected end_ in
      if negb (String.eqb (parent_id startBlock) (parent_id endBlock)) then
        Threw crossParentError
      else
        let sibs := default [] (siblingsByParent flattened !! parent_id startBlock) in
        if (sibling_index endBlock <? sibling_index startBlock)%nat then
          Threw startAfterEndError
        else
          let replaceFrom := replaceFromOf args startBlock in
          let replaceTo := replaceToOf args endBlock in
          let toDelete :=
            if replaceFrom <=? replaceTo then slice sibs replaceFrom (replaceTo + 1)
            else [] in
          let planWith (insertPosition : BlockInsertPosition) :=
            Returned
              {| the_plan :=
                   {| plan_scope_id := scopeId args;
                      plan_parent_id := parent_id startBlock;
                      plan_start := toSelectionPayload startBlock;
                      plan_end := toSelectionPayload endBlock;
                      inclusive_start := inclusiveStart args;
                      inclusive_end := inclusiveEnd args;
                      delete_ids := map id toDelete;
                      delete_count := length toDelete;
                      insert_position := insertPosition;
                      insert_count := length (newBlocks args) |};
                 siblings := sibs;
                 blocksToDelete := toDelete |} in
          if replaceFrom =? 0 then planWith PosStart
          else
            match sibs !! Z.to_nat (replaceFrom - 1) with
            | Some before => planWith (PosAfterBlock (id before))
            | None => Threw (typeError "Cannot read properties of undefined (reading 'id')")
            end
  end
  end.

(** The siblings as listed again just before mutating. *)
Definition currentSiblingsOf (parentId : string) (currentSiblingsRaw : list RawBlock)
    : list FlatBlock :=
  omap (fun entry : nat * RawBlock =>
          let '(siblingIndex, block) := entry in
          if truthy (raw_id block) then
            Some (toFlat parentId (default "" (raw_id block)) block siblingIndex siblingIndex)
          else None)
       (entries currentSiblingsRaw).

(** The [insertResult] of [replaceBlockRange]: its [inserted_count] and
    [inserted_ids]. *)
Definition insertReplacement (args : ReplaceArgs) (plan : Plan)
    : Prog St (nat * list string) :=
  match newBlocks args with
  | [] => ret (0%nat, [])
  | _ =>
      (insertResult <- insertBlocks (plan_parent_id plan) (newBlocks args)
                                    (insert_position plan) false ;;
       match insertResult with
       | Inserted _ _ n ids => ret (n, ids)
       | WouldInsert _ _ _ _ => ret (0%nat, [])
       end)%prog
  end.

(** [replaceBlockRange] after the dry-run return. *)
Definition executePlan (fuel : nat) (args : ReplaceArgs) (planned : Planned)
    : Prog St ReplaceResult :=
  let plan := the_plan planned in
  let beforeFingerprint := siblingsFingerprint (siblings planned) in
  (currentSiblingsRaw <- listDirectChildren fuel (plan_parent_id plan) ;;
   let currentSiblings := currentSiblingsOf (plan_parent_id plan) currentSiblingsRaw in
   let currentFingerprint := siblingsFingerprint currentSiblings in
   if negb (String.eqb beforeFingerprint currentFingerprint) then
     throw rangeChangedError
   else
     inserted <- insertReplacement args plan ;;
     deleteEach (map id (blocksToDelete planned)) [] ;;;
     ret (Replaced plan inserted.1 inserted.2 (length (blocksToDelete planned))))%prog.

Definition replaceBlockRange (fuel : nat) (args : ReplaceArgs) : Prog St ReplaceResult :=
  (flattened <- flattenScopeBlocks fuel (scopeId args) (maxBlocks args) ;;
   planned <- liftOutcome (planRange flattened args) ;;
   if dryRun args then
     ret (DryRun (the_plan planned) (blockTypes (newBlocks args)))
   else executePlan fuel args planned)%prog.

End Remote.

End Repository.

(* ===================================================================== *)
(** ** Concrete instances used in the examples                             *)
(* ===================================================================== *)

Module Demo.
Import Store Mutation Repository.

(** A response represented by its own JSON text. *)
#[export] Instance textCodec : JsonCodec string :=
  {| JSON_stringify := fun response => response; JSON_parse := Some |}.

(** A request shape represented by its canonical text; the digests are
    tagged copies of it. *)
#[export] Instance textHash : RequestHash string :=
  {| hashObject := fun shape => "h(" +:+ shape +:+ ")";
     hashCommandShape := fun command shape => "h(" +:+ command +:+ "," +:+ shape +:+ ")" |}.

(** No other process touches the store file. *)
Definition alone : Z -> File -> File := fun _ f => f.

Definition returning (response : string) : Callback string :=
  fun e => (Returned response, e).

Definition throwing {A} (error : Thrown) : Callback A :=
  fun e => (Threw error, e).

Definition validationError : Thrown := CliError "invalid_input" "Bad request." false.

Definition updateArgs (run : Callback string) (recover : option (Callback (option string)))
    : MutationArgs string string :=
  mkArgs "pages.update" "req-1" "{page_id:p1}" None (Some ["p1"]) run recover None.

(** A store file with one terminal entry stamped at clock 1000. *)
Definition staleStore : gmap string StoreEntry :=
  {[ compositeKey "k1" "pages.update" := mkEntry "h1" "{}" 1000 ]}.

(** A remote tree held in memory. It serves all the children of a block in
    one page. After the [n]-th listing the tree is replaced by [m] when
    [editAfter] is [Some (n, m)] (another actor edits the page); deleting a
    block listed in [failDelete] fails with status 500. *)
Record MemoryRemote := mkMemory {
  childrenOf : gmap string (list RawBlock);
  reads : nat;
  editAfter : option (nat * gmap string (list RawBlock));
  failDelete : list string
}.

Definition memoryList (payload : ListPayload) (r : MemoryRemote)
    : Outcome ListResponse * MemoryRemote :=
  let response :=
    {| lr_results := Some (map Some (default [] (childrenOf r !! lp_block_id payload)));
       lr_has_more := false;
       lr_next_cursor := None |} in
  let reads' := S (reads r) in
  let tree' :=
    match editAfter r with
    | Some (n, m) => if (reads' =? n)%nat then m else childrenOf r
    | None => childrenOf r
    end in
  (Returned response, mkMemory tree' reads' (editAfter r) (failDelete r)).

Definition memoryAppend (payload : AppendPayload) (r : MemoryRemote)
    : Outcome AppendResponse * MemoryRemote :=
  (Returned {| ar_results := Some (imap (fun i _ => Some ("new-" +:+ pretty i))
                                        (ap_children payload)) |}, r).

Definition serverError : Thrown :=
  {| isCliError := false; code := None; status := Some 500;
     message := "Internal Server Error"; retryable := false; details := None |}.

Definition memoryDelete (blockId : string) (r : MemoryRemote)
    : Outcome unit * MemoryRemote :=
  if bool_decide (blockId ∈ failDelete r) then (Threw serverError, r)
  else
    (Returned tt,
     mkMemory (List.filter (fun b => negb (bool_decide (raw_id b = Some blockId)))
                 <$> childrenOf r)
              (reads r) (editAfter r) (failDelete r)).

#[export] Instance memoryAdapter : NotionClientAdapter MemoryRemote :=
  {| listBlockChildren := memoryList;
     appendBlockChildren := memoryAppend;
     deleteBlock := memoryDelete |}.

Definition paragraph (blockId text : string) (hasChildren : bool) : RawBlock :=
  {| raw_id := Some blockId;
     raw_type := Some "paragraph";
     raw_rich_text := Some [Some text];
     raw_has_children := hasChildren;
     raw_last_edited_time := Some "2026-01-01T00:00:00.000Z" |}.

(** A page with two top-level blocks, the first of which has one child. *)
Definition smallPage : gmap string (list RawBlock) :=
  {[ "page" := [paragraph "a" "Alpha" true; paragraph "b" "Beta" false];
     "a" := [paragraph "a1" "Alpha child" false] ]}.

Definition memoryOf (tree : gmap string (list RawBlock)) : RState MemoryRemote :=
  mkRState (mkMemory tree 0 None []) [].

Definition byText (needle : string) : BlockSelector :=
  {| sel_where := Some (mkRawWhere SAbsent (SString needle) SAbsent);
     sel_nth := NAbsent;
     sel_from := SAbsent |}.

Definition anyBlock : BlockSelector :=
  {| sel_where := None; sel_nth := NAbsent; sel_from := SAbsent |}.

Definition nthBlock (n : Z) (fromField : StrField) : BlockSelector :=
  {| sel_where := None; sel_nth := NInteger n; sel_from := fromField |}.

(** A page with two top-level blocks and no nesting. *)
Definition flatPage : gmap string (list RawBlock) :=
  {[ "page" := [paragraph "a" "Alpha" false; paragraph "b" "Beta" false] ]}.

(** The same page after another actor has put a block between the two. *)
Definition editedPage : gmap string (list RawBlock) :=
  {[ "page" := [paragraph "a" "Alpha" false; paragraph "c" "Gamma" false;
                paragraph "b" "Beta" false] ]}.

(** The edit lands right after the first listing. *)
Definition racingRemote : RState MemoryRemote :=
  mkRState (mkMemory flatPage 0 (Some (1%nat, editedPage)) []) [].

(** The remote service refuses to delete block [b]. *)
Definition failingRemote : RState MemoryRemote :=
  mkRState (mkMemory flatPage 0 None ["b"]) [].

Definition rangeArgs (startText endText : string)
    (inclusiveStart inclusiveEnd dryRun : bool) : ReplaceArgs :=
  mkReplaceArgs "page" (byText startText) (byText endText)
    [mkNew (Some "paragraph") "New text"] inclusiveStart inclusiveEnd dryRun 100.

(** The children that a tree lists for a parent. *)
Definition listing (tree : gmap string (list RawBlock)) : string -> list RawBlock :=
  fun parentId => default [] (tree !! parentId).

(** The memory remote holds [tree] and no edit is scheduled. *)
Definition steadyOn (tree : gmap string (list RawBlock)) (st : RState MemoryRemote) : Prop :=
  childrenOf (remote st) = tree /\ editAfter (remote st) = None.

(** The ids of the flattened blocks, each with its [order_index]. *)
Definition flattenedOrder (fuel : nat) (scopeId : string) (maxBlocks : Z)
    (st : RState MemoryRemote) : option (list (string * nat)) :=
  match flattenScopeBlocks fuel scopeId maxBlocks st with
  | Some (Returned flattened, _) =>
      Some (map (fun block => (id block, order_index block)) (blocks flattened))
  | _ => None
  end.

End Demo.

(* ===================================================================== *)
(** ** Further notions used in the statements about the store and the
       coordinator                                                          *)
(* ===================================================================== *)

Module Checks.
Import Store Mutation.

(** The string holds a NUL character. *)
Fixpoint hasNul (s : string) : bool :=
  match s with
  | EmptyString => false
  | String a rest => Ascii.eqb a (ascii_of_nat 0) || hasNul rest
  end.

(** Two frames that differ at most in their environment. *)
Definition sameBooks (fr fr' : Frame) : Prop :=
  runCalls fr' = runCalls fr
  /\ recoverCalls fr' = recoverCalls fr
  /\ auditLog fr' = auditLog fr
  /\ flags fr' = flags fr.

End Checks.

Module Samples.
Import Store Mutation Demo.

(** The idempotency key of [updateArgs] in the bucket of clock 1000. *)
Definition updateKey : string :=
  buildInternalIdempotencyKey 1000 "pages.update" "{page_id:p1}".

(** The store file once [updateArgs] has been reserved at clock 1000, and
    the frame of its invocation at that point. *)
Definition reservedStore : gmap string StoreEntry :=
  {[ compositeKey updateKey "pages.update"
     := mkEntry (hashObject "{page_id:p1}") PENDING_RESPONSE_JSON 1000 ]}.

Definition reservedFrame : Frame := startFrame (mkEnv 1000 (Stored reservedStore)).

(** A store file in which another caller holds the reservation of
    [updateArgs], taken at clock 900. *)
Definition heldStore : gmap string StoreEntry :=
  {[ compositeKey updateKey "pages.update"
     := mkEntry (hashObject "{page_id:p1}") PENDING_RESPONSE_JSON 900 ]}.

(** A store file in which the key of [updateArgs] belongs to a request with
    another hash. *)
Definition foreignStore : gmap string StoreEntry :=
  {[ compositeKey updateKey "pages.update" := mkEntry "h(other)" "{}" 900 ]}.

(** A [run] that succeeds while the store file is replaced under it. *)
Definition overwritingRun (response : string) : Callback string :=
  fun e => (Returned response, mkEnv (clock e) (Stored foreignStore)).

(** A codec that parses nothing but the text of a JSON object. *)
Definition objectCodec : JsonCodec string :=
  {| JSON_stringify := fun response => response;
     JSON_parse := fun text => if String.prefix "{" text then Some text else None |}.

(** A store file whose entry holds a response that is not JSON. *)
Definition garbledStore : gmap string StoreEntry :=
  {[ compositeKey "k1" "pages.update" := mkEntry "h1" "<html>" 1000 ]}.

Definition gatewayTimeout : Thrown :=
  {| isCliError := false; code := None; status := Some 504;
     message := "Gateway Timeout"; retryable := false; details := None |}.

(** A [recover] that finds the write applied. *)
Definition confirming (response : string) : Callback (option string) :=
  fun e => (Returned (Some response), e).

(** The frame that the invocation of [updateArgs] with a [run] that throws
    [validationError] leaves when started at clock 1000 without a store
    file: the reservation has been released and one record written. *)
Definition failedFrame : Frame :=
  let args := updateArgs (throwing validationError) None in
  let fl := setOwnsReservation noFlags in
  mkFrame (mkEnv 1000 (Stored ∅)) 1 0
    [auditOf args updateKey false (Some (fl, false)) 1000] fl.

End Samples.

(* ===================================================================== *)
(** ** Reading a block tree, appending, and page mutations
       ([src/notion/repository.ts])                                        *)
(* ===================================================================== *)

Module Shape.
Import Repository.

(** The accumulators of [flattenScopeBlocks] are in order: every block is
    numbered by its position and has an id, the list is within the scan
    limit, and the siblings recorded for a parent are blocks of the list
    with that parent. *)
Definition tidy (maxBlocks : Z) (acc : Flattened) : Prop :=
  (forall i block, blocks acc !! i = Some block ->
     order_index block = i /\ id block <> "")
  /\ (blocks acc = [] \/ Z.of_nat (length (blocks acc)) <= maxBlocks)
  /\ (forall parentId sibs block,
        siblingsByParent acc !! parentId = Some sibs -> block ∈ sibs ->
        parent_id block = parentId /\ block ∈ blocks acc).

(** The accumulators have only grown: no block was removed and no parent
    forgotten. *)
Definition grows (acc acc' : Flattened) : Prop :=
  blocks acc `prefix_of` blocks acc'
  /\ (forall parentId, is_Some (siblingsByParent acc !! parentId) ->
                       is_Some (siblingsByParent acc' !! parentId)).

End Shape.

Module Reading.
Import Repository.

(** [args.view] of [collectChildren]. *)
Inductive View := Compact | Full.

Inductive BlockReadFormat := FormatCompact | FormatFull | FormatMarkdown.

(** What [collectChildren] keeps of a block: a copy of the block for the
    full view, the four fields of [toCompactBlock] for the compact view
    (as far as [RawBlock] records them). *)
Inductive Payload :=
| FullBlock (block : RawBlock)
| CompactBlock (id type : option string) (has_children : bool) (text : option string).

Definition toCompactBlock (block : RawBlock) : Payload :=
  CompactBlock (raw_id block) (raw_type block) (raw_has_children block)
               (extractBlockText block).

(** [args.view === "full" ? { ...block } : toCompactBlock(block)]. *)
Definition payloadFor (view : View) (block : RawBlock) : Payload :=
  match view with
  | Full => FullBlock block
  | Compact => toCompactBlock block
  end.

(** A collected block; [children] is [None] when the property is not set. *)
#[warnings="-register-all"]
Inductive Node :=
| mkNode (payload : Payload) (children : option (list Node)).

(** The number of blocks in a list of collected blocks, nested ones
    included. *)
Fixpoint nodeSize (node : Node) : nat :=
  match node with
  | mkNode _ None => 1%nat
  | mkNode _ (Some children) =>
      S ((fix total (l : list Node) : nat :=
            match l with
            | [] => 0%nat
            | child :: rest => (nodeSize child + total rest)%nat
            end) children)
  end.

Fixpoint totalSize (nodes : list Node) : nat :=
  match nodes with
  | [] => 0%nat
  | node :: rest => (nodeSize node + totalSize rest)%nat
  end.

(** The number of levels of a list of collected blocks. *)
Fixpoint nodeLevels (node : Node) : nat :=
  match node with
  | mkNode _ None => 1%nat
  | mkNode _ (Some children) =>
      S ((fix deepest (l : list Node) : nat :=
            match l with
            | [] => 0%nat
            | child :: rest => Nat.max (nodeLevels child) (deepest rest)
            end) children)
  end.

Fixpoint levels (nodes : list Node) : nat :=
  match nodes with
  | [] => 0%nat
  | node :: rest => Nat.max (nodeLevels node) (levels rest)
  end.

(** The remote state with the [state] object of [getBlocks]. *)
Record Counting (R : Type) := mkCounting {
  net : RState R;
  count : Z;
  truncated : bool
}.
Arguments mkCounting {R} net count truncated.
Arguments net {R} c.
Arguments count {R} c.
Arguments truncated {R} c.

Record BlocksResult := mkBlocksResult {
  gb_id : string;
  gb_blocks : option (list Node);
  gb_content_markdown : option string;
  returned_blocks : Z;
  gb_truncated : bool;
  max_blocks : Z;
  gb_depth : Z;
  gb_format : BlockReadFormat
}.

(** The result of [appendBlocks]: for a dry run the fields of the result of
    [insertBlocks] with [id] and [would_append_count]. *)
Inductive AppendResult :=
| WouldAppend (inserted : InsertResult) (id : string) (would_append_count : nat)
| Appended (id : string) (appended_count : nat) (inserted_ids : list string).

Definition would_insert_count_of (inserted : InsertResult) : option nat :=
  match inserted with
  | WouldInsert _ _ n _ => Some n
  | Inserted _ _ _ _ => None
  end.

Definition inserted_count_of (inserted : InsertResult) : option nat :=
  match inserted with
  | Inserted _ _ n _ => Some n
  | WouldInsert _ _ _ _ => None
  end.

Definition inserted_ids_of (inserted : InsertResult) : option (list string) :=
  match inserted with
  | Inserted _ _ _ ids => Some ids
  | WouldInsert _ _ _ _ => None
  end.

Section Remote.
Context {R : Type} `{NotionClientAdapter R}.

(** A step on the remote state, run inside [collectChildren]. *)
Definition onNet {A} (m : Prog (RState R) A) : Prog (Counting R) A :=
  fun c =>
    match m (net c) with
    | Some (o, st') => Some (o, mkCounting st' (count c) (truncated c))
    | None => None
    end.

Definition countOne (c : Counting R) : Counting R :=
  mkCounting (net c) (count c + 1) (truncated c).

Definition setTruncated (c : Counting R) : Counting R :=
  mkCounting (net c) (count c) true.

(** The [for (const rawBlock of response.results ?? [])] loop of
    [collectChildren]; [descend] is [args.depth > 1] and [recurse] the
    recursive call for the children of a block. *)
Fixpoint collectPage (recurse : string -> Prog (Counting R) (list Node))
    (descend : bool) (maxBlocks : Z) (view : View)
    (items : list (option RawBlock)) (results : list Node)
    : Prog (Counting R) (list Node) :=
  match items with
  | [] => ret results
  | rawBlock :: rest =>
      (c <- get ;;
       if maxBlocks <=? count c then
         modify setTruncated ;;; ret results
       else
         match rawBlock with
         | None => collectPage recurse descend maxBlocks view rest results
         | Some block =>
             modify countOne ;;;
             let payloadBlock := payloadFor view block in
             children <-
               (if descend && raw_has_children block then
                  match raw_id block with
                  | Some blockId =>
                      (collected <- recurse blockId ;; ret (Some collected))
                  | None => ret None
                  end
                else ret None) ;;
             collectPage recurse descend maxBlocks view rest
                         (results ++ [mkNode payloadBlock children])
         end)%prog
  end.

(** The [while (state.count < args.maxBlocks)] loop of [collectChildren];
    [fuel] bounds the pages listed and the nesting together. *)
Fixpoint collectLoop (fuel : nat) (blockId : string) (depth maxBlocks : Z) (view : View)
    (cursor : option string) (results : list Node) : Prog (Counting R) (list Node) :=
  match fuel with
  | O => outOfFuel
  | S fuel' =>
      (c <- get ;;
       if count c <? maxBlocks then
         response <- onNet (callList {| lp_block_id := blockId;
                                        lp_page_size := 100;
                                        lp_start_cursor :=
                                          if truthy cursor then cursor else None |}) ;;
         results' <- collectPage
                       (fun childId =>
                          collectLoop fuel' childId (depth - 1) maxBlocks view None [])
                       (1 <? depth) maxBlocks view
                       (default [] (lr_results response)) results ;;
         c' <- get ;;
         if maxBlocks <=? count c' then
           (if lr_has_more response then modify setTruncated else ret tt) ;;;
           ret results'
         else if negb (lr_has_more response) || negb (truthy (lr_next_cursor response)) then
           ret results'
         else
           collectLoop fuel' blockId depth maxBlocks view (lr_next_cursor response) results'
       else ret results)%prog
  end.

Definition collectChildren (fuel : nat) (blockId : string) (depth maxBlocks : Z)
    (view : View) : Prog (Counting R) (list Node) :=
  collectLoop fuel blockId depth maxBlocks view None [].

(** [renderBlocksToMarkdown(blocks, 0)], which [getBlocks] applies to the
    collected blocks for the markdown format. *)
Variable renderBlocksToMarkdown : list Node -> Z -> string.

Definition getBlocks (fuel : nat) (pageOrBlockId : string) (maxBlocks depth : Z)
    (view : BlockReadFormat) : Prog (RState R) BlocksResult :=
  fun st =>
    let state := mkCounting st 0 false in
    let internalView :=
      match view with
      | FormatMarkdown => Full
      | FormatFull => Full
      | FormatCompact => Compact
      end in
    match collectChildren fuel pageOrBlockId depth maxBlocks internalView state with
    | Some (Returned blocks, c) =>
        Some (Returned
                match view with
                | FormatMarkdown =>
                    {| gb_id := pageOrBlockId;
                       gb_blocks := None;
                       gb_content_markdown := Some (renderBlocksToMarkdown blocks 0);
                       returned_blocks := count c;
                       gb_truncated := truncated c;
                       max_blocks := maxBlocks;
                       gb_depth := depth;
                       gb_format := FormatMarkdown |}
                | _ =>
                    {| gb_id := pageOrBlockId;
                       gb_blocks := Some blocks;
                       gb_content_markdown := None;
                       returned_blocks := count c;
                       gb_truncated := truncated c;
                       max_blocks := maxBlocks;
                       gb_depth := depth;
                       gb_format := view |}
                end,
              net c)
    | Some (Threw error, c) => Some (Threw error, net c)
    | None => None
    end.

Definition appendBlocks (parentId : string) (newBlocks : list NewBlock) (dryRun : bool)
    : Prog (RState R) AppendResult :=
  (inserted <- insertBlocks parentId newBlocks PosEnd dryRun ;;
   if dryRun then
     ret (WouldAppend inserted parentId
            (default (length newBlocks) (would_insert_count_of inserted)))
   else
     ret (Appended parentId
            (default (length newBlocks) (inserted_count_of inserted))
            (default [] (inserted_ids_of inserted))))%prog.

End Remote.

(** *** Conditions used in the statements about [getBlocks] *)

(** [view === "markdown" ? "full" : view]. *)
Definition internalViewOf (view : BlockReadFormat) : View :=
  match view with
  | FormatCompact => Compact
  | FormatFull | FormatMarkdown => Full
  end.

(** A block collected without its children. *)
Definition leaf (view : View) (block : RawBlock) : Node :=
  mkNode (payloadFor view block) None.

(** The blocks below [parentId] in a remote tree that does not change,
    given by the children of each block, down to [levels] levels: each
    child with its payload and, above the last level, when it has children
    and an id, the blocks below it. *)
Fixpoint treeOf (levels : nat) (childrenOf : string -> list RawBlock) (view : View)
    (parentId : string) : list Node :=
  match levels with
  | O => []
  | S levels' =>
      map (fun block =>
             mkNode (payloadFor view block)
               (if (0 <? levels')%nat && raw_has_children block then
                  match raw_id block with
                  | Some blockId => Some (treeOf levels' childrenOf view blockId)
                  | None => None
                  end
                else None))
          (childrenOf parentId)
  end.

Section Conditions.
Context {R : Type}.

(** From [c] to [c'] the count has not gone down and has not passed the
    limit, no write request was sent, and [truncated] was set only with
    the limit reached. *)
Definition advances (maxBlocks : Z) (c c' : Counting R) : Prop :=
  count c <= count c'
  /\ (count c' <= maxBlocks \/ count c' = count c)
  /\ mutations (net c') = mutations (net c)
  /\ (truncated c' = true -> truncated c = true \/ maxBlocks <= count c').

(** In addition, the blocks returned are the [results] given and one block
    for each unit the count went up, nested at most [depth] levels. *)
Definition collected (maxBlocks : Z) (depth : nat) (results : list Node)
    (c : Counting R) (out : Outcome (list Node)) (c' : Counting R) : Prop :=
  advances maxBlocks c c'
  /\ forall nodes,
       out = Returned nodes ->
       Z.of_nat (totalSize nodes) = Z.of_nat (totalSize results) + (count c' - count c)
       /\ (levels nodes <= Nat.max (levels results) depth)%nat.

End Conditions.

End Reading.

Module PageMutation.
Import Repository.

(** A response of the remote client: not an object, or an object with its
    [object] field, when that is a string, and the rest as a page [P]. *)
Inductive RemoteValue (P : Type) :=
| NotAnObject
| AnObject (object : option string) (record : P).
Arguments NotAnObject {P}.
Arguments AnObject {P} object record.

Definition getStatus (error : Thrown) : option Z := status error.

Definition asRecord {P} (value : RemoteValue P) : Outcome (option string * P) :=
  match value with
  | NotAnObject =>
      Threw (CliError "internal_error" "Expected object response from Notion API." false)
  | AnObject object record => Returned (object, record)
  end.

Definition asPage {P} (value : RemoteValue P) : Outcome P :=
  match asRecord value with
  | Threw e => Threw e
  | Returned (object, record) =>
      if bool_decide (object = Some "page") then Returned record
      else Threw (CliError "invalid_input" "Expected a page object." false)
  end.

Definition concurrentUpdatesError : Thrown :=
  CliError "conflict" "Could not apply mutation due to concurrent updates." false.

Section Pages.
Context {W P A : Type}.

(** [ctx.notion.retrievePage] on the state [W] of the remote service. *)
Variable retrievePage : string -> W -> Outcome (RemoteValue P) * W.

Definition callRetrieve (pageId : string) : Prog W (RemoteValue P) :=
  fun s => let '(o, s') := retrievePage pageId s in Some (o, s').

Definition callApply (apply : P -> W -> Outcome A * W) (currentPage : P) : Prog W A :=
  fun s => let '(o, s') := apply currentPage s in Some (o, s').

(** The [for (let attempt = 1; attempt <= attempts; attempt += 1)] loop of
    [withBestEffortPageMutation], from the given [attempt] on. *)
Fixpoint attemptFrom (fuel : nat) (attempt attempts : Z) (pageId : string)
    (apply : P -> W -> Outcome A * W) : Prog W A :=
  if attempt <=? attempts then
    match fuel with
    | O => outOfFuel
    | S fuel' =>
        (value <- callRetrieve pageId ;;
         currentPage <- liftOutcome (asPage value) ;;
         tryCatch (callApply apply currentPage)
           (fun error =>
              if bool_decide (getStatus error = Some 409) && (attempt <? attempts)
              then attemptFrom fuel' (attempt + 1) attempts pageId apply
              else throw error))%prog
    end
  else throw concurrentUpdatesError.

Definition withBestEffortPageMutation (pageId : string)
    (apply : P -> W -> Outcome A * W) : Prog W A :=
  attemptFrom 2 1 2 pageId apply.

(** One attempt whose outcome is final: the page is retrieved, checked and
    handed to [apply]. *)
Definition finalAttempt (pageId : string) (apply : P -> W -> Outcome A * W) (w : W)
    : Outcome A * W :=
  let '(o, w1) := retrievePage pageId w in
  match o with
  | Threw e => (Threw e, w1)
  | Returned value =>
      match asPage value with
      | Threw e => (Threw e, w1)
      | Returned currentPage => apply currentPage w1
      end
  end.

End Pages.

End PageMutation.

Module Trees.
Import Repository Reading PageMutation Demo.

(** What the flattener returns for a tree held in memory. *)
Definition flattenedOf (tree : gmap string (list RawBlock)) : Flattened :=
  match flattenScopeBlocks 5 "page" 100 (memoryOf tree) with
  | Some (Returned flattened, _) => flattened
  | _ => {| blocks := []; siblingsByParent := ∅ |}
  end.

(** The state of the remote service after [reads] listings of [tree]. *)
Definition memoryAfter (tree : gmap string (list RawBlock)) (reads : nat)
    (log : list Mutation) : RState MemoryRemote :=
  mkRState (mkMemory tree reads None []) log.

Definition note : NewBlock := mkNew (Some "paragraph") "Note".

Definition noteRequest : AppendPayload :=
  {| ap_block_id := "page"; ap_children := [note]; ap_position := PosEnd |}.

(** A remote page that is just a version number; every retrieval returns
    the current version. *)
Definition retrieveVersion (pageId : string) (version : nat)
    : Outcome (RemoteValue nat) * nat :=
  (Returned (AnObject (Some "page") version), version).

Definition conflict409 : Thrown :=
  {| isCliError := false; code := None; status := Some 409;
     message := "Conflict"; retryable := false; details := None |}.

(** An update that conflicts on version 0, which moves the page to version
    1, and succeeds on any later version. *)
Definition updateOnce (currentPage : nat) (version : nat) : Outcome string * nat :=
  if (currentPage =? 0)%nat then (Threw conflict409, 1%nat)
  else (Returned "updated", version).

(** A remote service that lists the children of ["page"] in one page of
    results, with [has_more] as given. *)
Definition onePage (children : list RawBlock) (hasMore : bool) : ListResponse :=
  {| lr_results := Some (map Some children);
     lr_has_more := hasMore;
     lr_next_cursor := None |}.

End Trees.

(* ===================================================================== *)
(** ** The store behind its lock ([withLock], [acquireLock] and the file
       writes of [src/idempotency/store.ts]), and the coordinator on it    *)
(* ===================================================================== *)

(** [Store] and [Mutation] above describe what an operation computes once
    the lock is held and when every write succeeds.  This module embeds the
    operations with the lock and the writes as the code has them: creating
    the lock file can fail, waiting for it takes time and can time out, the
    other processes can write the store file before the lock is acquired,
    and the write of the store file can fail. *)
Module Locked.
Import Store Mutation.

Definition LOCK_WAIT_TIMEOUT_MS : Z := 35000.
Definition LOCK_POLL_INTERVAL_MS : Z := 30.

(** [new CliError("internal_error", "Failed to acquire idempotency store
    lock.", { details: error })]. *)
Definition lockFailedError (error : Thrown) : Thrown :=
  CliErrorWith "internal_error" "Failed to acquire idempotency store lock."
    [message error].

Definition storeBusyError : Thrown :=
  CliError "retryable_upstream" "Idempotency store is busy. Retry shortly." true.

(** What a store operation works on: the clock and the store file, and the
    number of requests this process has made to the file system so far. *)
Record Disk := mkDisk {
  disk_env : Env;
  requests : nat
}.

(** [try { body } finally { cleanup }]. *)
Definition tryFinally {S A} (body : Prog S A) (cleanup : Prog S unit) : Prog S A :=
  fun s =>
    match body s with
    | None => None
    | Some (o, s') =>
        match cleanup s' with
        | None => None
        | Some (Returned _, s'') => Some (o, s'')
        | Some (Threw e, s'') => Some (Threw e, s'')
        end
    end.

(** The rest of the system as this process meets it.  [others] is what the
    other processes have done to the store file by the time a sleep ends at
    the given clock value.  [openLock n] is what the exclusive creation of
    the lock file ([openSync(lockPath, "wx")] and the write of the lock
    record) does when it is the [n]-th request of this process to the file
    system; [meanwhile n] is what the other processes have done to the
    store file since this process last looked, when that request creates
    the lock file.  [writeStore n] is what the write of the store file (to
    a temporary file that is renamed over it) does when it is the [n]-th
    request.  [random n mod 20] is [Math.floor(Math.random() * 20)] in the
    pause after the [n]-th request. *)
Record FileSystem := mkFileSystem {
  others : Z -> File -> File;
  openLock : nat -> Outcome unit;
  meanwhile : nat -> File -> File;
  writeStore : nat -> Outcome unit;
  random : nat -> Z
}.

Section Operations.
Context {Resp : Type} `{JsonCodec Resp}.
Variable fs : FileSystem.

Definition dateNow : Prog Disk Z :=
  fun d => Some (Returned (clock (disk_env d)), d).

(** The next request to the file system: its number. *)
Definition request : Prog Disk nat :=
  fun d => Some (Returned (requests d), mkDisk (disk_env d) (S (requests d))).

(** [sleepMs(ms)]: this process blocks for [ms] milliseconds while the
    others go on. *)
Definition sleepMs (ms : Z) : Prog Disk unit :=
  modify (fun d =>
    let t := clock (disk_env d) + ms in
    mkDisk (mkEnv t (others fs t (file (disk_env d)))) (requests d)).

(** [tryClearStaleLock] and [releaseLock] remove the lock file and swallow
    every error; what that means for a later attempt to create the lock
    file is part of [openLock]. *)
Definition tryClearStaleLock : Prog Disk unit := ret tt.

Definition releaseLock : Prog Disk unit := ret tt.

(** The lock file has been created by the [n]-th request: from now on the
    store file is this process's alone, as the others have left it. *)
Definition locked (n : nat) : Prog Disk unit :=
  modify (fun d =>
    mkDisk (mkEnv (clock (disk_env d)) (meanwhile fs n (file (disk_env d)))) (requests d)).

(** The [while (Date.now() < deadline)] loop of [acquireLock]. *)
Fixpoint acquireLoop (fuel : nat) (deadline : Z) : Prog Disk unit :=
  (now <- dateNow ;;
   if now <? deadline then
     match fuel with
     | O => outOfFuel
     | S fuel' =>
         n <- request ;;
         match openLock fs n with
         | Returned _ => locked n
         | Threw error =>
             if negb (bool_decide (code error = Some "EEXIST")) then
               throw (lockFailedError error)
             else
               tryClearStaleLock ;;;
               sleepMs (LOCK_POLL_INTERVAL_MS + random fs n mod 20) ;;;
               acquireLoop fuel' deadline
         end
     end
   else throw storeBusyError)%prog.

(** Every round of the loop sleeps for at least 30 milliseconds, so 1167
    rounds reach the deadline. *)
Definition acquireLock : Prog Disk unit :=
  (now <- dateNow ;; acquireLoop 1167 (now + LOCK_WAIT_TIMEOUT_MS))%prog.

Definition withLock {A} (fn : Prog Disk A) : Prog Disk A :=
  (acquireLock ;;; tryFinally fn releaseLock)%prog.

Definition saveDataUnlocked (data : StoreData) : Prog Disk unit :=
  (n <- request ;;
   match writeStore fs n with
   | Returned _ =>
       modify (fun d => mkDisk (mkEnv (clock (disk_env d)) (Stored data)) (requests d))
   | Threw error => throw error
   end)%prog.

Definition loadDataUnlocked : Prog Disk StoreData :=
  (d <- get ;;
   match file (disk_env d) with
   | Missing => ret ∅
   | Corrupt => saveDataUnlocked ∅ ;;; ret ∅
   | Stored data =>
       let data' := prune (clock (disk_env d)) data in
       let pruned := negb (bool_decide (data' = data)) in
       (if pruned then saveDataUnlocked data' else ret tt) ;;;
       ret data'
   end)%prog.

Definition lookup (idempotencyKey commandName inputHash' : string)
    : Prog Disk (IdempotencyLookup Resp) :=
  withLock
    (data <- loadDataUnlocked ;;
     match data !! compositeKey idempotencyKey commandName with
     | None => ret LMiss
     | Some entry =>
         if negb (String.eqb (inputHash entry) inputHash') then
           ret (LConflict (inputHash entry))
         else if String.eqb (responseJson entry) PENDING_RESPONSE_JSON then
           ret LPending
         else
           match JSON_parse (responseJson entry) with
           | Some response => ret (LReplay response)
           | None => throw corruptError
           end
     end)%prog.

Definition reserve (idempotencyKey commandName inputHash' : string)
    : Prog Disk (IdempotencyReservation Resp) :=
  withLock
    (data <- loadDataUnlocked ;;
     let key := compositeKey idempotencyKey commandName in
     match data !! key with
     | None =>
         now <- dateNow ;;
         saveDataUnlocked
           (<[key := {| inputHash := inputHash';
                        responseJson := PENDING_RESPONSE_JSON;
                        createdAt := now |}]> data) ;;;
         ret RExecute
     | Some entry =>
         if negb (String.eqb (inputHash entry) inputHash') then
           ret (RConflict (inputHash entry))
         else if String.eqb (responseJson entry) PENDING_RESPONSE_JSON then
           ret RPending
         else
           match JSON_parse (responseJson entry) with
           | Some response => ret (RReplay response)
           | None => throw corruptError
           end
     end)%prog.

Definition complete (idempotencyKey commandName inputHash' : string)
    (response : Resp) : Prog Disk unit :=
  withLock
    (data <- loadDataUnlocked ;;
     let key := compositeKey idempotencyKey commandName in
     match data !! key with
     | None =>
         now <- dateNow ;;
         saveDataUnlocked
           (<[key := {| inputHash := inputHash';
                        responseJson := JSON_stringify response;
                        createdAt := now |}]> data)
     | Some entry =>
         if negb (String.eqb (inputHash entry) inputHash') then
           throw finalizeError
         else
           now <- dateNow ;;
           saveDataUnlocked
             (<[key := {| inputHash := inputHash entry;
                          responseJson := JSON_stringify response;
                          createdAt := now |}]> data)
     end)%prog.

Definition release (idempotencyKey commandName inputHash' : string)
    : Prog Disk unit :=
  withLock
    (data <- loadDataUnlocked ;;
     let key := compositeKey idempotencyKey commandName in
     match data !! key with
     | Some entry =>
         if String.eqb (inputHash entry) inputHash'
            && String.eqb (responseJson entry) PENDING_RESPONSE_JSON
         then saveDataUnlocked (delete key data)
         else ret tt
     | None => ret tt
     end)%prog.

(** What [acquireLock] throws: the store is busy, or the lock file could
    not be created for another reason than its being there. *)
Definition lockError (e : Thrown) : Prop :=
  e = storeBusyError
  \/ exists n error,
       openLock fs n = Threw error
       /\ code error <> Some "EEXIST"
       /\ e = lockFailedError error.

(** The file system accepts every write of the store file. *)
Definition writesSucceed : Prop := forall n, writeStore fs n = Returned tt.

(** The lock file can always be created at once, and the other processes
    leave the store file alone between two operations of this one. *)
Definition lockFree : Prop :=
  forall n, openLock fs n = Returned tt /\ forall f, meanwhile fs n f = f.

End Operations.

(** The state of one invocation of the coordinator: its frame, and the
    number of requests made to the file system. *)
Record Session := mkSession {
  frame : Frame;
  asked : nat
}.

Section Coordinator.
Context {Shape Resp : Type} `{JsonCodec Resp} `{RequestHash Shape}.
Variable fs : FileSystem.

(** A step of the coordinator that makes no request to the file system:
    a callback, a flag, a sleep, an audit record. *)
Definition step {A} (m : Prog Frame A) : Prog Session A :=
  fun s =>
    match m (frame s) with
    | Some (o, fr') => Some (o, mkSession fr' (asked s))
    | None => None
    end.

(** A store operation, run on the current environment. *)
Definition onStore {A} (op : Prog Disk A) : Prog Session A :=
  fun s =>
    match op (mkDisk (env (frame s)) (asked s)) with
    | Some (o, d') => Some (o, mkSession (withEnv (disk_env d') (frame s)) (requests d'))
    | None => None
    end.

Definition store_lookup (idempotencyKey command requestHash : string)
    : Prog Session (IdempotencyLookup Resp) :=
  onStore (lookup fs idempotencyKey command requestHash).

Definition store_reserve (idempotencyKey command requestHash : string)
    : Prog Session (IdempotencyReservation Resp) :=
  onStore (reserve fs idempotencyKey command requestHash).

Definition store_complete (idempotencyKey command requestHash : string)
    (response : Resp) : Prog Session unit :=
  onStore (complete fs idempotencyKey command requestHash
             response).

Definition store_release (idempotencyKey command requestHash : string)
    : Prog Session unit :=
  onStore (release fs idempotencyKey command requestHash).

(** The inner [while (Date.now() < deadline)] loop. *)
Fixpoint pollLoop (fuel : nat) (deadline : Z)
    (idempotencyKey command requestHash : string)
    : Prog Session (option (IdempotencyReservation Resp)) :=
  (now <- step Mutation.dateNow ;;
   if now <? deadline then
     match fuel with
     | O => outOfFuel
     | S fuel' =>
         step (sleep (others fs) 50) ;;;
         current <- store_lookup idempotencyKey command requestHash ;;
         match current with
         | LPending => pollLoop fuel' deadline idempotencyKey command requestHash
         | LMiss =>
             l <- store_reserve idempotencyKey command requestHash ;;
             ret (Some l)
         | LReplay response => ret (Some (RReplay response))
         | LConflict storedHash => ret (Some (RConflict storedHash))
         end
     end
   else ret None)%prog.

(** The outer [while (lookup.kind === "pending")] loop. *)
Fixpoint awaitReservation (fuel : nat) (lookup0 : IdempotencyReservation Resp)
    (idempotencyKey command requestHash : string)
    : Prog Session (IdempotencyReservation Resp) :=
  match lookup0 with
  | RPending =>
      match fuel with
      | O => outOfFuel
      | S fuel' =>
          (now <- step Mutation.dateNow ;;
           let deadline := now + 15000 in
           resolved <- pollLoop 300 deadline idempotencyKey command requestHash ;;
           match resolved with
           | Some l => ret l
           | None =>
               l <- store_reserve idempotencyKey command requestHash ;;
               match l with
               | RPending => throw inProgressError
               | _ => awaitReservation fuel' l idempotencyKey command requestHash
               end
           end)%prog
      end
  | _ => ret lookup0
  end.

(** [store.complete] in its [try], the audit record of a success, and the
    [return response]. *)
Definition persistAndReport (args : MutationArgs Shape Resp)
    (idempotencyKey requestHash : string) (response : Resp) : Prog Session Resp :=
  (tryCatch
     (store_complete idempotencyKey (commandName args) requestHash response)
     (fun _ => step (setFlag setIdempotencyPersistDegraded)) ;;;
   s <- get ;;
   step (safeAppendAuditLog
           (auditOf args idempotencyKey true (Some (flags (frame s), false))
                    (clock (env (frame s))))) ;;;
   ret response)%prog.

(** The outer [try] from [ownsReservation = true] onwards. *)
Definition runOwned (args : MutationArgs Shape Resp) (idempotencyKey requestHash : string)
    : Prog Session Resp :=
  (step (setFlag setOwnsReservation) ;;;
   response <- step (tryCatch (callRun (run args)) (onRunError args)) ;;
   persistAndReport args idempotencyKey requestHash response)%prog.

(** The first [reserve] and the wait that follows it. *)
Definition acquireReservation (args : MutationArgs Shape Resp)
    (idempotencyKey requestHash : string) : Prog Session (IdempotencyReservation Resp) :=
  (first <- store_reserve idempotencyKey (commandName args) requestHash ;;
   awaitReservation 2 first idempotencyKey (commandName args) requestHash)%prog.

(** The body of the outer [try]. *)
Definition attempt (args : MutationArgs Shape Resp) (idempotencyKey requestHash : string)
    : Prog Session Resp :=
  (lookup1 <- acquireReservation args idempotencyKey requestHash ;;
   match lookup1 with
   | RConflict storedHash =>
       throw (keyConflictError (commandName args) storedHash requestHash)
   | RReplay response =>
       now <- step Mutation.dateNow ;;
       step (safeAppendAuditLog (auditOf args idempotencyKey true None now)) ;;;
       ret response
   | _ => runOwned args idempotencyKey requestHash
   end)%prog.

(** The outer [catch (error)]: [store.release] stands outside any [try]. *)
Definition onFailure (args : MutationArgs Shape Resp) (idempotencyKey requestHash : string)
    (error : Thrown) : Prog Session Resp :=
  (s <- get ;;
   (if ownsReservation (flags (frame s)) then
      store_release idempotencyKey (commandName args) requestHash
    else ret tt) ;;;
   s' <- get ;;
   step (safeAppendAuditLog
           (auditOf args idempotencyKey false
              (Some (flags (frame s'), outcomeUncertain (flags (frame s'))))
              (clock (env (frame s'))))) ;;;
   throw error)%prog.

Definition executeMutationWithIdempotency (args : MutationArgs Shape Resp)
    : Prog Session Resp :=
  fun s0 =>
    let requestHash := hashObject (requestShape args) in
    let idempotencyKey :=
      buildInternalIdempotencyKey (clock (env (frame s0))) (commandName args)
                                  (requestShape args) in
    tryCatch (attempt args idempotencyKey requestHash)
             (onFailure args idempotencyKey requestHash)
             (mkSession (withFlags (fun _ => noFlags) (frame s0)) (asked s0)).

End Coordinator.

(** A program on sessions does what a program on frames does: whenever the
    latter ends in a frame, the former ends with the same outcome in a
    session with that frame. *)
Definition agrees {A} (m : Prog Frame A) (m' : Prog Session A) : Prop :=
  forall s o fr',
    m (frame s) = Some (o, fr') -> exists n, m' s = Some (o, mkSession fr' n).

End Locked.

(** Sample behaviours of the file system. *)
Module Faults.
Import Store Mutation Demo Samples.

(** Every request succeeds. *)
Definition granted : nat -> Outcome unit := fun _ => Returned tt.

(** The other processes leave the store file alone. *)
Definition untouched : nat -> File -> File := fun _ f => f.

(** An error of the file system with the given [code]. *)
Definition fsError (c msg : string) : Thrown :=
  {| isCliError := false; code := Some c; status := None;
     message := msg; retryable := false; details := None |}.

Definition EACCES : Thrown := fsError "EACCES" "permission denied".
Definition EEXIST : Thrown := fsError "EEXIST" "file already exists".
Definition ENOSPC : Thrown := fsError "ENOSPC" "no space left on device".

(** The request succeeds while fewer than [n] requests have been made, and
    fails with [error] from then on. *)
Definition failingFrom (n : nat) (error : Thrown) : nat -> Outcome unit :=
  fun k => if (k <? n)%nat then Returned tt else Threw error.

Definition noJitter : nat -> Z := fun _ => 0.

(** A file system that this process has to itself and that serves every
    request; one on which the lock file cannot be created from the [n]-th
    request on, for the reason [error]; and one that refuses to write the
    store file from the [n]-th request on. *)
Definition calm : Locked.FileSystem :=
  Locked.mkFileSystem alone granted untouched granted noJitter.

Definition lockFailingFrom (n : nat) (error : Thrown) : Locked.FileSystem :=
  Locked.mkFileSystem alone (failingFrom n error) untouched granted noJitter.

Definition writeFailingFrom (n : nat) (error : Thrown) : Locked.FileSystem :=
  Locked.mkFileSystem alone granted untouched (failingFrom n error) noJitter.

(** The session of a first invocation in environment [e]. *)
Definition startSession (e : Env) : Locked.Session := Locked.mkSession (startFrame e) 0.

(** [updateArgs] with a [run] that times out at the gateway, and with a
    [run] that is refused as invalid; neither has a [recover]. *)
Definition timeoutArgs : MutationArgs string string :=
  updateArgs (throwing gatewayTimeout) None.

Definition invalidArgs : MutationArgs string string :=
  updateArgs (throwing validationError) None.

(** The session of [updateArgs] once its key has been reserved at clock
    1000: the lock file was created and the store file written. *)
Definition reservedSession : Locked.Session := Locked.mkSession reservedFrame 2.

(** The session that the invocation of [invalidArgs] leaves: the release
    has created the lock file and written the store file once more. *)
Definition failedSession : Locked.Session := Locked.mkSession failedFrame 4.

(** The session that the invocation of [timeoutArgs] leaves when the
    release cannot create the lock file: the reservation is still in the
    store and no audit record has been written. *)
Definition strandedSession : Locked.Session :=
  Locked.mkSession
    (mkFrame (mkEnv 1000 (Stored reservedStore)) 1 0 []
       (setOutcomeUncertain (setRecoveryAttempted (setOwnsReservation noFlags))))
    3.

End Faults.

(* ===================================================================== *)
(** ** Stepping through programs                                           *)
(* ===================================================================== *)

Lemma bind_Returned {S A B} (m : Prog S A) (k : A -> Prog S B) s a s' :
  m s = Some (Returned a, s') -> bind m k s = k a s'.
Proof. intros E. unfold bind. rewrite E. reflexivity. Qed.

Lemma bind_Threw {S A B} (m : Prog S A) (k : A -> Prog S B) s e s' :
  m s = Some (Threw e, s') -> bind m k s = Some (Threw e, s').
Proof. intros E. unfold bind. rewrite E. reflexivity. Qed.

(* ===================================================================== *)
(** ** Properties of the idempotency store                                 *)
(* ===================================================================== *)

Module StoreFacts.
Import Store Demo.

Lemma prune_lookup (now : Z) (data : StoreData) (key : string) :
  prune now data !! key =
  match data !! key with
  | Some entry => if expired now entry then None else Some entry
  | None => None
  end.
Proof.
  unfold prune. destruct (data !! key) as [entry|] eqn:E.
  - destruct (expired now entry) eqn:X.
    + apply map_lookup_filter_None. right. intros x Hx. simpl.
      rewrite E in Hx. injection Hx as <-. rewrite X. discriminate.
    + apply map_lookup_filter_Some. split; [exact E | exact X].
  - apply map_lookup_filter_None. left. exact E.
Qed.

Lemma prune_idempotent (now : Z) (data : StoreData) :
  prune now (prune now data) = prune now data.
Proof.
  apply map_eq. intros key. rewrite !prune_lookup.
  destruct (data !! key) as [entry|]; [|reflexivity].
  destruct (expired now entry) eqn:X; [reflexivity|]. rewrite X. reflexivity.
Qed.

Lemma loadDataUnlocked_stored (now : Z) (data : StoreData) :
  loadDataUnlocked now (Stored data) = (prune now data, Stored (prune now data)).
Proof.
  unfold loadDataUnlocked, saveDataUnlocked.
  destruct (bool_decide (prune now data = data)) eqn:B; simpl; [|reflexivity].
  apply bool_decide_eq_true in B. rewrite B. reflexivity.
Qed.

Lemma visible_stored (now : Z) (data : StoreData) :
  visible now (Stored data) = prune now data.
Proof. unfold visible. rewrite loadDataUnlocked_stored. reflexivity. Qed.

Lemma visible_Some_stored (now : Z) (f : File) (key : string) (entry : StoreEntry) :
  visible now f !! key = Some entry ->
  exists data, f = Stored data /\ data !! key = Some entry /\ expired now entry = false.
Proof.
  destruct f as [| |data];
    [unfold visible; simpl; rewrite lookup_empty; discriminate ..|].
  rewrite visible_stored, prune_lookup.
  destruct (data !! key) as [e|] eqn:E; [|discriminate].
  destruct (expired now e) eqn:X; [discriminate|].
  intros [= <-]. exists data. auto.
Qed.

Lemma prune_delete_expired (now : Z) (data : StoreData) (key : string) (entry : StoreEntry) :
  data !! key = Some entry -> expired now entry = true ->
  prune now (delete key data) = prune now data.
Proof.
  intros E X. apply map_eq. intros k. rewrite !prune_lookup.
  destruct (decide (k = key)) as [->|Hne].
  - rewrite lookup_delete_eq, E, X. reflexivity.
  - rewrite lookup_delete_ne by congruence. reflexivity.
Qed.

Section Facts.
Context {Resp : Type} `{JsonCodec Resp}.

(** C5, as amended. When the store holds an entry for the composite key
    that has not outlived the TTL at the time of the call, and [complete]
    is called with another input hash, [complete] throws an
    [internal_error] and the file keeps that entry as it was: same input
    hash, same response, same timestamp. *)
Theorem complete_mismatch_keeps_entry
    (now : Z) (idempotencyKey command hash : string) (response : Resp)
    (data : StoreData) (entry : StoreEntry) :
  data !! compositeKey idempotencyKey command = Some entry ->
  expired now entry = false ->
  inputHash entry <> hash ->
  exists data',
    complete now idempotencyKey command hash response (Stored data)
      = (Threw finalizeError, Stored data')
    /\ code finalizeError = Some "internal_error"
    /\ data' !! compositeKey idempotencyKey command = Some entry
    /\ visible now (Stored data') = visible now (Stored data).
Proof.
  intros E X Hne. exists (prune now data).
  unfold complete. rewrite loadDataUnlocked_stored. cbv beta iota zeta.
  rewrite prune_lookup, E, X.
  apply String.eqb_neq in Hne. rewrite Hne. simpl.
  repeat split.
  rewrite !visible_stored. apply prune_idempotent.
Qed.

(** C6. An entry older than the TTL of 180 seconds counts as absent:
    [lookup] returns [miss], [reserve] returns [execute] and stores a
    fresh pending entry, and both behave exactly as on the file from
    which the entry has been deleted. *)
Theorem expired_entry_is_absent
    (now : Z) (idempotencyKey command hash : string)
    (data : StoreData) (entry : StoreEntry) :
  data !! compositeKey idempotencyKey command = Some entry ->
  PRUNE_TTL_MS < now - createdAt entry ->
  PRUNE_TTL_MS = 180000
  /\ lookup (Resp := Resp) now idempotencyKey command hash (Stored data)
     = (Returned LMiss, Stored (prune now data))
  /\ reserve (Resp := Resp) now idempotencyKey command hash (Stored data)
     = (Returned RExecute,
        Stored (<[compositeKey idempotencyKey command :=
                   mkEntry hash PENDING_RESPONSE_JSON now]> (prune now data)))
  /\ lookup (Resp := Resp) now idempotencyKey command hash (Stored data)
     = lookup now idempotencyKey command hash
         (Stored (delete (compositeKey idempotencyKey command) data))
  /\ reserve (Resp := Resp) now idempotencyKey command hash (Stored data)
     = reserve now idempotencyKey command hash
         (Stored (delete (compositeKey idempotencyKey command) data)).
Proof.
  intros E Hage.
  assert (X : expired now entry = true) by (unfold expired; apply Z.ltb_lt; exact Hage).
  assert (P : prune now data !! compositeKey idempotencyKey command = None)
    by (rewrite prune_lookup, E, X; reflexivity).
  split; [reflexivity|].
  unfold lookup, reserve.
  rewrite !loadDataUnlocked_stored, (prune_delete_expired _ _ _ _ E X).
  cbv beta iota zeta. rewrite P.
  repeat split.
Qed.

End Facts.

(** The theorems above at concrete stores. *)

Lemma complete_mismatch_keeps_entry_witness :
  exists data',
    complete (Resp := string) 2000 "k1" "pages.update" "h2" "{}" (Stored staleStore)
      = (Threw finalizeError, Stored data')
    /\ code finalizeError = Some "internal_error"
    /\ data' !! compositeKey "k1" "pages.update" = Some (mkEntry "h1" "{}" 1000)
    /\ visible 2000 (Stored data') = visible 2000 (Stored staleStore).
Proof.
  apply (complete_mismatch_keeps_entry (Resp := string) 2000 "k1" "pages.update" "h2" "{}"
           staleStore (mkEntry "h1" "{}" 1000)).
  - vm_compute. reflexivity.
  - vm_compute. reflexivity.
  - simpl. discriminate.
Defined.

(** C5 as stated fails: at clock 200000 the entry stamped at clock 1000 has
    outlived the TTL; [complete] with another input hash prunes it, stores
    a fresh entry with the new hash and returns. *)
Lemma expired_entry_is_replaced :
  staleStore !! compositeKey "k1" "pages.update" = Some (mkEntry "h1" "{}" 1000)
  /\ complete (Resp := string) 200000 "k1" "pages.update" "h2" "done" (Stored staleStore)
     = (Returned tt,
        Stored {[ compositeKey "k1" "pages.update" := mkEntry "h2" "done" 200000 ]}).
Proof. split; vm_compute; reflexivity. Qed.

Lemma expired_entry_is_absent_witness :
  (lookup (Resp := string) 200000 "k1" "pages.update" "h1" (Stored staleStore)).1
    = Returned LMiss.
Proof.
  pose proof (expired_entry_is_absent (Resp := string) 200000 "k1" "pages.update" "h1"
                staleStore (mkEntry "h1" "{}" 1000)) as W.
  destruct W as (_ & W & _).
  - vm_compute. reflexivity.
  - vm_compute. reflexivity.
  - rewrite W. reflexivity.
Defined.

End StoreFacts.

(* ===================================================================== *)
(** ** Properties of the mutation coordinator                              *)
(* ===================================================================== *)

Module MutationFacts.
Import Store Mutation Demo.

(** Once the lock is held, and with its write succeeding, [release]
    returns. *)
Lemma release_returns now k c h f : (release now k c h f).1 = Returned tt.
Proof.
  unfold release. destruct (loadDataUnlocked now f) as [data f1].
  destruct (data !! compositeKey k c) as [entry|]; [|reflexivity].
  destruct (_ && _); reflexivity.
Qed.

Section Facts.
Context {Shape Resp : Type} `{JsonCodec Resp} `{RequestHash Shape}.
Variable others : Z -> File -> File.

Lemma onFailure_throws (args : MutationArgs Shape Resp) key hash error fr :
  exists fr', onFailure args key hash error fr = Some (Threw error, fr').
Proof.
  unfold onFailure, bind, get, onStore, safeAppendAuditLog, modify, throw, ret.
  destruct (ownsReservation (flags fr)).
  - pose proof (release_returns (clock (env fr)) key (commandName args) hash (file (env fr))) as Hr.
    destruct (release _ _ _ _ _) as [o f']. cbn [fst] in Hr. subst o.
    eexists. reflexivity.
  - eexists. reflexivity.
Qed.

(** [args.run()] inside its [try]/[catch], when [run] throws an
    ambiguous error and recovery confirms nothing. *)
Lemma guardedRun_unconfirmed (args : MutationArgs Shape Resp) fr error e2 :
  run args (env fr) = (Threw error, e2) ->
  isAmbiguousMutationError error (isAmbiguousError args) = true ->
  recoveryFails args e2 ->
  tryCatch (callRun (run args)) (onRunError args) fr
    = Some (Threw unconfirmedError,
            mkFrame (afterRecover args e2) (S (runCalls fr))
              (match recover args with
               | Some _ => S (recoverCalls fr)
               | None => recoverCalls fr
               end)
              (auditLog fr)
              (setOutcomeUncertain (setRecoveryAttempted (flags fr)))).
Proof.
  intros Hrun Hamb Hrec.
  unfold tryCatch at 1. unfold callRun. rewrite Hrun. cbv beta iota.
  unfold onRunError. rewrite Hamb. cbn [negb].
  unfold recoveryFails in Hrec. unfold afterRecover.
  destruct (recover args) as [rc|].
  - unfold tryCatch, bind, callRecover, setFlag, modify, throw.
    cbn [env withFlags flags runCalls recoverCalls auditLog].
    destruct (rc e2) as [o e3]. cbn [fst snd] in *.
    destruct Hrec as [->|[err ->]]; reflexivity.
  - reflexivity.
Qed.

Lemma reserve_absent now k c h f :
  visible now f !! compositeKey k c = None ->
  reserve (Resp := Resp) now k c h f
    = (Returned RExecute,
       Stored (<[compositeKey k c := mkEntry h PENDING_RESPONSE_JSON now]> (visible now f))).
Proof.
  unfold visible, reserve. destruct (loadDataUnlocked now f) as [data f1].
  cbn [fst]. intros ->. reflexivity.
Qed.

Lemma complete_own now k c h (response : Resp) data entry :
  data !! compositeKey k c = Some entry ->
  inputHash entry = h ->
  complete now k c h response (Stored data)
    = (Returned tt,
       Stored (<[compositeKey k c := mkEntry h (JSON_stringify response) now]>
                 (prune now data))).
Proof.
  intros E Hh. unfold complete. rewrite StoreFacts.loadDataUnlocked_stored.
  cbv beta iota zeta. rewrite StoreFacts.prune_lookup, E.
  destruct (expired now entry); [reflexivity|].
  rewrite Hh, String.eqb_refl. reflexivity.
Qed.

Lemma reserve_terminal now k c h data s t (response : Resp) :
  data !! compositeKey k c = Some (mkEntry h s t) ->
  now - t <= PRUNE_TTL_MS ->
  s <> PENDING_RESPONSE_JSON ->
  JSON_parse s = Some response ->
  reserve now k c h (Stored data) = (Returned (RReplay response), Stored (prune now data)).
Proof.
  intros E Hage Hs Hp. unfold reserve. rewrite StoreFacts.loadDataUnlocked_stored.
  cbv beta iota zeta. rewrite StoreFacts.prune_lookup, E.
  unfold expired. cbn [createdAt].
  replace (PRUNE_TTL_MS <? now - t) with false by (symmetry; apply Z.ltb_ge; exact Hage).
  cbn [inputHash responseJson]. rewrite String.eqb_refl. cbn [negb].
  apply String.eqb_neq in Hs. rewrite Hs, Hp. reflexivity.
Qed.







(** *** The coordinator never runs out of fuel *)

Lemma pollLoop_total (fuel : nat) (deadline : Z) (key command hash : string) fr :
  deadline - clock (env fr) <= 50 * Z.of_nat fuel ->
  exists out, pollLoop others fuel deadline key command hash fr = Some out.
Proof.
  revert fr. induction fuel as [|fuel IH]; intros fr Hfuel.
  - cbn [pollLoop]. unfold bind, dateNow.
    replace (clock (env fr) <? deadline) with false by (symmetry; apply Z.ltb_ge; lia).
    eexists. reflexivity.
  - cbn [pollLoop]. unfold bind at 1. unfold dateNow.
    destruct (clock (env fr) <? deadline); [|eexists; reflexivity].
    unfold bind at 1. unfold sleep, modify. cbv beta iota.
    unfold bind at 1. unfold onStore at 1. cbn [env withEnv clock file].
    destruct (lookup _ _ _ _ _) as [[current|err] f']; [|eexists; reflexivity].
    destruct current; try (eexists; reflexivity).
    + unfold bind, onStore, ret. cbn [env withEnv clock file].
      destruct (reserve _ _ _ _ _) as [[l|err] f'']; eexists; reflexivity.
    + apply IH. cbn [env withEnv clock]. lia.
Qed.

Lemma awaitReservation_total (lookup0 : IdempotencyReservation Resp)
    (key command hash : string) fr :
  exists out, awaitReservation others 2 lookup0 key command hash fr = Some out.
Proof.
  destruct lookup0; try (eexists; reflexivity).
  cbn [awaitReservation]. unfold bind at 1. unfold dateNow at 1.
  unfold bind at 1.
  destruct (pollLoop_total 300 (clock (env fr) + 15000) key command hash fr ltac:(lia))
    as [[[resolved|err] fr'] ->]; [|eexists; reflexivity].
  destruct resolved as [l|]; [eexists; reflexivity|].
  unfold bind, onStore.
  destruct (reserve _ _ _ _ _) as [[l|err] f']; [|eexists; reflexivity].
  destruct l; eexists; reflexivity.
Qed.

Theorem executeMutationWithIdempotency_total (args : MutationArgs Shape Resp) fr :
  exists out, executeMutationWithIdempotency others args fr = Some out.
Proof.
  unfold executeMutationWithIdempotency.
  set (hash := hashObject (requestShape args)).
  set (key := buildInternalIdempotencyKey _ _ _).
  set (fr0 := withFlags _ fr).
  assert (Hfail : forall e s, exists out, onFailure args key hash e s = Some out)
    by (intros e s; destruct (onFailure_throws args key hash e s) as [s' ->]; eauto).
  unfold tryCatch at 1, attempt, acquireReservation.
  unfold bind at 1. unfold bind at 1. unfold onStore at 1.
  destruct (reserve _ _ _ _ _) as [[first|err] f']; [|apply Hfail].
  destruct (awaitReservation_total first key (commandName args) hash
              (withEnv (mkEnv (clock (env fr0)) f') fr0)) as [[[l|err] fr1] ->];
    [|apply Hfail].
  assert (Hown : exists out,
    match runOwned args key hash fr1 with
    | Some (Returned a, s') => Some (Returned a, s')
    | Some (Threw e, s') => onFailure args key hash e s'
    | None => None
    end = Some out).
  { unfold runOwned. unfold bind at 1. unfold setFlag at 1, modify. cbv beta iota.
    unfold bind at 1. unfold tryCatch at 1. unfold callRun.
    cbn [env withFlags].
    destruct (run args (env fr1)) as [[r|err] e1].
    - unfold persistAndReport, bind, tryCatch, onStore, get, safeAppendAuditLog,
        setFlag, modify, ret.
      cbn [env]. destruct (complete _ _ _ _ _ _) as [[[]|err] f1]; eexists; reflexivity.
    - unfold onRunError.
      destruct (isAmbiguousMutationError err (isAmbiguousError args)); cbn [negb];
        [|apply Hfail].
      destruct (recover args) as [rc|]; [|apply Hfail].
      unfold tryCatch, bind, callRecover, setFlag, modify, throw, ret.
      cbn [env withFlags].
      destruct (rc e1) as [[[r|]|err3] e3]; try apply Hfail.
      unfold persistAndReport, bind, tryCatch, onStore, get, safeAppendAuditLog,
        setFlag, modify, ret.
      cbn [env]. destruct (complete _ _ _ _ _ _) as [[[]|err4] f1]; eexists; reflexivity. }
  destruct l; try exact Hown.
  - eexists. reflexivity.
  - apply Hfail.
Qed.

End Facts.



End MutationFacts.

(* ===================================================================== *)
(** ** Properties of the selector resolver and of range replacement        *)
(* ===================================================================== *)

Module RepositoryFacts.
Import Repository Demo.

Lemma normalizeSelector_label (raw : BlockSelector) (l1 l2 : string) (selector : Selector) :
  normalizeSelector raw l1 = Returned selector ->
  normalizeSelector raw l2 = Returned selector.
Proof.
  unfold normalizeSelector.
  destruct (match sel_from raw with SAbsent => _ | SString _ => _ | SNotString => _ end);
    [|discriminate].
  destruct (match sel_nth raw with NAbsent => _ | NInteger _ => _ | NNotInteger => _ end);
    [discriminate|].
  repeat (destruct (negb _); [discriminate|]).
  intros H. exact H.
Qed.

Lemma nthIndex_out_of_range (selector : Selector) (n : Z) (count : nat) :
  Z.of_nat count < n ->
  (nthIndex selector n count <? 0) || (Z.of_nat count <=? nthIndex selector n count) = true.
Proof.
  intros Hn. unfold nthIndex. apply orb_true_iff.
  destruct (from selector).
  - right. apply Z.leb_le. lia.
  - left. apply Z.ltb_lt. lia.
Qed.

Section Facts.
Context {R : Type} `{NotionClientAdapter R}.

(** *** Reading sends no write request *)

Lemma listPages_mutations (fuel : nat) (parentId : string) (cursor : option string)
    (items : list RawBlock) (st : RState R) out st' :
  listPages fuel parentId cursor items st = Some (out, st') ->
  mutations st' = mutations st.
Proof.
  revert cursor items st. induction fuel as [|fuel IH]; intros cursor items st; [discriminate|].
  cbn [listPages]. unfold bind at 1. unfold callList.
  destruct (listBlockChildren _ _) as [[response|e] r'].
  - destruct (_ || _).
    + intros [= <- <-]. reflexivity.
    + intros Hrec. apply IH in Hrec. exact Hrec.
  - intros [= <- <-]. reflexivity.
Qed.

Lemma listDirectChildren_mutations (fuel : nat) (parentId : string) (st : RState R) out st' :
  listDirectChildren fuel parentId st = Some (out, st') ->
  mutations st' = mutations st.
Proof. apply listPages_mutations. Qed.

Lemma forEach_mutations {A Acc} (items : list A) (body : A -> Acc -> Prog (RState R) Acc) :
  (forall x acc st out st', body x acc st = Some (out, st') -> mutations st' = mutations st) ->
  forall acc st out st',
    forEach items body acc st = Some (out, st') -> mutations st' = mutations st.
Proof.
  intros Hbody. induction items as [|x rest IH]; intros acc st out st'.
  - intros [= <- <-]. reflexivity.
  - cbn [forEach]. unfold bind.
    destruct (body x acc st) as [[[acc'|e] st1]|] eqn:E; [| |discriminate].
    + intros Hrest. apply IH in Hrest. apply Hbody in E. congruence.
    + intros [= <- <-]. apply Hbody in E. exact E.
Qed.

Lemma walk_mutations (pages fuel : nat) (maxBlocks : Z) (parentId : string)
    (acc : Flattened) (st : RState R) out st' :
  walk pages fuel maxBlocks parentId acc st = Some (out, st') ->
  mutations st' = mutations st.
Proof.
  revert parentId acc st out st'.
  induction fuel as [|fuel IH]; intros parentId acc st out st'; [discriminate|].
  cbn [walk]. unfold bind at 1.
  destruct (listDirectChildren pages parentId st) as [[[raw|e] st1]|] eqn:El; [| |discriminate].
  - apply listDirectChildren_mutations in El.
    unfold bind at 1. unfold liftOutcome.
    destruct (pushSiblings _ _ _ _ _) as [pushed|e].
    + intros Hfe. apply forEach_mutations in Hfe; [congruence|].
      intros x a s o s'. destruct (has_children x).
      * apply IH.
      * intros [= <- <-]. reflexivity.
    + intros [= <- <-]. exact El.
  - intros [= <- <-]. apply listDirectChildren_mutations in El. exact El.
Qed.

Lemma flattenScopeBlocks_mutations (fuel : nat) (scopeId : string) (maxBlocks : Z)
    (st : RState R) out st' :
  flattenScopeBlocks fuel scopeId maxBlocks st = Some (out, st') ->
  mutations st' = mutations st.
Proof. apply walk_mutations. Qed.

(** C4. On the blocks that the flattener returns: when [nth] is given
    and exceeds the number of matches, counted from the start or from the
    end, both [selectBlocks] and the strict resolver throw [not_found];
    when [nth] is absent and more than one block matches, [selectBlocks]
    returns [ambiguous = true], [selected = null] and the non-empty list
    of matches, and the strict resolver throws (a [conflict]). *)
Theorem selector_nth_and_ambiguity
    (fuel : nat) (scopeId : string) (maxBlocks : Z) (raw : BlockSelector) (label : string)
    (selector : Selector) (st st1 : RState R) (flattened : Flattened) :
  normalizeSelector raw label = Returned selector ->
  flattenScopeBlocks fuel scopeId maxBlocks st = Some (Returned flattened, st1) ->
  let matches := matchesOf (blocks flattened) selector in
  (forall n, nth selector = Some n -> Z.of_nat (length matches) < n ->
     (exists e, selectBlocks fuel scopeId raw maxBlocks st = Some (Threw e, st1)
                /\ code e = Some "not_found")
     /\ (exists e, resolveSelectorStrict (blocks flattened) raw label = Threw e
                   /\ code e = Some "not_found"))
  /\ (nth selector = None -> (1 < length matches)%nat ->
        (exists selection,
           selectBlocks fuel scopeId raw maxBlocks st = Some (Returned selection, st1)
           /\ ambiguous selection = true
           /\ sn_selected selection = None
           /\ sn_matches selection = matches
           /\ sn_matches selection <> [])
        /\ (exists e, resolveSelectorStrict (blocks flattened) raw label = Threw e
                      /\ code e = Some "conflict")).
Proof.
  intros Hnorm Hflat matches.
  assert (Hsel : selectBlocks fuel scopeId raw maxBlocks st
                 = Some (selectAmong scopeId selector (blocks flattened), st1)).
  { unfold selectBlocks, bind, liftOutcome.
    rewrite (normalizeSelector_label _ _ _ _ Hnorm), Hflat. reflexivity. }
  rewrite Hsel. unfold resolveSelectorStrict, selectAmong. rewrite Hnorm.
  fold matches. split.
  - intros n Hn Hlt. rewrite Hn.
    destruct matches as [|first rest] eqn:Em.
    + split; eexists; split; reflexivity.
    + rewrite (nthIndex_out_of_range selector n _ Hlt).
      split; eexists; split; reflexivity.
  - intros Hn Hlen. rewrite Hn.
    destruct matches as [|first rest] eqn:Em; [cbn in Hlen; lia|].
    replace (1 <? length (first :: rest))%nat with true
      by (symmetry; apply Nat.ltb_lt; exact Hlen).
    replace (length (first :: rest) =? 1)%nat with false
      by (symmetry; apply Nat.eqb_neq; lia).
    split.
    + eexists. split; [reflexivity|]. cbn [ambiguous sn_selected sn_matches].
      unfold toSelectionPayload. rewrite map_id. repeat split. discriminate.
    + eexists. split; reflexivity.
Qed.


(** C3. In a run that is not a dry run, when the fingerprint of the
    siblings listed again just before mutating differs from the
    fingerprint of the siblings seen while planning, [replaceBlockRange]
    throws a [conflict] and has sent no insertion and no deletion to the
    remote service. *)
Theorem changed_fingerprint_is_conflict
    (fuel : nat) (args : ReplaceArgs) (st st1 st2 : RState R)
    (flattened : Flattened) (planned : Planned) (currentSiblingsRaw : list RawBlock) :
  dryRun args = false ->
  flattenScopeBlocks fuel (scopeId args) (maxBlocks args) st = Some (Returned flattened, st1) ->
  planRange flattened args = Returned planned ->
  listDirectChildren fuel (plan_parent_id (the_plan planned)) st1
    = Some (Returned currentSiblingsRaw, st2) ->
  siblingsFingerprint (siblings planned)
    <> siblingsFingerprint
         (currentSiblingsOf (plan_parent_id (the_plan planned)) currentSiblingsRaw) ->
  replaceBlockRange fuel args st = Some (Threw rangeChangedError, st2)
  /\ code rangeChangedError = Some "conflict"
  /\ mutations st2 = mutations st.
Proof.
  intros Hdry Hflat Hplan Hlist Hfp.
  unfold replaceBlockRange.
  rewrite (bind_Returned _ _ _ _ _ Hflat).
  unfold bind at 1. unfold liftOutcome. rewrite Hplan, Hdry.
  unfold executePlan.
  rewrite (bind_Returned _ _ _ _ _ Hlist).
  apply String.eqb_neq in Hfp. rewrite Hfp. cbn [negb].
  repeat split.
  apply listDirectChildren_mutations in Hlist.
  apply flattenScopeBlocks_mutations in Hflat. congruence.
Qed.

(** *** The deletion loop *)

Lemma deleteEach_failure (blockIds deletedIds : list string) (st st' : RState R)
    (error : Thrown) :
  deleteEach blockIds deletedIds st = Some (Threw error, st') ->
  exists done failed rest r,
    blockIds = done ++ failed :: rest
    /\ mutations st'
       = mutations st ++ map (fun b => MDelete b true) done ++ [MDelete failed false]
    /\ deleteBlock failed r = (Threw error, remote st').
Proof.
  revert deletedIds st. induction blockIds as [|blockId rest IH]; intros deletedIds st.
  - discriminate.
  - cbn [deleteEach]. unfold bind at 1. unfold callDelete.
    destruct (deleteBlock blockId (remote st)) as [[[]|e] r'] eqn:Ed.
    + cbn [isReturned]. intros Hrest. apply IH in Hrest.
      destruct Hrest as (done & failed & rest' & r & -> & Hm & Hd).
      exists (blockId :: done), failed, rest', r. cbn [mutations] in Hm.
      repeat split; [|exact Hd].
      rewrite Hm. cbn [map]. rewrite <- !app_assoc. reflexivity.
    + intros [= <- <-]. exists [], blockId, rest, (remote st).
      repeat split. exact Ed.
Qed.

(** C9, as amended. When the insertion has succeeded and a deletion of
    the loop fails, [replaceBlockRange] throws the very error that the
    remote client threw for that block, and stops: the blocks before it
    stay deleted, the failing block and the ones after it are left, and
    nothing is added to the error. *)
Theorem deletion_failure_surfaces_remote_error
    (fuel : nat) (args : ReplaceArgs) (st st1 st2 st3 st4 : RState R)
    (flattened : Flattened) (planned : Planned) (currentSiblingsRaw : list RawBlock)
    (inserted : nat * list string) (error : Thrown) :
  dryRun args = false ->
  flattenScopeBlocks fuel (scopeId args) (maxBlocks args) st = Some (Returned flattened, st1) ->
  planRange flattened args = Returned planned ->
  listDirectChildren fuel (plan_parent_id (the_plan planned)) st1
    = Some (Returned currentSiblingsRaw, st2) ->
  siblingsFingerprint (siblings planned)
    = siblingsFingerprint
        (currentSiblingsOf (plan_parent_id (the_plan planned)) currentSiblingsRaw) ->
  insertReplacement args (the_plan planned) st2 = Some (Returned inserted, st3) ->
  deleteEach (map id (blocksToDelete planned)) [] st3 = Some (Threw error, st4) ->
  replaceBlockRange fuel args st = Some (Threw error, st4)
  /\ exists done failed rest r,
       map id (blocksToDelete planned) = done ++ failed :: rest
       /\ deleteBlock failed r = (Threw error, remote st4)
       /\ mutations st4
          = mutations st3 ++ map (fun b => MDelete b true) done ++ [MDelete failed false]
       /\ confirmedDeleted (mutations st4) = confirmedDeleted (mutations st3) ++ done.
Proof.
  intros Hdry Hflat Hplan Hlist Hfp Hins Hdel. split.
  - unfold replaceBlockRange.
    rewrite (bind_Returned _ _ _ _ _ Hflat).
    unfold bind at 1. unfold liftOutcome. rewrite Hplan, Hdry.
    unfold executePlan.
    rewrite (bind_Returned _ _ _ _ _ Hlist).
    apply String.eqb_eq in Hfp. rewrite Hfp. cbn [negb].
    rewrite (bind_Returned _ _ _ _ _ Hins).
    apply bind_Threw. exact Hdel.
  - destruct (deleteEach_failure _ _ _ _ _ Hdel) as (done & failed & rest & r & Hids & Hm & Hd).
    exists done, failed, rest, r. repeat split; try assumption.
    rewrite Hm. unfold confirmedDeleted. rewrite !flat_map_app. cbn [flat_map].
    rewrite app_nil_r. f_equal.
    clear. induction done as [|b done IH]; [reflexivity|].
    cbn [map flat_map app]. rewrite IH. reflexivity.
Qed.

(** [deleteBlocks] surfaces the error of the remote client as it is. *)
Lemma deleteBlocks_failure (blockIds : list string) (st st' : RState R) (error : Thrown) :
  deleteBlocks blockIds st = Some (Threw error, st') ->
  exists done failed rest r,
    blockIds = done ++ failed :: rest
    /\ deleteBlock failed r = (Threw error, remote st')
    /\ confirmedDeleted (mutations st') = confirmedDeleted (mutations st) ++ done.
Proof.
  unfold deleteBlocks, bind.
  destruct (deleteEach blockIds [] st) as [[[ids|e] st1]|] eqn:Ed; try discriminate.
  intros [= <- <-].
  destruct (deleteEach_failure _ _ _ _ _ Ed) as (done & failed & rest & r & Hids & Hm & Hd).
  exists done, failed, rest, r. repeat split; try assumption.
  rewrite Hm. unfold confirmedDeleted. rewrite !flat_map_app. cbn [flat_map].
  rewrite app_nil_r. f_equal.
  clear. induction done as [|b done IH]; [reflexivity|].
  cbn [map flat_map app]. rewrite IH. reflexivity.
Qed.

End Facts.

(** *** The flatten order *)

Lemma renumber_nil (n : nat) : renumber n [] = [].
Proof. reflexivity. Qed.

Lemma renumber_cons (n : nat) (x : FlatBlock) (l : list FlatBlock) :
  renumber n (x :: l) = withOrder n x :: renumber (S n) l.
Proof.
  unfold renumber. cbn [imap]. rewrite Nat.add_0_r. f_equal.
  apply imap_ext. intros i y _. cbn. f_equal. lia.
Qed.

Lemma renumber_length (n : nat) (l : list FlatBlock) : length (renumber n l) = length l.
Proof. unfold renumber. apply length_imap. Qed.

Lemma renumber_app (n : nat) (l1 l2 : list FlatBlock) :
  renumber n (l1 ++ l2) = renumber n l1 ++ renumber (n + length l1) l2.
Proof.
  revert n. induction l1 as [|x l1 IH]; intros n.
  - cbn [app length]. rewrite Nat.add_0_r. reflexivity.
  - cbn [app length]. rewrite !renumber_cons, IH. cbn [app]. do 3 f_equal. lia.
Qed.

Lemma renumber_lookup (n k : nat) (l : list FlatBlock) (b : FlatBlock) :
  renumber n l !! k = Some b -> exists b0, l !! k = Some b0 /\ b = withOrder (n + k) b0.
Proof.
  unfold renumber. rewrite list_lookup_imap.
  destruct (l !! k) as [b0|]; [|discriminate].
  intros [= <-]. eauto.
Qed.

Lemma childBlocksFrom_cons (parentId : string) (i : nat) (block : RawBlock)
    (rest : list (nat * RawBlock)) :
  childBlocksFrom parentId ((i, block) :: rest)
  = if truthy (raw_id block)
    then toFlat parentId (default "" (raw_id block)) block i 0 :: childBlocksFrom parentId rest
    else childBlocksFrom parentId rest.
Proof.
  unfold childBlocksFrom. cbn [omap list_omap fst snd].
  destruct (truthy _); reflexivity.
Qed.

Lemma pushSiblings_ok (maxBlocks : Z) (parentId : string) (rest : list (nat * RawBlock))
    (blocks0 siblings0 : list FlatBlock) :
  Z.of_nat (length blocks0 + length (childBlocksFrom parentId rest)) <= maxBlocks ->
  pushSiblings maxBlocks parentId rest blocks0 siblings0
  = Returned (blocks0 ++ renumber (length blocks0) (childBlocksFrom parentId rest),
              siblings0 ++ renumber (length blocks0) (childBlocksFrom parentId rest)).
Proof.
  revert blocks0 siblings0. induction rest as [|[i block] rest IH]; intros blocks0 siblings0 Hmax.
  - cbn. rewrite !app_nil_r. reflexivity.
  - cbn [pushSiblings]. rewrite childBlocksFrom_cons in *.
    destruct (truthy (raw_id block)) eqn:Et.
    + cbn [length] in Hmax.
      replace (maxBlocks <=? Z.of_nat (length blocks0)) with false
        by (symmetry; apply Z.leb_gt; lia).
      rewrite IH by (rewrite length_app; cbn [length]; lia).
      rewrite renumber_cons, length_app. cbn [length].
      rewrite <- !app_assoc. cbn [app].
      replace (length blocks0 + 1)%nat with (S (length blocks0)) by lia.
      reflexivity.
    + apply IH. exact Hmax.
Qed.

Lemma allOf_elem {A} (l : list (option (list A))) (xs : list A) (x : A) :
  allOf l = Some xs -> x ∈ xs -> exists part, Some part ∈ l /\ x ∈ part.
Proof.
  revert xs. induction l as [|[part|] l IH]; intros xs.
  - intros [= <-] Hx. inversion Hx.
  - cbn [allOf]. destruct (allOf l) as [rest|]; [|discriminate].
    intros [= <-] Hx. apply elem_of_app in Hx. destruct Hx as [Hx|Hx].
    + exists part. split; [left|exact Hx].
    + destruct (IH rest eq_refl Hx) as (part' & Hin & Hx'). exists part'. split; [right|]; assumption.
  - discriminate.
Qed.

Lemma childBlocksFrom_listed (childrenOf : string -> list RawBlock) (parentId : string)
    (block : FlatBlock) :
  block ∈ childBlocksFrom parentId (imap (fun i x => (i, x)) (childrenOf parentId)) ->
  listedAs childrenOf block.
Proof.
  unfold childBlocksFrom. rewrite list_elem_of_omap.
  intros ([i raw] & Hin & Hsome). cbn [fst snd] in Hsome.
  apply elem_of_lookup_imap in Hin. destruct Hin as (j & raw' & [= -> ->] & Hl).
  destruct (raw_id raw') as [s|] eqn:Eid; [|discriminate].
  cbn [truthy] in Hsome. destruct (negb _); [|discriminate].
  injection Hsome as <-. exists raw'. cbn. rewrite Eid. auto.
Qed.

Lemma levelOrder_listed (childrenOf : string -> list RawBlock) (depth : nat) :
  forall parentId L block,
    levelOrder depth childrenOf parentId = Some L -> block ∈ L -> listedAs childrenOf block.
Proof.
  induction depth as [|depth IH]; intros parentId L block; [discriminate|].
  cbn [levelOrder].
  set (sibs := childBlocksFrom parentId (imap (fun i x => (i, x)) (childrenOf parentId))).
  destruct (allOf _) as [Lbelow|] eqn:Eb; [|discriminate].
  intros [= <-] Hin. apply elem_of_app in Hin. destruct Hin as [Hin|Hin].
  - apply (childBlocksFrom_listed childrenOf parentId). exact Hin.
  - destruct (allOf_elem _ _ _ Eb Hin) as (part & Hpart & Hx).
    apply list_elem_of_In, in_map_iff in Hpart. destruct Hpart as (s & Hs & _).
    unfold belowWith in Hs. destruct (has_children s).
    + exact (IH (id s) part block Hs Hx).
    + injection Hs as <-. inversion Hx.
Qed.

Section Static.
Context {R : Type} `{NotionClientAdapter R}.
Variable childrenOf : string -> list RawBlock.
Variable pages : nat.
Variable maxBlocks : Z.

Variable steady : RState R -> Prop.

(** The remote tree does not change while it is read: in a steady state
    every listing of a parent returns [childrenOf parent] and leaves a
    steady state. *)
Hypothesis static : forall (parentId : string) (st : RState R),
  steady st ->
  exists st',
    listDirectChildren pages parentId st = Some (Returned (childrenOf parentId), st')
    /\ steady st'.

Lemma below_renumber (depth n : nat) (l : list FlatBlock) :
  map (belowWith (levelOrder depth childrenOf)) (renumber n l)
  = map (belowWith (levelOrder depth childrenOf)) l.
Proof.
  revert n. induction l as [|x l IH]; intros n; [reflexivity|].
  rewrite renumber_cons. cbn [map]. rewrite IH. reflexivity.
Qed.

Lemma forEach_levelOrder (depth : nat) :
  (forall parentId acc st L,
      steady st ->
      levelOrder depth childrenOf parentId = Some L ->
      Z.of_nat (length (blocks acc) + length L) <= maxBlocks ->
      exists acc' st',
        walk pages depth maxBlocks parentId acc st = Some (Returned acc', st')
        /\ steady st'
        /\ blocks acc' = blocks acc ++ renumber (length (blocks acc)) L) ->
  forall (sibs : list FlatBlock) acc st L,
    steady st ->
    allOf (map (belowWith (levelOrder depth childrenOf)) sibs) = Some L ->
    Z.of_nat (length (blocks acc) + length L) <= maxBlocks ->
    exists acc' st',
      forEach sibs
        (fun sibling a =>
           if has_children sibling then walk pages depth maxBlocks (id sibling) a
           else ret a) acc st = Some (Returned acc', st')
      /\ steady st'
      /\ blocks acc' = blocks acc ++ renumber (length (blocks acc)) L.
Proof.
  intros IHwalk. induction sibs as [|s sibs IH]; intros acc st L Hst Hall Hmax.
  - cbn in Hall. injection Hall as <-. cbn [forEach]. exists acc, st.
    split; [reflexivity|]. split; [exact Hst|].
    rewrite renumber_nil, app_nil_r. reflexivity.
  - cbn [map allOf] in Hall.
    destruct (belowWith (levelOrder depth childrenOf) s) as [Ls|] eqn:Es; [|discriminate].
    destruct (allOf (map (belowWith (levelOrder depth childrenOf)) sibs))
      as [Lrest|] eqn:Er; [|discriminate].
    injection Hall as <-. rewrite length_app in Hmax.
    cbn [forEach]. unfold belowWith in Es.
    destruct (has_children s).
    + destruct (IHwalk (id s) acc st Ls Hst Es ltac:(lia)) as (acc1 & st1 & Hw & Hst1 & Hb).
      rewrite (bind_Returned _ _ _ _ _ Hw).
      destruct (IH acc1 st1 Lrest Hst1 eq_refl) as (acc2 & st2 & Hf & Hst2 & Hb2).
      { rewrite Hb, length_app, renumber_length. lia. }
      exists acc2, st2. split; [exact Hf|]. split; [exact Hst2|].
      rewrite Hb2, Hb, length_app, renumber_length, renumber_app, <- app_assoc.
      reflexivity.
    + injection Es as <-. unfold bind at 1, ret at 1.
      destruct (IH acc st Lrest Hst eq_refl ltac:(cbn [length] in Hmax; lia))
        as (acc2 & st2 & Hf & Hst2 & Hb2).
      exists acc2, st2. split; [exact Hf|]. split; [exact Hst2|]. exact Hb2.
Qed.

Lemma walk_levelOrder (depth : nat) :
  forall parentId acc st L,
    steady st ->
    levelOrder depth childrenOf parentId = Some L ->
    Z.of_nat (length (blocks acc) + length L) <= maxBlocks ->
    exists acc' st',
      walk pages depth maxBlocks parentId acc st = Some (Returned acc', st')
      /\ steady st'
      /\ blocks acc' = blocks acc ++ renumber (length (blocks acc)) L.
Proof.
  induction depth as [|depth IH]; intros parentId acc st L Hst Hlevel Hmax; [discriminate|].
  cbn [levelOrder] in Hlevel.
  set (sibs := childBlocksFrom parentId (imap (fun i x => (i, x)) (childrenOf parentId))) in *.
  destruct (allOf (map (belowWith (levelOrder depth childrenOf)) sibs))
    as [Lbelow|] eqn:Eb; [|discriminate].
  injection Hlevel as <-. rewrite length_app in Hmax.
  cbn [walk]. destruct (static parentId st Hst) as (st1 & Hl & Hst1).
  rewrite (bind_Returned _ _ _ _ _ Hl).
  unfold bind at 1. unfold liftOutcome. unfold entries. fold sibs.
  rewrite pushSiblings_ok by (fold sibs; lia). fold sibs. cbn [fst snd app].
  rewrite <- (below_renumber depth (length (blocks acc)) sibs) in Eb.
  destruct (forEach_levelOrder depth IH (renumber (length (blocks acc)) sibs)
              {| blocks := blocks acc ++ renumber (length (blocks acc)) sibs;
                 siblingsByParent :=
                   <[parentId := renumber (length (blocks acc)) sibs]> (siblingsByParent acc) |}
              st1 Lbelow Hst1 Eb)
    as (acc' & st' & Hf & Hst' & Hb).
  { cbn [blocks]. rewrite length_app, renumber_length. lia. }
  exists acc', st'. split; [exact Hf|]. split; [exact Hst'|].
  rewrite Hb. cbn [blocks]. rewrite length_app, renumber_length, renumber_app, <- app_assoc.
  reflexivity.
Qed.


(** C8, as amended. For a remote tree that does not change while it is
    read and holds at most [maxBlocks] blocks, the flattener returns the
    blocks in level order: all the children of a parent in sibling order,
    then, for each child that has children, in sibling order, the blocks
    below it in the same way.  The [order_index] of a block is its
    position in that list, and its [sibling_index] is its position among
    the children listed for its parent. *)
Theorem flatten_order_is_level_order
    (scopeId : string) (st : RState R) (L : list FlatBlock) :
  steady st ->
  levelOrder pages childrenOf scopeId = Some L ->
  Z.of_nat (length L) <= maxBlocks ->
  exists flattened st',
    flattenScopeBlocks pages scopeId maxBlocks st = Some (Returned flattened, st')
    /\ blocks flattened = renumber 0 L
    /\ (forall k block, blocks flattened !! k = Some block -> order_index block = k)
    /\ (forall block, block ∈ blocks flattened -> listedAs childrenOf block).
Proof.
  intros Hst Hlevel Hmax.
  destruct (walk_levelOrder pages scopeId {| blocks := []; siblingsByParent := ∅ |} st L
              Hst Hlevel Hmax) as (flattened & st' & Hw & _ & Hb).
  cbn [blocks app length] in Hb.
  exists flattened, st'. split; [exact Hw|]. split; [exact Hb|]. split.
  - intros k block Hk. rewrite Hb in Hk.
    destruct (renumber_lookup _ _ _ _ Hk) as (b0 & _ & ->). reflexivity.
  - intros block Hin. rewrite Hb in Hin.
    apply list_elem_of_lookup in Hin. destruct Hin as [k Hk].
    destruct (renumber_lookup _ _ _ _ Hk) as (b0 & Hk0 & ->).
    apply list_elem_of_lookup_2 in Hk0.
    destruct (levelOrder_listed childrenOf pages scopeId L b0 Hlevel Hk0) as (raw & Hraw & Hid).
    exists raw. split; assumption.
Qed.

End Static.

(** *** The theorems above on the memory remote *)

Lemma omap_Some {A} (l : list A) : omap (fun raw => raw) (map Some l) = l.
Proof. induction l as [|x l IH]; [reflexivity|]. cbn. rewrite IH. reflexivity. Qed.

Lemma memory_static (tree : gmap string (list RawBlock)) (pages : nat)
    (parentId : string) (st : RState MemoryRemote) :
  steadyOn tree st ->
  exists st',
    listDirectChildren (S pages) parentId st = Some (Returned (listing tree parentId), st')
    /\ steadyOn tree st'.
Proof.
  destruct st as [[tree0 n edit failing] log]. unfold steadyOn. cbn [remote childrenOf editAfter].
  intros [-> ->]. unfold listDirectChildren. cbn [listPages].
  unfold bind, callList. cbn. rewrite omap_Some.
  eexists. split; [reflexivity|]. split; reflexivity.
Qed.

Lemma selector_nth_and_ambiguity_witness :
  (exists e st1,
     selectBlocks 5 "page" (nthBlock 4 (SString "end")) 100 (memoryOf smallPage)
       = Some (Threw e, st1)
     /\ code e = Some "not_found")
  /\ (exists selection st1,
        selectBlocks 5 "page" anyBlock 100 (memoryOf smallPage) = Some (Returned selection, st1)
        /\ ambiguous selection = true
        /\ sn_selected selection = None
        /\ length (sn_matches selection) = 3%nat).
Proof.
  split.
  - edestruct (fun selector =>
                 selector_nth_and_ambiguity 5 "page" 100 (nthBlock 4 (SString "end"))
                   "selector-json" selector (memoryOf smallPage)) as [Hnth _].
    + vm_compute. reflexivity.
    + vm_compute. reflexivity.
    + destruct (Hnth 4) as [(e & He & Hc) _].
      * reflexivity.
      * vm_compute. reflexivity.
      * exists e. eexists. split; [exact He|exact Hc].
  - edestruct (fun selector =>
                 selector_nth_and_ambiguity 5 "page" 100 anyBlock "selector-json"
                   selector (memoryOf smallPage)) as [_ Hamb].
    + vm_compute. reflexivity.
    + vm_compute. reflexivity.
    + destruct Hamb as [(selection & Hs & Ha & Hn & Hm & _) _].
      * reflexivity.
      * vm_compute. lia.
      * exists selection. eexists. split; [exact Hs|].
        split; [exact Ha|]. split; [exact Hn|]. rewrite Hm. vm_compute. reflexivity.
Defined.

Lemma changed_fingerprint_is_conflict_witness :
  exists st2,
    replaceBlockRange 5 (rangeArgs "alpha" "beta" true true false) racingRemote
      = Some (Threw rangeChangedError, st2)
    /\ mutations st2 = [].
Proof.
  edestruct (changed_fingerprint_is_conflict 5 (rangeArgs "alpha" "beta" true true false)
               racingRemote) as (Hr & _ & Hm).
  - reflexivity.
  - vm_compute. reflexivity.
  - vm_compute. reflexivity.
  - vm_compute. reflexivity.
  - vm_compute. discriminate.
  - eexists. split; [exact Hr|exact Hm].
Defined.

(** C7 as stated fails: with both endpoints exclusive, the range between
    two neighbouring siblings is empty after the adjustment (it starts at
    index 1 and ends at index 0), and [replaceBlockRange] does not reject
    it: it deletes nothing and inserts the new block after the start
    block. *)
Lemma empty_adjusted_range_is_accepted :
  exists plan st,
    replaceBlockRange 5 (rangeArgs "alpha" "beta" false false false) (memoryOf flatPage)
      = Some (Returned (Replaced plan 1 ["new-0"] 0), st)
    /\ parent_id (plan_start plan) = parent_id (plan_end plan)
    /\ replaceFromOf (rangeArgs "alpha" "beta" false false false) (plan_start plan) = 1
    /\ replaceToOf (rangeArgs "alpha" "beta" false false false) (plan_end plan) = 0
    /\ delete_ids plan = []
    /\ mutations st
       = [MAppend (mkAppendPayload "page" [mkNew (Some "paragraph") "New text"]
                                   (PosAfterBlock "a")) true].
Proof.
  eexists. eexists. split; [vm_compute; reflexivity|].
  vm_compute. repeat split.
Qed.

(** C9 as stated fails: the deletion of [a] is confirmed, the deletion of
    [b] fails, and the error that reaches the caller is the error of the
    remote service, which lists no block id. *)
Lemma partial_deletion_error_lists_no_ids :
  exists st,
    replaceBlockRange 5 (rangeArgs "alpha" "beta" true true false) failingRemote
      = Some (Threw serverError, st)
    /\ confirmedDeleted (mutations st) = ["a"]
    /\ details serverError = None
    /\ message serverError = "Internal Server Error".
Proof.
  eexists. split; [vm_compute; reflexivity|].
  vm_compute. repeat split.
Qed.

Lemma deletion_failure_surfaces_remote_error_witness :
  exists st4 done failed rest r,
    replaceBlockRange 5 (rangeArgs "alpha" "beta" true true false) failingRemote
      = Some (Threw serverError, st4)
    /\ ["a"; "b"] = done ++ failed :: rest
    /\ deleteBlock failed r = (Threw serverError, remote st4)
    /\ confirmedDeleted (mutations st4) = done.
Proof.
  edestruct (deletion_failure_surfaces_remote_error 5
               (rangeArgs "alpha" "beta" true true false) failingRemote)
    as (Hr & done & failed & rest & r & Hids & Hd & _ & Hc).
  - reflexivity.
  - vm_compute. reflexivity.
  - vm_compute. reflexivity.
  - vm_compute. reflexivity.
  - vm_compute. reflexivity.
  - vm_compute. reflexivity.
  - vm_compute. reflexivity.
  - eexists. exists done, failed, rest, r.
    split; [exact Hr|]. split; [exact Hids|]. split; [exact Hd|exact Hc].
Defined.

(** C8 as stated fails: [b], the sibling after [a], is numbered before
    [a1], the child of [a]; in depth-first pre-order [a1] comes right after
    [a]. *)
Lemma later_sibling_precedes_subtree :
  flattenedOrder 5 "page" 100 (memoryOf smallPage)
    = Some [("a", 0%nat); ("b", 1%nat); ("a1", 2%nat)]
  /\ map id <$> preOrder 5 (listing smallPage) "page" = Some ["a"; "a1"; "b"].
Proof. split; vm_compute; reflexivity. Qed.

Lemma flatten_order_is_level_order_witness :
  exists flattened st',
    flattenScopeBlocks 5 "page" 100 (memoryOf smallPage) = Some (Returned flattened, st')
    /\ map id (blocks flattened) = ["a"; "b"; "a1"]
    /\ map order_index (blocks flattened) = [0; 1; 2]%nat.
Proof.
  destruct (levelOrder 5 (listing smallPage) "page") as [L|] eqn:E;
    [|vm_compute in E; discriminate E].
  destruct (flatten_order_is_level_order (listing smallPage) 5 100 (steadyOn smallPage)
              (memory_static smallPage 4) "page" (memoryOf smallPage) L)
    as (flattened & st' & Hf & Hb & _).
  - split; reflexivity.
  - exact E.
  - vm_compute in E. injection E as <-. vm_compute. discriminate.
  - exists flattened, st'. split; [exact Hf|]. rewrite Hb.
    vm_compute in E. injection E as <-. split; vm_compute; reflexivity.
Defined.

End RepositoryFacts.

(* ===================================================================== *)
(** ** Further properties of the idempotency store                         *)
(* ===================================================================== *)

(** An equation between closed terms, checked by evaluating both sides. *)
Ltac by_vm :=
  match goal with |- ?l = ?r => exact (@eq_refl _ r <: l = r) end.

Module StoreMore.
Import Store Mutation Demo StoreFacts Checks Samples.

Lemma prune_prune_later (t1 t2 : Z) (data : StoreData) (key : string) :
  prune t1 data !! key = None -> prune t2 (prune t1 data) !! key = None.
Proof. intros E. rewrite (prune_lookup t2), E. reflexivity. Qed.

Lemma visible_load (now : Z) (f : File) :
  visible now (loadDataUnlocked now f).2 = visible now f.
Proof.
  destruct f as [| |data]; try reflexivity.
  rewrite loadDataUnlocked_stored. cbn [snd]. rewrite !visible_stored.
  apply prune_idempotent.
Qed.

Lemma load_file_cases (now : Z) (f : File) :
  (loadDataUnlocked now f).2 = Stored (visible now f) \/
  (f = Missing /\ (loadDataUnlocked now f).2 = Missing /\ visible now f = ∅).
Proof.
  destruct f as [| |data].
  - right. auto.
  - left. reflexivity.
  - left. rewrite visible_stored, loadDataUnlocked_stored. reflexivity.
Qed.

Section More.
Context {Resp : Type} `{JsonCodec Resp}.

(** X1. Once [reserve] has returned [execute] for a key that the store did
    not show, a caller that comes with the same key, command and hash
    before the entry outlives the TTL is told [pending], by [reserve] and
    by [lookup] alike. *)
Theorem reserved_key_is_pending
    (now now' : Z) (idempotencyKey command hash : string) (f : File) :
  visible now f !! compositeKey idempotencyKey command = None ->
  now' - now <= PRUNE_TTL_MS ->
  let f1 := (reserve (Resp := Resp) now idempotencyKey command hash f).2 in
  (reserve (Resp := Resp) now idempotencyKey command hash f).1 = Returned RExecute
  /\ (reserve (Resp := Resp) now' idempotencyKey command hash f1).1 = Returned RPending
  /\ (lookup (Resp := Resp) now' idempotencyKey command hash f1).1 = Returned LPending.
Proof.
  intros Habs Hage f1. unfold f1.
  rewrite (MutationFacts.reserve_absent _ _ _ _ _ Habs). cbn [fst snd].
  split; [reflexivity|].
  unfold reserve, lookup. rewrite loadDataUnlocked_stored. cbv beta iota zeta.
  rewrite prune_lookup, lookup_insert_eq. unfold expired. cbn [createdAt].
  replace (PRUNE_TTL_MS <? now' - now) with false by (symmetry; apply Z.ltb_ge; exact Hage).
  cbn [inputHash responseJson]. rewrite !String.eqb_refl. cbn [negb]. split; reflexivity.
Qed.

(** X2. Round trip through the store: after [reserve] on an absent key and
    [complete] with the same hash and a response the store can hold,
    [complete] has not thrown, and until the entry outlives the TTL both
    [lookup] and [reserve] replay that very response. *)
Theorem reserve_complete_replays
    (t0 t1 t2 : Z) (idempotencyKey command hash : string) (response : Resp) (f : File) :
  visible t0 f !! compositeKey idempotencyKey command = None ->
  storable response ->
  t2 - t1 <= PRUNE_TTL_MS ->
  let f1 := (reserve (Resp := Resp) t0 idempotencyKey command hash f).2 in
  let f2 := (complete t1 idempotencyKey command hash response f1).2 in
  (complete t1 idempotencyKey command hash response f1).1 = Returned tt
  /\ (lookup t2 idempotencyKey command hash f2).1 = Returned (LReplay response)
  /\ (reserve t2 idempotencyKey command hash f2).1 = Returned (RReplay response).
Proof.
  intros Habs [Hparse Hpend] Hage f1 f2. unfold f2, f1.
  rewrite (MutationFacts.reserve_absent _ _ _ _ _ Habs). cbn [fst snd].
  rewrite (MutationFacts.complete_own _ _ _ _ _ _
             (mkEntry hash PENDING_RESPONSE_JSON t0))
    by (try apply lookup_insert_eq; reflexivity).
  cbn [fst snd]. split; [reflexivity|].
  rewrite (MutationFacts.reserve_terminal t2 _ _ _ _ (JSON_stringify response) t1 response)
    by (try apply lookup_insert_eq; assumption).
  split; [|reflexivity].
  unfold lookup. rewrite loadDataUnlocked_stored. cbv beta iota zeta.
  rewrite prune_lookup, lookup_insert_eq. unfold expired. cbn [createdAt].
  replace (PRUNE_TTL_MS <? t2 - t1) with false by (symmetry; apply Z.ltb_ge; exact Hage).
  cbn [inputHash responseJson]. rewrite String.eqb_refl. cbn [negb].
  apply String.eqb_neq in Hpend. rewrite Hpend, Hparse. reflexivity.
Qed.

Lemma release_stored (now : Z) (k c h : string) (data : StoreData) :
  exists data',
    release now k c h (Stored data) = (Returned tt, Stored data')
    /\ (forall key, key <> compositeKey k c -> data' !! key = prune now data !! key)
    /\ (data' !! compositeKey k c = prune now data !! compositeKey k c
        \/ data' !! compositeKey k c = None).
Proof.
  unfold release. rewrite loadDataUnlocked_stored. cbv beta iota zeta.
  destruct (prune now data !! compositeKey k c) as [entry|] eqn:E.
  - destruct (_ && _).
    + eexists. split; [reflexivity|]. split.
      * intros key Hne. apply lookup_delete_ne. congruence.
      * right. apply lookup_delete_eq.
    + eexists. split; [reflexivity|]. split; [reflexivity|]. left. exact E.
  - eexists. split; [reflexivity|]. split; [reflexivity|]. left. exact E.
Qed.

(** X3. After [reserve] on an absent key and [release] with the same hash,
    the key is free again at any later time: [lookup] returns [miss] and
    [reserve] returns [execute]. *)
Theorem release_allows_retry
    (t0 t1 t2 : Z) (idempotencyKey command hash : string) (f : File) :
  visible t0 f !! compositeKey idempotencyKey command = None ->
  let f1 := (reserve (Resp := Resp) t0 idempotencyKey command hash f).2 in
  let f2 := (release t1 idempotencyKey command hash f1).2 in
  (lookup (Resp := Resp) t2 idempotencyKey command hash f2).1 = Returned LMiss
  /\ (reserve (Resp := Resp) t2 idempotencyKey command hash f2).1 = Returned RExecute.
Proof.
  intros Habs f1 f2.
  assert (Hgone : visible t2 f2 !! compositeKey idempotencyKey command = None).
  { unfold f2, f1. rewrite (MutationFacts.reserve_absent _ _ _ _ _ Habs). cbn [fst snd].
    unfold release. rewrite loadDataUnlocked_stored. cbv beta iota zeta.
    rewrite prune_lookup, lookup_insert_eq. unfold expired at 1. cbn [createdAt].
    destruct (PRUNE_TTL_MS <? t1 - t0) eqn:Ex.
    - cbv beta iota. cbn [snd]. rewrite visible_stored. apply prune_prune_later.
      rewrite prune_lookup, lookup_insert_eq. unfold expired. cbn [createdAt].
      rewrite Ex. reflexivity.
    - cbv beta iota. cbn [inputHash responseJson]. rewrite !String.eqb_refl.
      cbn [andb snd]. unfold saveDataUnlocked.
      rewrite visible_stored, prune_lookup, lookup_delete_eq. reflexivity. }
  split.
  - unfold lookup. unfold visible in Hgone.
    destruct (loadDataUnlocked t2 f2) as [data fx]. cbn [fst] in Hgone. rewrite Hgone.
    reflexivity.
  - rewrite (MutationFacts.reserve_absent _ _ _ _ _ Hgone). reflexivity.
Qed.

(** X4. [release] deletes nothing but the caller's own pending entry: when
    the entry under the composite key has another input hash, or holds a
    response, the file is left as any read leaves it (pruned), with that
    entry in it. *)
Theorem release_keeps_foreign_entries
    (now : Z) (idempotencyKey command hash : string) (data : StoreData) (entry : StoreEntry) :
  data !! compositeKey idempotencyKey command = Some entry ->
  inputHash entry <> hash \/ responseJson entry <> PENDING_RESPONSE_JSON ->
  release now idempotencyKey command hash (Stored data) = (Returned tt, Stored (prune now data)).
Proof.
  intros E Hother. unfold release. rewrite loadDataUnlocked_stored. cbv beta iota zeta.
  rewrite prune_lookup, E. destruct (expired now entry); [reflexivity|].
  destruct Hother as [Hh|Hp].
  - apply String.eqb_neq in Hh. rewrite Hh. reflexivity.
  - apply String.eqb_neq in Hp. rewrite Hp, andb_false_r. reflexivity.
Qed.

(** X5. [lookup] is a read: whatever it returns or throws, the store shows
    the same entries afterwards.  The same holds for [reserve] whenever it
    finds an entry under the composite key. *)
Theorem lookup_changes_nothing
    (now : Z) (idempotencyKey command hash : string) (f : File) :
  visible now (lookup (Resp := Resp) now idempotencyKey command hash f).2 = visible now f
  /\ (is_Some (visible now f !! compositeKey idempotencyKey command) ->
      visible now (reserve (Resp := Resp) now idempotencyKey command hash f).2 = visible now f).
Proof.
  pose proof (visible_load now f) as Hl. unfold visible in *.
  unfold lookup, reserve.
  destruct (loadDataUnlocked now f) as [data f1]. cbn [fst snd] in *. split.
  - destruct (data !! compositeKey idempotencyKey command) as [entry|]; [|exact Hl].
    destruct (negb _); [exact Hl|]. destruct (_ =? _)%string; [exact Hl|].
    destruct (JSON_parse _); exact Hl.
  - intros [entry ->].
    destruct (negb _); [exact Hl|]. destruct (_ =? _)%string; [exact Hl|].
    destruct (JSON_parse _); exact Hl.
Qed.

(** X6. [reserve], [complete] and [release] on one composite key leave the
    entry shown under every other key as it was. *)
Theorem other_keys_are_untouched
    (now : Z) (idempotencyKey command hash : string) (response : Resp) (f : File)
    (key : string) :
  key <> compositeKey idempotencyKey command ->
  visible now (reserve (Resp := Resp) now idempotencyKey command hash f).2 !! key
    = visible now f !! key
  /\ visible now (complete now idempotencyKey command hash response f).2 !! key
     = visible now f !! key
  /\ visible now (release now idempotencyKey command hash f).2 !! key
     = visible now f !! key.
Proof.
  intros Hne.
  assert (Hins : forall (data : StoreData) entry,
            prune now data = data ->
            visible now (Stored (<[compositeKey idempotencyKey command := entry]> data)) !! key
            = data !! key).
  { intros data entry Hp. rewrite visible_stored, prune_lookup.
    rewrite lookup_insert_ne by congruence.
    rewrite <- Hp at 2. rewrite prune_lookup. reflexivity. }
  assert (Hdel : forall (data : StoreData),
            prune now data = data ->
            visible now (Stored (delete (compositeKey idempotencyKey command) data)) !! key
            = data !! key).
  { intros data Hp. rewrite visible_stored, prune_lookup.
    rewrite lookup_delete_ne by congruence.
    rewrite <- Hp at 2. rewrite prune_lookup. reflexivity. }
  pose proof (visible_load now f) as Hl.
  assert (Hp : prune now (visible now f) = visible now f).
  { destruct f as [| |data]; try reflexivity.
    rewrite visible_stored. apply prune_idempotent. }
  change (visible now f) with ((loadDataUnlocked now f).1) in *.
  unfold reserve, complete, release.
  destruct (loadDataUnlocked now f) as [data f1]. cbn [fst snd] in *.
  unfold saveDataUnlocked.
  repeat split.
  - destruct (data !! compositeKey idempotencyKey command) as [entry|].
    + destruct (negb _); [cbn [snd]; rewrite Hl; reflexivity|].
      destruct (_ =? _)%string; [cbn [snd]; rewrite Hl; reflexivity|].
      destruct (JSON_parse _); cbn [snd]; rewrite Hl; reflexivity.
    + cbn [snd]. apply (Hins data _ Hp).
  - destruct (data !! compositeKey idempotencyKey command) as [entry|].
    + destruct (negb _); [cbn [snd]; rewrite Hl; reflexivity|].
      cbn [snd]. apply (Hins data _ Hp).
    + cbn [snd]. apply (Hins data _ Hp).
  - destruct (data !! compositeKey idempotencyKey command) as [entry|].
    + destruct (_ && _); [|cbn [snd]; rewrite Hl; reflexivity].
      cbn [snd]. apply (Hdel data Hp).
    + cbn [snd]. rewrite Hl. reflexivity.
Qed.

(** X7. On a live entry under the composite key, [reserve] answers as
    [lookup] does and neither writes anything beyond the pruning of a
    read: [conflict] with the stored hash when the input hash differs;
    otherwise [pending] for the pending sentinel, the parsed response as a
    replay, or, when the stored response is not JSON, the [internal_error]
    "Stored idempotency response is corrupt.". *)
Theorem live_entry_decides_the_answer
    (now : Z) (idempotencyKey command hash : string) (data : StoreData) (entry : StoreEntry) :
  data !! compositeKey idempotencyKey command = Some entry ->
  expired now entry = false ->
  let reserved := reserve (Resp := Resp) now idempotencyKey command hash (Stored data) in
  let found := lookup (Resp := Resp) now idempotencyKey command hash (Stored data) in
  let read := Stored (prune now data) in
  (inputHash entry <> hash ->
   reserved = (Returned (RConflict (inputHash entry)), read)
   /\ found = (Returned (LConflict (inputHash entry)), read))
  /\ (inputHash entry = hash -> responseJson entry = PENDING_RESPONSE_JSON ->
      reserved = (Returned RPending, read) /\ found = (Returned LPending, read))
  /\ (inputHash entry = hash -> responseJson entry <> PENDING_RESPONSE_JSON ->
      forall response,
        JSON_parse (responseJson entry) = Some response ->
        reserved = (Returned (RReplay response), read)
        /\ found = (Returned (LReplay response), read))
  /\ (inputHash entry = hash -> responseJson entry <> PENDING_RESPONSE_JSON ->
      JSON_parse (Resp := Resp) (responseJson entry) = None ->
      reserved = (Threw corruptError, read)
      /\ found = (Threw corruptError, read)
      /\ code corruptError = Some "internal_error").
Proof.
  intros E X reserved found read. subst reserved found read.
  unfold reserve, lookup. rewrite loadDataUnlocked_stored.
  cbv beta iota zeta. rewrite prune_lookup, E, X.
  split; [|split; [|split]].
  - intros Hne. apply String.eqb_neq in Hne. rewrite Hne. split; reflexivity.
  - intros <- Hp. rewrite String.eqb_refl. cbn [negb].
    apply String.eqb_eq in Hp. rewrite Hp. split; reflexivity.
  - intros <- Hp response Hj. rewrite String.eqb_refl. cbn [negb].
    apply String.eqb_neq in Hp. rewrite Hp, Hj. split; reflexivity.
  - intros <- Hp Hj. rewrite String.eqb_refl. cbn [negb].
    apply String.eqb_neq in Hp. rewrite Hp, Hj. repeat split.
Qed.

(** A store file that cannot be read, or does not hold JSON, is an empty
    store: [lookup] returns [miss] (rewriting a file that is not JSON as an
    empty store), [reserve] returns [execute] and [complete] returns, each
    leaving a file with the one new entry, and [release] returns. *)
Lemma unreadable_file_is_empty_store
    (now : Z) (idempotencyKey command hash : string) (response : Resp) (f : File) :
  f = Missing \/ f = Corrupt ->
  lookup (Resp := Resp) now idempotencyKey command hash f
    = (Returned LMiss, match f with Corrupt => Stored ∅ | _ => f end)
  /\ reserve (Resp := Resp) now idempotencyKey command hash f
     = (Returned RExecute,
        Stored {[ compositeKey idempotencyKey command := mkEntry hash PENDING_RESPONSE_JSON now ]})
  /\ complete now idempotencyKey command hash response f
     = (Returned tt,
        Stored {[ compositeKey idempotencyKey command
                  := mkEntry hash (JSON_stringify response) now ]})
  /\ (release now idempotencyKey command hash f).1 = Returned tt.
Proof. intros [-> | ->]; repeat split. Qed.

End More.

Lemma reserved_key_is_pending_witness :
  (reserve (Resp := string) 2000 "k1" "pages.update" "h1"
     (reserve (Resp := string) 1000 "k1" "pages.update" "h1" Missing).2).1
  = Returned RPending.
Proof.
  destruct (reserved_key_is_pending (Resp := string) 1000 2000 "k1" "pages.update" "h1" Missing)
    as (_ & W & _).
  - vm_compute. reflexivity.
  - unfold PRUNE_TTL_MS. lia.
  - exact W.
Defined.

Lemma reserve_complete_replays_witness :
  (lookup (Resp := string) 3000 "k1" "pages.update" "h1"
     (complete 2000 "k1" "pages.update" "h1" "done"
        (reserve (Resp := string) 1000 "k1" "pages.update" "h1" Missing).2).2).1
  = Returned (LReplay "done").
Proof.
  destruct (reserve_complete_replays (Resp := string) 1000 2000 3000
              "k1" "pages.update" "h1" "done" Missing) as (_ & W & _).
  - vm_compute. reflexivity.
  - split; [reflexivity|vm_compute; discriminate].
  - unfold PRUNE_TTL_MS. lia.
  - exact W.
Defined.

Lemma release_allows_retry_witness :
  (reserve (Resp := string) 3000 "k1" "pages.update" "h1"
     (release 2000 "k1" "pages.update" "h1"
        (reserve (Resp := string) 1000 "k1" "pages.update" "h1" Missing).2).2).1
  = Returned RExecute.
Proof.
  destruct (release_allows_retry (Resp := string) 1000 2000 3000
              "k1" "pages.update" "h1" Missing) as (_ & W).
  - vm_compute. reflexivity.
  - exact W.
Defined.

Lemma release_keeps_foreign_entries_witness :
  release 2000 "k1" "pages.update" "h1" (Stored staleStore)
  = (Returned tt, Stored (prune 2000 staleStore)).
Proof.
  apply (release_keeps_foreign_entries 2000 "k1" "pages.update" "h1" staleStore
           (mkEntry "h1" "{}" 1000)).
  - vm_compute. reflexivity.
  - right. vm_compute. discriminate.
Defined.

Lemma lookup_changes_nothing_witness :
  visible 2000 (reserve (Resp := string) 2000 "k1" "pages.update" "h1" (Stored staleStore)).2
  = visible 2000 (Stored staleStore).
Proof.
  destruct (lookup_changes_nothing (Resp := string) 2000 "k1" "pages.update" "h1"
              (Stored staleStore)) as (_ & W).
  apply W. vm_compute. eexists. reflexivity.
Defined.

Lemma other_keys_are_untouched_witness :
  visible 2000 (reserve (Resp := string) 2000 "k2" "pages.update" "h2" (Stored staleStore)).2
    !! compositeKey "k1" "pages.update"
  = visible 2000 (Stored staleStore) !! compositeKey "k1" "pages.update".
Proof.
  destruct (other_keys_are_untouched (Resp := string) 2000 "k2" "pages.update" "h2" "{}"
              (Stored staleStore) (compositeKey "k1" "pages.update")) as (W & _).
  - vm_compute. discriminate.
  - exact W.
Defined.

Lemma live_entry_decides_the_answer_witness :
  @reserve string objectCodec 2000 "k1" "pages.update" "h1" (Stored garbledStore)
  = (Threw corruptError, Stored (prune 2000 garbledStore)).
Proof.
  destruct (@live_entry_decides_the_answer string objectCodec 2000
              "k1" "pages.update" "h1" garbledStore (mkEntry "h1" "<html>" 1000))
    as (_ & _ & _ & W).
  - vm_compute. reflexivity.
  - vm_compute. reflexivity.
  - destruct W as (W & _).
    + reflexivity.
    + vm_compute. discriminate.
    + vm_compute. reflexivity.
    + exact W.
Defined.

(** *** Keys *)

Lemma hasNul_app (s t : string) : hasNul (s +:+ nul +:+ t) = true.
Proof.
  induction s as [|a s IH]; [reflexivity|].
  change (hasNul (String a (s +:+ nul +:+ t)) = true).
  cbn [hasNul]. rewrite IH. apply orb_true_r.
Qed.

(** X10. For command names without a NUL character, the composite key
    determines both the idempotency key and the command name: two
    different (key, command) pairs never share a store entry. *)
Theorem composite_key_is_injective (k1 c1 k2 c2 : string) :
  hasNul c1 = false -> hasNul c2 = false ->
  compositeKey k1 c1 = compositeKey k2 c2 -> k1 = k2 /\ c1 = c2.
Proof.
  unfold compositeKey. intros H1 H2. revert k2.
  induction k1 as [|a k1 IH]; intros [|b k2] E.
  - change (String (ascii_of_nat 0) c1 = String (ascii_of_nat 0) c2) in E.
    injection E as E. auto.
  - change (String (ascii_of_nat 0) c1 = String b (k2 +:+ nul +:+ c2)) in E.
    injection E as _ E. rewrite E, hasNul_app in H1. discriminate.
  - change (String a (k1 +:+ nul +:+ c1) = String (ascii_of_nat 0) c2) in E.
    injection E as _ E. rewrite <- E, hasNul_app in H2. discriminate.
  - change (String a (k1 +:+ nul +:+ c1) = String b (k2 +:+ nul +:+ c2)) in E.
    injection E as Hab E. destruct (IH k2 E) as [Hk Hc]. subst. auto.
Qed.

Lemma composite_key_is_injective_witness :
  "k1" = "k1" /\ "pages.update" = "pages.update".
Proof.
  apply (composite_key_is_injective "k1" "pages.update" "k1" "pages.update").
  - vm_compute. reflexivity.
  - vm_compute. reflexivity.
  - reflexivity.
Defined.

Lemma length_append (s t : string) :
  String.length (s +:+ t) = (String.length s + String.length t)%nat.
Proof.
  induction s as [|a s IH]; [reflexivity|].
  change (S (String.length (s +:+ t)) = S (String.length s + String.length t)).
  rewrite IH. reflexivity.
Qed.

Lemma append_inv_tail (s1 s2 t : string) : s1 +:+ t = s2 +:+ t -> s1 = s2.
Proof.
  revert s2. induction s1 as [|a s1 IH]; intros [|b s2] E.
  - reflexivity.
  - apply (f_equal String.length) in E.
    change (String.length t = S (String.length (s2 +:+ t))) in E.
    rewrite length_append in E. lia.
  - apply (f_equal String.length) in E.
    change (S (String.length (s1 +:+ t)) = String.length t) in E.
    rewrite length_append in E. lia.
  - change (String a (s1 +:+ t) = String b (s2 +:+ t)) in E.
    injection E as -> E. f_equal. apply IH, E.
Qed.

(** X11. The idempotency key of a command and request shape depends on the
    clock through its two-minute bucket only: two clock values give the
    same key exactly when they fall into the same bucket. *)
Theorem key_changes_with_bucket {Shape : Type} `{RequestHash Shape}
    (t1 t2 : Z) (command : string) (shape : Shape) :
  buildInternalIdempotencyKey t1 command shape = buildInternalIdempotencyKey t2 command shape
  <-> t1 / 120000 = t2 / 120000.
Proof.
  unfold buildInternalIdempotencyKey. split; [|intros ->; reflexivity].
  intros E. apply String.app_inj in E.
  change (":" +:+ pretty (t1 / 120000) +:+ ":" +:+ hashCommandShape command shape)
    with (String ":" (pretty (t1 / 120000) +:+ ":" +:+ hashCommandShape command shape)) in E.
  change (":" +:+ pretty (t2 / 120000) +:+ ":" +:+ hashCommandShape command shape)
    with (String ":" (pretty (t2 / 120000) +:+ ":" +:+ hashCommandShape command shape)) in E.
  injection E as E. apply append_inv_tail in E. apply pretty_Z_inj in E. exact E.
Qed.

End StoreMore.

(* ===================================================================== *)
(** ** Further properties of the mutation coordinator                      *)
(* ===================================================================== *)

Module MutationMore.
Import Store Mutation Demo Checks Samples.

Lemma sameBooks_refl fr : sameBooks fr fr.
Proof. repeat split. Qed.

Lemma sameBooks_trans fr1 fr2 fr3 : sameBooks fr1 fr2 -> sameBooks fr2 fr3 -> sameBooks fr1 fr3.
Proof. unfold sameBooks. intros (?&?&?&?) (?&?&?&?). repeat split; congruence. Qed.

Lemma sameBooks_withEnv e fr : sameBooks fr (withEnv e fr).
Proof. repeat split. Qed.

Section More.
Context {Shape Resp : Type} `{JsonCodec Resp} `{RequestHash Shape}.
Variable others : Z -> File -> File.

Lemma onStore_books {A} (op : Z -> File -> Outcome A * File) fr o fr' :
  onStore op fr = Some (o, fr') -> sameBooks fr fr'.
Proof.
  unfold onStore. destruct (op _ _) as [o' f']. intros [= <- <-]. apply sameBooks_withEnv.
Qed.

Lemma pollLoop_books (fuel : nat) (deadline : Z) (key command hash : string) fr o fr' :
  pollLoop (Resp := Resp) others fuel deadline key command hash fr = Some (o, fr') ->
  sameBooks fr fr'.
Proof.
  revert fr. induction fuel as [|fuel IH]; intros fr.
  - cbn [pollLoop]. unfold bind, dateNow.
    destruct (_ <? _); [discriminate|]. intros [= <- <-]. apply sameBooks_refl.
  - cbn [pollLoop]. unfold bind at 1. unfold dateNow.
    destruct (_ <? _); [|intros [= <- <-]; apply sameBooks_refl].
    unfold bind at 1. unfold sleep, modify. cbv beta iota.
    unfold bind at 1.
    match goal with |- context [onStore ?op ?fr1] =>
      destruct (onStore op fr1) as [[[current|err] fr2]|] eqn:El; [| |discriminate]
    end.
    + apply onStore_books in El.
      assert (Hb : sameBooks fr fr2) by (eapply sameBooks_trans; [|exact El]; apply sameBooks_withEnv).
      destruct current.
      * unfold bind, ret.
        destruct (onStore _ fr2) as [[[l|err] fr3]|] eqn:Er; [| |discriminate];
          intros [= <- <-]; apply onStore_books in Er; eapply sameBooks_trans; eassumption.
      * intros Hrec. apply IH in Hrec. eapply sameBooks_trans; eassumption.
      * intros [= <- <-]. exact Hb.
      * intros [= <- <-]. exact Hb.
    + intros [= <- <-]. apply onStore_books in El.
      eapply sameBooks_trans; [|exact El]. apply sameBooks_withEnv.
Qed.

Lemma awaitReservation_books (fuel : nat) (lookup0 : IdempotencyReservation Resp)
    (key command hash : string) fr o fr' :
  awaitReservation others fuel lookup0 key command hash fr = Some (o, fr') ->
  sameBooks fr fr'.
Proof.
  revert lookup0 fr. induction fuel as [|fuel IH]; intros lookup0 fr.
  - destruct lookup0; cbn [awaitReservation]; try discriminate;
      intros [= <- <-]; apply sameBooks_refl.
  - destruct lookup0; cbn [awaitReservation];
      try (intros [= <- <-]; apply sameBooks_refl).
    unfold bind at 1. unfold dateNow at 1. unfold bind at 1.
    destruct (pollLoop _ _ _ _ _ _ _) as [[[resolved|err] fr1]|] eqn:Ep; [| |discriminate].
    + apply pollLoop_books in Ep. destruct resolved as [l|].
      * intros [= <- <-]. exact Ep.
      * unfold bind at 1.
        destruct (onStore _ fr1) as [[[l|err] fr2]|] eqn:Er; [| |discriminate].
        -- apply onStore_books in Er.
           assert (Hb : sameBooks fr fr2) by (eapply sameBooks_trans; eassumption).
           destruct l; try (intros Hrec; apply IH in Hrec; eapply sameBooks_trans; eassumption).
           intros [= <- <-]. exact Hb.
        -- intros [= <- <-]. apply onStore_books in Er. eapply sameBooks_trans; eassumption.
    + intros [= <- <-]. apply pollLoop_books in Ep. exact Ep.
Qed.

Lemma acquireReservation_books (args : MutationArgs Shape Resp) key hash fr o fr' :
  acquireReservation others args key hash fr = Some (o, fr') -> sameBooks fr fr'.
Proof.
  unfold acquireReservation, bind.
  destruct (onStore _ fr) as [[[first|err] fr1]|] eqn:Er; [| |discriminate].
  - intros Ha. apply awaitReservation_books in Ha. apply onStore_books in Er.
    eapply sameBooks_trans; eassumption.
  - intros [= <- <-]. apply onStore_books in Er. exact Er.
Qed.

Lemma attempt_owned (args : MutationArgs Shape Resp) key hash fr0 fr1 lookup1 :
  acquireReservation others args key hash fr0 = Some (Returned lookup1, fr1) ->
  ownedBy lookup1 = true ->
  attempt others args key hash fr0 = runOwned args key hash fr1.
Proof.
  intros Hacq Hown. unfold attempt. rewrite (bind_Returned _ _ _ _ _ Hacq).
  destruct lookup1; try discriminate Hown; reflexivity.
Qed.

(** X12. When the coordinator owns the reservation and [run] returns a
    response, the invocation returns that response whether or not
    [complete] then throws: a failure to persist the outcome is only noted
    in the audit record ([idempotency_persist_degraded]), which says
    [ok = true].  [run] has been called once and [recover] not at all. *)
Theorem success_survives_persistence_failure
    (args : MutationArgs Shape Resp) (fr0 fr1 : Frame)
    (lookup1 : IdempotencyReservation Resp) (response : Resp) (e2 : Env) :
  let requestHash := hashObject (requestShape args) in
  let idempotencyKey :=
    buildInternalIdempotencyKey (clock (env fr0)) (commandName args) (requestShape args) in
  acquireReservation others args idempotencyKey requestHash (withFlags (fun _ => noFlags) fr0)
    = Some (Returned lookup1, fr1) ->
  ownedBy lookup1 = true ->
  run args (env fr1) = (Returned response, e2) ->
  let completed :=
    complete (clock e2) idempotencyKey (commandName args) requestHash response (file e2) in
  exists frEnd event,
    executeMutationWithIdempotency others args fr0 = Some (Returned response, frEnd)
    /\ env frEnd = mkEnv (clock e2) completed.2
    /\ runCalls frEnd = S (runCalls fr0)
    /\ recoverCalls frEnd = recoverCalls fr0
    /\ auditLog frEnd = auditLog fr0 ++ [event]
    /\ ev_ok event = true
    /\ ev_recovery_attempted event = Some false
    /\ ev_idempotency_persist_degraded event
       = Some (match completed.1 with Returned _ => false | Threw _ => true end).
Proof.
  intros requestHash idempotencyKey Hacq Hown Hrun completed.
  destruct (acquireReservation_books _ _ _ _ _ _ Hacq) as (Hr & Hc & Ha & Hf).
  cbn [runCalls recoverCalls auditLog flags withFlags] in Hr, Hc, Ha, Hf.
  unfold executeMutationWithIdempotency. fold requestHash idempotencyKey.
  unfold tryCatch at 1. rewrite (attempt_owned _ _ _ _ _ _ Hacq Hown).
  unfold runOwned, persistAndReport, bind, tryCatch, setFlag, modify, callRun, onStore,
    get, safeAppendAuditLog, ret.
  cbn [env withFlags withEnv]. rewrite Hrun. cbn [env clock file].
  fold completed. destruct completed as [[[]|err] f'].
  - do 2 eexists. split; [reflexivity|]. cbn. rewrite Hr, Hc, Ha, Hf. repeat split.
  - do 2 eexists. split; [reflexivity|]. cbn. rewrite Hr, Hc, Ha, Hf. repeat split.
Qed.


(** X14. When [run] throws an ambiguous error and [recover] returns a
    response, the invocation returns that response as a success: it is
    handed to [complete], and the audit record says [ok = true],
    [recovery_attempted], [recovery_succeeded] and not
    [outcome_uncertain].  [run] and [recover] have each been called once. *)
Theorem recovered_outcome_is_returned
    (args : MutationArgs Shape Resp) (fr0 fr1 : Frame)
    (lookup1 : IdempotencyReservation Resp) (error : Thrown) (e2 e3 : Env)
    (rc : Callback (option Resp)) (response : Resp) :
  let requestHash := hashObject (requestShape args) in
  let idempotencyKey :=
    buildInternalIdempotencyKey (clock (env fr0)) (commandName args) (requestShape args) in
  acquireReservation others args idempotencyKey requestHash (withFlags (fun _ => noFlags) fr0)
    = Some (Returned lookup1, fr1) ->
  ownedBy lookup1 = true ->
  run args (env fr1) = (Threw error, e2) ->
  isAmbiguousMutationError error (isAmbiguousError args) = true ->
  recover args = Some rc ->
  rc e2 = (Returned (Some response), e3) ->
  let completed :=
    complete (clock e3) idempotencyKey (commandName args) requestHash response (file e3) in
  exists frEnd event,
    executeMutationWithIdempotency others args fr0 = Some (Returned response, frEnd)
    /\ env frEnd = mkEnv (clock e3) completed.2
    /\ runCalls frEnd = S (runCalls fr0)
    /\ recoverCalls frEnd = S (recoverCalls fr0)
    /\ auditLog frEnd = auditLog fr0 ++ [event]
    /\ ev_ok event = true
    /\ ev_recovery_attempted event = Some true
    /\ ev_recovery_succeeded event = Some true
    /\ ev_outcome_uncertain event = Some false.
Proof.
  intros requestHash idempotencyKey Hacq Hown Hrun Hamb Hrec Hrc completed.
  destruct (acquireReservation_books _ _ _ _ _ _ Hacq) as (Hr & Hc & Ha & Hf).
  cbn [runCalls recoverCalls auditLog flags withFlags] in Hr, Hc, Ha, Hf.
  unfold executeMutationWithIdempotency. fold requestHash idempotencyKey.
  unfold tryCatch at 1. rewrite (attempt_owned _ _ _ _ _ _ Hacq Hown).
  unfold runOwned. unfold bind at 1. unfold setFlag at 1, modify. cbv beta iota.
  unfold bind at 1. unfold tryCatch at 1. unfold callRun.
  cbn [env withFlags withEnv]. rewrite Hrun. cbv beta iota.
  unfold onRunError. rewrite Hamb, Hrec. cbn [negb].
  unfold bind at 1. unfold setFlag at 1, modify. cbv beta iota.
  unfold tryCatch at 1. unfold bind at 1. unfold callRecover.
  cbn [env withFlags]. rewrite Hrc. cbv beta iota.
  unfold bind at 1. unfold setFlag at 1, modify, ret. cbv beta iota.
  unfold persistAndReport, bind, tryCatch, setFlag, modify, onStore,
    get, safeAppendAuditLog, ret.
  cbn [env withFlags clock file]. fold completed. destruct completed as [[[]|err] f'].
  - do 2 eexists. split; [reflexivity|]. cbn. rewrite Hr, Hc, Ha, Hf. repeat split.
  - do 2 eexists. split; [reflexivity|]. cbn. rewrite Hr, Hc, Ha, Hf. repeat split.
Qed.

(** X15. When the wait for the reservation ends in a replay, the stored
    response is returned, and when it ends in a conflict, the
    non-retryable [idempotency_key_conflict] error is thrown; in both cases
    neither [run] nor [recover] is called, nothing is released, and one
    audit record is written. *)
Theorem conflict_and_replay_skip_run
    (args : MutationArgs Shape Resp) (fr0 fr1 : Frame)
    (lookup1 : IdempotencyReservation Resp) :
  let requestHash := hashObject (requestShape args) in
  let idempotencyKey :=
    buildInternalIdempotencyKey (clock (env fr0)) (commandName args) (requestShape args) in
  acquireReservation others args idempotencyKey requestHash (withFlags (fun _ => noFlags) fr0)
    = Some (Returned lookup1, fr1) ->
  (forall response, lookup1 = RReplay response ->
     exists frEnd event,
       executeMutationWithIdempotency others args fr0 = Some (Returned response, frEnd)
       /\ env frEnd = env fr1
       /\ runCalls frEnd = runCalls fr0
       /\ recoverCalls frEnd = recoverCalls fr0
       /\ auditLog frEnd = auditLog fr0 ++ [event]
       /\ ev_ok event = true)
  /\ (forall storedHash, lookup1 = RConflict storedHash ->
        exists frEnd event,
          executeMutationWithIdempotency others args fr0
            = Some (Threw (keyConflictError (commandName args) storedHash requestHash), frEnd)
          /\ retryable (keyConflictError (commandName args) storedHash requestHash) = false
          /\ env frEnd = env fr1
          /\ runCalls frEnd = runCalls fr0
          /\ recoverCalls frEnd = recoverCalls fr0
          /\ auditLog frEnd = auditLog fr0 ++ [event]
          /\ ev_ok event = false).
Proof.
  intros requestHash idempotencyKey Hacq.
  destruct (acquireReservation_books _ _ _ _ _ _ Hacq) as (Hr & Hc & Ha & Hf).
  cbn [runCalls recoverCalls auditLog flags withFlags] in Hr, Hc, Ha, Hf.
  unfold executeMutationWithIdempotency. fold requestHash idempotencyKey.
  unfold tryCatch at 1 2. unfold attempt. rewrite (bind_Returned _ _ _ _ _ Hacq).
  split.
  - intros response ->.
    unfold bind, dateNow, safeAppendAuditLog, modify, ret. cbv beta iota.
    do 2 eexists. split; [reflexivity|]. cbn. rewrite Hr, Hc, Ha. repeat split.
  - intros storedHash ->.
    unfold throw, onFailure, bind, get, safeAppendAuditLog, modify, ret. rewrite Hf.
    cbn [ownsReservation noFlags].
    do 2 eexists. split; [reflexivity|]. cbn. rewrite Hr, Hc, Ha. repeat split.
Qed.

End More.

(** *** A reservation that stays pending *)

Section Pending.
Context {Shape Resp : Type} `{JsonCodec Resp} `{RequestHash Shape}.
Variable others : Z -> File -> File.
Hypothesis others_idle : forall (t : Z) (f : File), others t f = f.

Lemma pollLoop_still_pending (rounds : nat) :
  forall (fuel : nat) (key command hash : string) (t0 : Z) fr data,
    (rounds <= fuel)%nat ->
    file (env fr) = Stored data ->
    data !! compositeKey key command = Some (mkEntry hash PENDING_RESPONSE_JSON t0) ->
    clock (env fr) + 50 * Z.of_nat rounds - t0 <= PRUNE_TTL_MS ->
    exists fr' data',
      pollLoop (Resp := Resp) others fuel (clock (env fr) + 50 * Z.of_nat rounds)
               key command hash fr
        = Some (Returned None, fr')
      /\ sameBooks fr fr'
      /\ clock (env fr') = clock (env fr) + 50 * Z.of_nat rounds
      /\ file (env fr') = Stored data'
      /\ data' !! compositeKey key command = Some (mkEntry hash PENDING_RESPONSE_JSON t0).
Proof.
  induction rounds as [|rounds IH]; intros fuel key command hash t0 fr data Hfuel Hfile Hentry Hage.
  - exists fr, data. destruct fuel; cbn [pollLoop]; unfold bind, dateNow;
      (replace (clock (env fr) <? clock (env fr) + 50 * Z.of_nat 0) with false
         by (symmetry; apply Z.ltb_ge; lia));
      (split; [reflexivity|]); (split; [apply sameBooks_refl|]);
      (split; [lia|]); auto.
  - destruct fuel as [|fuel]; [lia|].
    cbn [pollLoop]. unfold bind at 1. unfold dateNow.
    replace (clock (env fr) <? clock (env fr) + 50 * Z.of_nat (S rounds)) with true
      by (symmetry; apply Z.ltb_lt; lia).
    unfold bind at 1. unfold sleep, modify. cbv beta iota.
    unfold bind at 1. unfold onStore at 1. cbn [env withEnv clock file].
    rewrite others_idle, Hfile.
    unfold lookup. rewrite StoreFacts.loadDataUnlocked_stored. cbv beta iota zeta.
    rewrite StoreFacts.prune_lookup, Hentry. unfold expired. cbn [createdAt].
    replace (PRUNE_TTL_MS <? clock (env fr) + 50 - t0) with false
      by (symmetry; apply Z.ltb_ge; lia).
    cbn [inputHash responseJson]. rewrite !String.eqb_refl. cbn [negb].
    set (fr1 := withEnv _ (withEnv _ fr)).
    destruct (IH fuel key command hash t0 fr1 (prune (clock (env fr) + 50) data))
      as (fr' & data' & Hp & Hb & Hc & Hf & He).
    + lia.
    + reflexivity.
    + rewrite StoreFacts.prune_lookup, Hentry. unfold expired. cbn [createdAt].
      replace (PRUNE_TTL_MS <? clock (env fr) + 50 - t0) with false
        by (symmetry; apply Z.ltb_ge; lia).
      reflexivity.
    + unfold fr1. cbn [env withEnv clock]. lia.
    + exists fr', data'. unfold fr1 in Hp, Hc. cbn [env withEnv clock] in Hp, Hc.
      replace (clock (env fr) + 50 * Z.of_nat (S rounds))
        with (clock (env fr) + 50 + 50 * Z.of_nat rounds) by lia.
      split; [exact Hp|]. split; [|split; [lia|auto]].
      eapply sameBooks_trans; [|exact Hb]. repeat split.
Qed.

(** X16. While another caller holds the reservation (a pending entry with
    the same hash that stays in the store and does not outlive the TTL
    during the wait), the invocation polls for fifteen seconds and then
    throws the retryable "already in progress" error.  It never calls
    [run] or [recover], and the other caller's entry is still in the
    store. *)
Theorem pending_reservation_times_out
    (args : MutationArgs Shape Resp) (fr0 : Frame) (data : StoreData) (t0 : Z) :
  let requestHash := hashObject (requestShape args) in
  let idempotencyKey :=
    buildInternalIdempotencyKey (clock (env fr0)) (commandName args) (requestShape args) in
  file (env fr0) = Stored data ->
  data !! compositeKey idempotencyKey (commandName args)
    = Some (mkEntry requestHash PENDING_RESPONSE_JSON t0) ->
  clock (env fr0) + 15000 - t0 <= PRUNE_TTL_MS ->
  exists frEnd event data',
    executeMutationWithIdempotency others args fr0 = Some (Threw inProgressError, frEnd)
    /\ retryable inProgressError = true
    /\ clock (env frEnd) = clock (env fr0) + 15000
    /\ file (env frEnd) = Stored data'
    /\ data' !! compositeKey idempotencyKey (commandName args)
       = Some (mkEntry requestHash PENDING_RESPONSE_JSON t0)
    /\ runCalls frEnd = runCalls fr0
    /\ recoverCalls frEnd = recoverCalls fr0
    /\ auditLog frEnd = auditLog fr0 ++ [event]
    /\ ev_ok event = false.
Proof.
  intros requestHash idempotencyKey Hfile Hentry Hage.
  assert (Hres : forall t d,
            d !! compositeKey idempotencyKey (commandName args)
              = Some (mkEntry requestHash PENDING_RESPONSE_JSON t0) ->
            t - t0 <= PRUNE_TTL_MS ->
            reserve (Resp := Resp) t idempotencyKey (commandName args) requestHash (Stored d)
            = (Returned RPending, Stored (prune t d))
            /\ prune t d !! compositeKey idempotencyKey (commandName args)
               = Some (mkEntry requestHash PENDING_RESPONSE_JSON t0)).
  { intros t d Hd Ht.
    assert (Hp : prune t d !! compositeKey idempotencyKey (commandName args)
                 = Some (mkEntry requestHash PENDING_RESPONSE_JSON t0)).
    { rewrite StoreFacts.prune_lookup, Hd. unfold expired. cbn [createdAt].
      replace (PRUNE_TTL_MS <? t - t0) with false by (symmetry; apply Z.ltb_ge; lia).
      reflexivity. }
    split; [|exact Hp].
    unfold reserve. rewrite StoreFacts.loadDataUnlocked_stored. cbv beta iota zeta.
    rewrite Hp. cbn [inputHash responseJson]. rewrite !String.eqb_refl. reflexivity. }
  unfold executeMutationWithIdempotency. fold requestHash idempotencyKey.
  unfold tryCatch at 1. unfold attempt, acquireReservation.
  unfold bind at 1. unfold bind at 1. unfold onStore at 1.
  cbn [env withFlags clock file]. rewrite Hfile.
  destruct (Hres (clock (env fr0)) data Hentry ltac:(lia)) as [-> Hentry1].
  cbn [awaitReservation]. unfold bind at 1. unfold dateNow at 1.
  cbn [env withEnv clock]. unfold bind at 1.
  set (fr1 := withEnv _ (withFlags _ fr0)).
  destruct (pollLoop_still_pending 300 300 idempotencyKey (commandName args) requestHash t0
              fr1 (prune (clock (env fr0)) data))
    as (fr2 & data2 & Hp & Hb & Hc & Hf & He).
  { lia. } { reflexivity. } { exact Hentry1. }
  { unfold fr1. cbn [env withEnv clock]. lia. }
  change (clock (env fr1)) with (clock (env fr0)) in Hp, Hc.
  change (50 * Z.of_nat 300) with 15000 in Hp, Hc.
  rewrite Hp. unfold bind at 1. unfold onStore at 1. rewrite Hf.
  destruct (Hres (clock (env fr2)) data2 He ltac:(lia)) as [-> Hentry2].
  unfold throw, onFailure, bind, get, safeAppendAuditLog, modify, ret.
  destruct Hb as (Hr & Hrc & Ha & Hfl).
  unfold fr1 in Hr, Hrc, Ha, Hfl.
  cbn [runCalls recoverCalls auditLog flags withEnv withFlags] in Hr, Hrc, Ha, Hfl.
  cbn [flags withEnv]. rewrite Hfl. cbn [ownsReservation noFlags].
  do 3 eexists. split; [reflexivity|]. cbn. rewrite Hr, Hrc, Ha, Hc.
  rewrite Hc in Hentry2. repeat split. exact Hentry2.
Qed.

End Pending.

Lemma success_survives_persistence_failure_witness :
  exists frEnd event,
    executeMutationWithIdempotency alone (updateArgs (overwritingRun "done") None)
      (startFrame (mkEnv 1000 Missing)) = Some (Returned "done", frEnd)
    /\ auditLog frEnd = [event]
    /\ ev_ok event = true
    /\ ev_idempotency_persist_degraded event = Some true.
Proof.
  destruct (success_survives_persistence_failure alone
              (updateArgs (overwritingRun "done") None) (startFrame (mkEnv 1000 Missing))
              reservedFrame RExecute "done" (mkEnv 1000 (Stored foreignStore)))
    as (frEnd & event & He & _ & _ & _ & Ha & Hok & _ & Hd).
  - by_vm.
  - reflexivity.
  - reflexivity.
  - exists frEnd, event. split; [exact He|]. split; [exact Ha|]. split; [exact Hok|].
    rewrite Hd. by_vm.
Defined.

Lemma recovered_outcome_is_returned_witness :
  exists frEnd,
    executeMutationWithIdempotency alone
      (updateArgs (throwing gatewayTimeout) (Some (confirming "done")))
      (startFrame (mkEnv 1000 Missing)) = Some (Returned "done", frEnd)
    /\ runCalls frEnd = 1%nat
    /\ recoverCalls frEnd = 1%nat.
Proof.
  destruct (recovered_outcome_is_returned alone
              (updateArgs (throwing gatewayTimeout) (Some (confirming "done")))
              (startFrame (mkEnv 1000 Missing))
              reservedFrame RExecute gatewayTimeout
              (mkEnv 1000 (Stored reservedStore)) (mkEnv 1000 (Stored reservedStore))
              (confirming "done") "done")
    as (frEnd & event & He & _ & Hr & Hc & _).
  - by_vm.
  - reflexivity.
  - reflexivity.
  - reflexivity.
  - reflexivity.
  - reflexivity.
  - exists frEnd. split; [exact He|]. split; [exact Hr|exact Hc].
Defined.

Lemma conflict_and_replay_skip_run_witness :
  exists frEnd,
    executeMutationWithIdempotency alone (updateArgs (returning "done") None)
      (startFrame (mkEnv 1000 (Stored foreignStore)))
    = Some (Threw (keyConflictError "pages.update" "h(other)" (hashObject "{page_id:p1}")),
            frEnd)
    /\ runCalls frEnd = 0%nat.
Proof.
  destruct (conflict_and_replay_skip_run alone (updateArgs (returning "done") None)
              (startFrame (mkEnv 1000 (Stored foreignStore)))
              (startFrame (mkEnv 1000 (Stored foreignStore))) (RConflict "h(other)"))
    as (_ & W).
  - by_vm.
  - destruct (W "h(other)" eq_refl) as (frEnd & event & He & _ & _ & Hr & _).
    exists frEnd. split; [exact He|exact Hr].
Defined.

Lemma pending_reservation_times_out_witness :
  exists frEnd,
    executeMutationWithIdempotency alone (updateArgs (returning "done") None)
      (startFrame (mkEnv 1000 (Stored heldStore))) = Some (Threw inProgressError, frEnd)
    /\ clock (env frEnd) = 16000
    /\ runCalls frEnd = 0%nat.
Proof.
  destruct (pending_reservation_times_out alone (fun _ _ => eq_refl)
              (updateArgs (returning "done") None)
              (startFrame (mkEnv 1000 (Stored heldStore))) heldStore 900)
    as (frEnd & event & data' & He & _ & Hc & _ & _ & Hr & _).
  - reflexivity.
  - by_vm.
  - vm_compute. discriminate.
  - exists frEnd. split; [exact He|]. split; [exact Hc|exact Hr].
Defined.

End MutationMore.

(* ===================================================================== *)
(** ** Further properties of the block operations                          *)
(* ===================================================================== *)

Module RepositoryMore.
Import Repository Shape Reading PageMutation Demo Trees RepositoryFacts.

(** *** Chunks *)

Lemma chunk_concat {A} (fuel : nat) (items : list A) (chunkSize : nat) :
  (0 < chunkSize)%nat -> (length items <= fuel)%nat ->
  concat (chunk fuel items chunkSize) = items.
Proof.
  intros Hsize. revert items. induction fuel as [|fuel IH]; intros items Hlen.
  - destruct items; [reflexivity|cbn in Hlen; lia].
  - destruct items as [|x rest]; [reflexivity|].
    cbn [chunk concat]. rewrite IH.
    + apply take_drop.
    + rewrite length_drop. cbn [length] in *. lia.
Qed.

Lemma chunk_sizes {A} (fuel : nat) (items : list A) (chunkSize : nat) :
  (0 < chunkSize)%nat ->
  Forall (fun children => (0 < length children <= chunkSize)%nat) (chunk fuel items chunkSize).
Proof.
  intros Hsize. revert items. induction fuel as [|fuel IH]; intros items.
  - constructor.
  - destruct items as [|x rest]; [constructor|].
    cbn [chunk]. constructor; [|apply IH].
    rewrite length_take. cbn [length]. lia.
Qed.

Lemma chunk_full {A} (fuel : nat) (items : list A) (chunkSize : nat) (i : nat)
    (children : list A) :
  chunk fuel items chunkSize !! i = Some children ->
  (S i < length (chunk fuel items chunkSize))%nat ->
  length children = chunkSize.
Proof.
  revert items i. induction fuel as [|fuel IH]; intros items i.
  - discriminate.
  - destruct items as [|x rest]; [discriminate|].
    cbn [chunk]. destruct i as [|i].
    + intros [= <-]. cbn [length]. intros Hmore.
      destruct (chunk fuel (drop chunkSize (x :: rest)) chunkSize) as [|c cs] eqn:E;
        [cbn in Hmore; lia|].
      rewrite length_take.
      destruct (decide (chunkSize <= length (x :: rest))%nat) as [Hle|Hgt]; [lia|].
      rewrite drop_ge in E by lia. destruct fuel; discriminate E.
    + cbn [lookup list_lookup length]. intros Hc Hmore. apply (IH _ i Hc). lia.
Qed.

Lemma chunk_prefix {A} (items : list A) (chunkSize : nat) (sent : list (list A)) :
  (0 < chunkSize)%nat ->
  sent `prefix_of` chunk (length items) items chunkSize ->
  concat sent `prefix_of` items.
Proof.
  intros Hsize [k Hk]. exists (concat k).
  rewrite <- concat_app, <- Hk, chunk_concat by lia. reflexivity.
Qed.

(** X18. For a positive chunk size, [chunk] cuts the items into
    consecutive pieces: put together again they give the items, no piece
    is empty or longer than the chunk size, and every piece but the last
    has exactly the chunk size. *)
Theorem chunk_is_a_partition {A} (items : list A) (chunkSize : nat) :
  (0 < chunkSize)%nat ->
  let chunks := chunk (length items) items chunkSize in
  concat chunks = items
  /\ Forall (fun children => (0 < length children <= chunkSize)%nat) chunks
  /\ (forall i children,
        chunks !! i = Some children -> (S i < length chunks)%nat ->
        length children = chunkSize).
Proof.
  intros Hsize chunks. split; [|split].
  - apply chunk_concat; [exact Hsize|lia].
  - apply chunk_sizes, Hsize.
  - intros i children. apply chunk_full.
Qed.

Lemma chunk_is_a_partition_witness :
  concat (chunk 5 ["a"; "b"; "c"; "d"; "e"] 2) = ["a"; "b"; "c"; "d"; "e"].
Proof.
  destruct (chunk_is_a_partition ["a"; "b"; "c"; "d"; "e"] 2) as (W & _).
  - lia.
  - exact W.
Defined.


(** *** Resolving a selector *)

Lemma matchesOf_elem (blocks : list FlatBlock) (selector : Selector) (block : FlatBlock) :
  block ∈ matchesOf blocks selector <-> block ∈ blocks /\ matchesSelector block selector = true.
Proof.
  unfold matchesOf. rewrite !list_elem_of_In, filter_In. reflexivity.
Qed.

(** X24. When the strict resolver returns, the selector was well formed,
    the block it selected is one of the given blocks and matches the
    selector; without [nth] it is the only match, and with [nth = n] it is
    the [n]-th match counted from the start, or from the end when
    [from = end]. *)
Theorem strict_resolution_selects_a_match
    (blocks : list FlatBlock) (raw : BlockSelector) (label : string) (resolved : Resolved) :
  resolveSelectorStrict blocks raw label = Returned resolved ->
  let selector := res_selector resolved in
  let matches := matchesOf blocks selector in
  normalizeSelector raw label = Returned selector
  /\ res_matches resolved = matches
  /\ selected resolved ∈ blocks
  /\ matchesSelector (selected resolved) selector = true
  /\ match nth selector with
     | None => matches = [selected resolved]
     | Some n =>
         1 <= n <= Z.of_nat (length matches)
         /\ matches !! (match from selector with
                        | FromStart => Z.to_nat (n - 1)
                        | FromEnd => (length matches - Z.to_nat n)%nat
                        end) = Some (selected resolved)
     end.
Proof.
  unfold resolveSelectorStrict.
  destruct (normalizeSelector raw label) as [selector|e] eqn:En; [|discriminate].
  destruct (matchesOf blocks selector) as [|first rest] eqn:Em; [discriminate|].
  rewrite <- Em.
  assert (Hin : forall k b, matchesOf blocks selector !! k = Some b ->
                            b ∈ blocks /\ matchesSelector b selector = true).
  { intros k b Hk. apply matchesOf_elem. eapply list_elem_of_lookup_2, Hk. }
  destruct (nth selector) as [n|] eqn:Enth.
  - destruct (_ || _) eqn:Eor; [discriminate|].
    apply orb_false_elim in Eor. destruct Eor as [E0 E1].
    apply Z.ltb_ge in E0. apply Z.leb_gt in E1.
    destruct (matchesOf blocks selector !! Z.to_nat (nthIndex selector n _)) as [block|] eqn:Ek;
      [|discriminate].
    intros [= <-]. cbn [res_selector res_matches selected]. rewrite Enth.
    destruct (Hin _ _ Ek) as [Hb Hm].
    split; [reflexivity|]. split; [reflexivity|]. split; [exact Hb|]. split; [exact Hm|].
    unfold nthIndex in *. destruct (from selector).
    + split; [lia|exact Ek].
    + split; [lia|].
      replace (length (matchesOf blocks selector) - Z.to_nat n)%nat
        with (Z.to_nat (Z.of_nat (length (matchesOf blocks selector)) - n)) by lia.
      exact Ek.
  - destruct (1 <? length (matchesOf blocks selector))%nat eqn:E1; [discriminate|].
    intros [= <-]. cbn [res_selector res_matches selected]. rewrite Enth.
    apply Nat.ltb_ge in E1. rewrite Em in E1 |- *. destruct rest; [|cbn in E1; lia].
    destruct (Hin 0%nat first) as [Hb Hm]; [rewrite Em; reflexivity|].
    repeat split; assumption.
Qed.

Lemma strict_resolution_selects_a_match_witness :
  exists resolved,
    resolveSelectorStrict (blocks (flattenedOf smallPage)) (nthBlock 1 (SString "end"))
                          "selector-json" = Returned resolved
    /\ id (selected resolved) = "a1".
Proof.
  destruct (resolveSelectorStrict (blocks (flattenedOf smallPage))
              (nthBlock 1 (SString "end")) "selector-json") as [resolved|e] eqn:E;
    [|vm_compute in E; discriminate E].
  exists resolved. split; [reflexivity|].
  destruct (strict_resolution_selects_a_match _ _ _ _ E) as (_ & _ & _ & _ & W).
  assert (Hs : res_selector resolved = mkNormalized (mkWhere None None None) FromEnd (Some 1))
    by (vm_compute in E; injection E as <-; reflexivity).
  rewrite Hs in W. cbn [nth from] in W. destruct W as [_ W].
  remember (selected resolved) as block eqn:Eb. clear Eb.
  vm_compute in W. injection W as <-. reflexivity.
Defined.

(** *** Planning a range *)

Lemma slice_elem {A} (items : list A) (start stop : Z) (x : A) :
  0 <= start ->
  x ∈ slice items start stop
  <-> exists i, start <= Z.of_nat i < stop /\ items !! i = Some x.
Proof.
  intros Hs. unfold slice. rewrite list_elem_of_lookup. split.
  - intros [k Hk]. apply lookup_take_Some in Hk. destruct Hk as [Hk Hlt].
    rewrite lookup_drop in Hk. exists (Z.to_nat start + k)%nat. split; [lia|exact Hk].
  - intros (i & Hi & Hx). exists (i - Z.to_nat start)%nat.
    apply lookup_take_Some. split; [|lia].
    rewrite lookup_drop. replace (Z.to_nat start + (i - Z.to_nat start))%nat with i by lia.
    exact Hx.
Qed.

(** X25. When planning returns a plan, the two selected blocks are
    siblings, the start block does not come after the end block, and the
    ids to delete are the ids of the blocks to delete.  If the siblings
    recorded for the parent are numbered by their position, the blocks to
    delete are exactly the siblings from the start block to the end block,
    each end included or not as asked; and unless the range starts at the
    first sibling, the replacement is inserted after the sibling just
    before the range. *)
Theorem plan_deletes_the_range
    (flattened : Flattened) (args : ReplaceArgs) (planned : Planned) :
  planRange flattened args = Returned planned ->
  let plan := the_plan planned in
  let replaceFrom := replaceFromOf args (plan_start plan) in
  let replaceTo := replaceToOf args (plan_end plan) in
  parent_id (plan_start plan) = plan_parent_id plan
  /\ parent_id (plan_end plan) = plan_parent_id plan
  /\ (sibling_index (plan_start plan) <= sibling_index (plan_end plan))%nat
  /\ siblings planned = default [] (siblingsByParent flattened !! plan_parent_id plan)
  /\ delete_ids plan = map id (blocksToDelete planned)
  /\ delete_count plan = length (blocksToDelete planned)
  /\ insert_count plan = length (newBlocks args)
  /\ ((forall i block, siblings planned !! i = Some block -> sibling_index block = i) ->
      (forall block,
         block ∈ blocksToDelete planned
         <-> block ∈ siblings planned
             /\ replaceFrom <= Z.of_nat (sibling_index block) <= replaceTo)
      /\ match insert_position plan with
         | PosStart => replaceFrom = 0
         | PosAfterBlock after =>
             exists before,
               before ∈ siblings planned
               /\ id before = after
               /\ Z.of_nat (sibling_index before) = replaceFrom - 1
         | PosEnd => False
         end).
Proof.
  unfold planRange.
  destruct (resolveSelectorStrict _ (startSelector args) _) as [start|e]; [|discriminate].
  destruct (resolveSelectorStrict _ (endSelector args) _) as [end_|e]; [|discriminate].
  destruct (negb _) eqn:Ep; [discriminate|].
  apply negb_false_iff, String.eqb_eq in Ep.
  destruct (sibling_index (selected end_) <? sibling_index (selected start))%nat eqn:Eo;
    [discriminate|].
  apply Nat.ltb_ge in Eo.
  set (sibs := default [] (siblingsByParent flattened !! parent_id (selected start))).
  set (from_ := replaceFromOf args (selected start)).
  set (to_ := replaceToOf args (selected end_)).
  assert (Hfrom : 0 <= from_) by (unfold from_, replaceFromOf; destruct (inclusiveStart args); lia).
  assert (Hrange : forall block,
            (forall i b, sibs !! i = Some b -> sibling_index b = i) ->
            block ∈ (if from_ <=? to_ then slice sibs from_ (to_ + 1) else [])
            <-> block ∈ sibs /\ from_ <= Z.of_nat (sibling_index block) <= to_).
  { intros block Hdense. destruct (from_ <=? to_) eqn:El.
    - rewrite slice_elem by exact Hfrom. split.
      + intros (i & Hi & Hx). rewrite (Hdense _ _ Hx).
        split; [eapply list_elem_of_lookup_2, Hx|lia].
      + intros [Hin Hi]. apply list_elem_of_lookup in Hin. destruct Hin as [i Hx].
        exists i. rewrite (Hdense _ _ Hx) in Hi. split; [lia|exact Hx].
    - apply Z.leb_gt in El. split; [intros Hin; inversion Hin|]. intros [_ Hi]. lia. }
  destruct (from_ =? 0) eqn:E0.
  - intros [= <-]. cbn. unfold toSelectionPayload. fold sibs from_ to_.
    repeat split; auto; try apply Hrange; auto.
    apply Z.eqb_eq, E0.
  - destruct (sibs !! Z.to_nat (from_ - 1)) as [before|] eqn:Eb; [|discriminate].
    intros [= <-]. cbn. unfold toSelectionPayload. fold sibs from_ to_.
    repeat split; auto; try apply Hrange; auto.
    exists before. split; [eapply list_elem_of_lookup_2, Eb|]. split; [reflexivity|].
    match goal with
    | Hd : forall i b, _ -> sibling_index b = i |- _ => rewrite (Hd _ _ Eb)
    end.
    apply Z.eqb_neq in E0. lia.
Qed.

Section More.
Context {R : Type} `{NotionClientAdapter R}.

(** *** Inserting *)

Lemma insertChunks_sent (parentId : string) (chunks : list (list NewBlock)) :
  forall (position : BlockInsertPosition) (insertedIds : list string)
         (st : RState R) o st',
    insertChunks parentId chunks position insertedIds st = Some (o, st') ->
    exists sent : list (AppendPayload * bool),
      mutations st' = mutations st ++ map (fun x => MAppend x.1 x.2) sent
      /\ Forall (fun x => ap_block_id x.1 = parentId) sent
      /\ map (fun x => ap_children x.1) sent `prefix_of` chunks
      /\ (forall x, head sent = Some x -> ap_position x.1 = position)
      /\ (isReturned o = true ->
          map (fun x => ap_children x.1) sent = chunks /\ Forall (fun x => x.2 = true) sent)
      /\ (forall error, o = Threw error ->
          exists done failed r,
            sent = done ++ [(failed, false)]
            /\ Forall (fun x => x.2 = true) done
            /\ appendBlockChildren failed r = (Threw error, remote st')).
Proof.
  induction chunks as [|children rest IH]; intros position insertedIds st o st'.
  - intros [= <- <-]. exists []. cbn. rewrite app_nil_r.
    repeat split; try constructor; try discriminate. reflexivity.
  - cbn [insertChunks]. unfold bind at 1. unfold callAppend.
    destruct (appendBlockChildren _ (remote st)) as [[response|e] r'] eqn:Ea.
    + cbn [isReturned]. intros Hrest.
      destruct (IH _ _ _ _ _ Hrest) as (sent & Hm & Hp & Hpre & Hhead & Hok & Hbad).
      cbn [mutations] in Hm.
      exists (({| ap_block_id := parentId; ap_children := children; ap_position := position |},
               true) :: sent).
      split; [rewrite Hm; cbn; rewrite <- app_assoc; reflexivity|].
      split; [constructor; [reflexivity|exact Hp]|].
      split; [cbn [map fst ap_children]; apply prefix_cons, Hpre|].
      split; [intros x [= <-]; reflexivity|].
      split.
      * intros Ho. destruct (Hok Ho) as [Hc Ht]. split.
        -- cbn [map fst ap_children]. rewrite Hc. reflexivity.
        -- constructor; [reflexivity|exact Ht].
      * intros error Ho. destruct (Hbad error Ho) as (done & failed & r & -> & Hd & Hf).
        exists (({| ap_block_id := parentId; ap_children := children;
                    ap_position := position |}, true) :: done), failed, r.
        split; [reflexivity|]. split; [constructor; [reflexivity|exact Hd]|exact Hf].
    + intros [= <- <-].
      exists [({| ap_block_id := parentId; ap_children := children; ap_position := position |},
               false)].
      split; [reflexivity|].
      split; [constructor; [reflexivity|constructor]|].
      split; [cbn [map fst ap_children]; apply prefix_cons, prefix_nil|].
      split; [intros x [= <-]; reflexivity|].
      split; [discriminate|].
      intros error [= <-].
      exists [], {| ap_block_id := parentId; ap_children := children;
                    ap_position := position |}, (remote st).
      split; [reflexivity|]. split; [constructor|exact Ea].
Qed.

(** X19. Nothing is sent for an empty list of blocks or for a dry run:
    [insertBlocks] and [appendBlocks] throw [invalid_input] when there is
    no block to insert, also in a dry run; a dry run with blocks returns
    the number of blocks and their types ("unknown" for a block without
    type).  In all these cases the remote service sees no request. *)
Theorem nothing_is_sent_for_empty_or_dry_run
    (parentId : string) (newBlocks : list NewBlock) (position : BlockInsertPosition)
    (dryRun : bool) (st : RState R) :
  (newBlocks = [] ->
   (exists error,
      insertBlocks parentId newBlocks position dryRun st = Some (Threw error, st)
      /\ appendBlocks parentId newBlocks dryRun st = Some (Threw error, st)
      /\ code error = Some "invalid_input"))
  /\ (newBlocks <> [] -> dryRun = true ->
      let would :=
        WouldInsert parentId position (length newBlocks)
          (map (fun block => default "unknown" (nb_type block)) newBlocks) in
      insertBlocks parentId newBlocks position dryRun st = Some (Returned would, st)
      /\ appendBlocks parentId newBlocks dryRun st
         = Some (Returned
                   (WouldAppend (WouldInsert parentId PosEnd (length newBlocks)
                                   (map (fun block => default "unknown" (nb_type block))
                                        newBlocks))
                                parentId (length newBlocks)), st)).
Proof.
  split.
  - intros ->. eexists. repeat split.
  - intros Hne ->. destruct newBlocks as [|block rest]; [congruence|]. split; reflexivity.
Qed.

(** X20. A run of [insertBlocks] that is not a dry run sends the blocks in
    order, in requests of at most 100 blocks to the given parent, the
    first at the given position.  Only the last request sent can have
    failed, and then its error is thrown as it is; when the call returns,
    every request has succeeded, the requests hold all the blocks, and the
    count reported is the number of blocks given. *)
Theorem insert_sends_blocks_in_order
    (parentId : string) (newBlocks : list NewBlock) (position : BlockInsertPosition)
    (st st' : RState R) (o : Outcome InsertResult) :
  newBlocks <> [] ->
  insertBlocks parentId newBlocks position false st = Some (o, st') ->
  exists sent : list (AppendPayload * bool),
    mutations st' = mutations st ++ map (fun x => MAppend x.1 x.2) sent
    /\ Forall (fun x => ap_block_id x.1 = parentId
                        /\ (0 < length (ap_children x.1) <= 100)%nat) sent
    /\ concat (map (fun x => ap_children x.1) sent) `prefix_of` newBlocks
    /\ (forall x, head sent = Some x -> ap_position x.1 = position)
    /\ (forall result, o = Returned result ->
        concat (map (fun x => ap_children x.1) sent) = newBlocks
        /\ Forall (fun x => x.2 = true) sent
        /\ exists ids, result = Inserted parentId position (length newBlocks) ids)
    /\ (forall error, o = Threw error ->
        exists done failed r,
          sent = done ++ [(failed, false)]
          /\ Forall (fun x => x.2 = true) done
          /\ appendBlockChildren failed r = (Threw error, remote st')).
Proof.
  intros Hne. unfold insertBlocks.
  destruct newBlocks as [|block rest] eqn:En; [congruence|]. rewrite <- En in *.
  clear En block rest Hne.
  unfold bind.
  destruct (insertChunks _ _ _ _ _) as [[[ids|error] st1]|] eqn:Ei; [| |discriminate];
    intros [= <- <-];
    destruct (insertChunks_sent _ _ _ _ _ _ _ Ei)
      as (sent & Hm & Hp & Hpre & Hhead & Hok & Hbad);
    exists sent.
  - split; [exact Hm|].
    destruct (Hok eq_refl) as [Hc Ht].
    pose proof (chunk_sizes (length newBlocks) newBlocks 100 ltac:(lia)) as Hs.
    rewrite <- Hc in Hs. rewrite Forall_map in Hs.
    split; [|split; [|split; [exact Hhead|split]]].
    + rewrite Forall_forall in *. intros x Hx. split; [apply Hp | apply Hs]; exact Hx.
    + rewrite Hc, chunk_concat by lia. reflexivity.
    + intros result [= <-]. rewrite Hc, chunk_concat by lia.
      split; [reflexivity|]. split; [exact Ht|]. eexists. reflexivity.
    + discriminate.
  - split; [exact Hm|].
    pose proof (chunk_sizes (length newBlocks) newBlocks 100 ltac:(lia)) as Hs.
    destruct Hpre as [k Hk].
    rewrite Hk in Hs. apply Forall_app in Hs. destruct Hs as [Hs _].
    rewrite Forall_map in Hs.
    split; [|split; [|split; [exact Hhead|split]]].
    + rewrite Forall_forall in *. intros x Hx. split; [apply Hp | apply Hs]; exact Hx.
    + exists (concat k). rewrite <- concat_app, <- Hk, chunk_concat by lia. reflexivity.
    + discriminate.
    + intros error' [= <-]. apply Hbad. reflexivity.
Qed.

(** X21. [appendBlocks] is [insertBlocks] at the end of the parent: it
    succeeds, fails and changes the remote service exactly as
    [insertBlocks] with position [end] does, and the count it reports for
    a run that is not a dry run is the number of blocks given, with the
    ids that [insertBlocks] collected. *)
Theorem append_is_insert_at_end
    (parentId : string) (newBlocks : list NewBlock) (st : RState R) :
  match insertBlocks parentId newBlocks PosEnd false st with
  | Some (Returned inserted, st') =>
      exists ids,
        inserted = Inserted parentId PosEnd (length newBlocks) ids
        /\ appendBlocks parentId newBlocks false st
           = Some (Returned (Appended parentId (length newBlocks) ids), st')
  | Some (Threw error, st') =>
      appendBlocks parentId newBlocks false st = Some (Threw error, st')
  | None => appendBlocks parentId newBlocks false st = None
  end.
Proof.
  unfold appendBlocks, bind.
  destruct (insertBlocks parentId newBlocks PosEnd false st) as [[[inserted|error] st']|] eqn:E;
    try reflexivity.
  unfold insertBlocks in E. destruct newBlocks as [|block rest]; [discriminate|].
  unfold bind in E.
  destruct (insertChunks _ _ _ _ _) as [[[ids|error] st1]|]; try discriminate.
  injection E as <- <-. exists ids. split; reflexivity.
Qed.

(** *** What the flattener returns, for any remote service *)

Lemma childBlocksFrom_elem (parentId : string) (rest : list (nat * RawBlock))
    (block : FlatBlock) :
  block ∈ childBlocksFrom parentId rest ->
  parent_id block = parentId /\ id block <> "".
Proof.
  unfold childBlocksFrom. rewrite list_elem_of_omap.
  intros ([i raw] & _ & Hsome). cbn [fst snd] in Hsome.
  destruct (raw_id raw) as [s|] eqn:Eid; [|discriminate].
  cbn [truthy] in Hsome. destruct (String.eqb s "") eqn:Es; [discriminate|].
  injection Hsome as <-. cbn. split; [reflexivity|].
  apply String.eqb_neq. exact Es.
Qed.

Lemma pushSiblings_cases (maxBlocks : Z) (parentId : string) (rest : list (nat * RawBlock)) :
  forall (blocks0 siblings0 : list FlatBlock),
    let new := renumber (length blocks0) (childBlocksFrom parentId rest) in
    match pushSiblings maxBlocks parentId rest blocks0 siblings0 with
    | Returned pushed =>
        pushed = (blocks0 ++ new, siblings0 ++ new)
        /\ (new = [] \/ Z.of_nat (length (blocks0 ++ new)) <= maxBlocks)
    | Threw error =>
        error = scanLimitError maxBlocks
        /\ maxBlocks < Z.of_nat (length (blocks0 ++ new))
    end.
Proof.
  induction rest as [|[i block] rest IH]; intros blocks0 siblings0 new; subst new.
  - cbn. rewrite !app_nil_r. auto.
  - cbn [pushSiblings]. rewrite childBlocksFrom_cons.
    destruct (truthy (raw_id block)) eqn:Et; [|apply IH].
    rewrite renumber_cons.
    destruct (maxBlocks <=? Z.of_nat (length blocks0)) eqn:Em.
    + apply Z.leb_le in Em. split; [reflexivity|].
      rewrite length_app. cbn [length]. lia.
    + apply Z.leb_gt in Em.
      specialize (IH (blocks0 ++ [toFlat parentId (default "" (raw_id block)) block i
                                         (length blocks0)])
                     (siblings0 ++ [toFlat parentId (default "" (raw_id block)) block i
                                           (length blocks0)])).
      cbv zeta in IH. rewrite length_app in IH. cbn [length] in IH.
      replace (length blocks0 + 1)%nat with (S (length blocks0)) in IH by lia.
      destruct (pushSiblings _ _ _ _ _) as [pushed|error].
      * destruct IH as [-> Hb]. rewrite <- !app_assoc. cbn [app].
        split; [reflexivity|]. right.
        destruct Hb as [Hn|Hb].
        -- rewrite Hn, length_app. cbn [length]. lia.
        -- rewrite <- app_assoc in Hb. exact Hb.
      * destruct IH as [-> Hb]. split; [reflexivity|].
        rewrite <- app_assoc in Hb. exact Hb.
Qed.

(** The invariant of the accumulators of [flattenScopeBlocks]. *)
Lemma tidy_push (maxBlocks : Z) (parentId : string) (acc : Flattened)
    (rest : list (nat * RawBlock)) :
  let new := renumber (length (blocks acc)) (childBlocksFrom parentId rest) in
  tidy maxBlocks acc ->
  (new = [] \/ Z.of_nat (length (blocks acc ++ new)) <= maxBlocks) ->
  tidy maxBlocks {| blocks := blocks acc ++ new;
                    siblingsByParent := <[parentId := new]> (siblingsByParent acc) |}.
Proof.
  intros new (Hn & Hb & Hs) Hnew. split; [|split].
  - intros i b Hi. cbn [blocks] in Hi.
    apply lookup_app_Some in Hi. destruct Hi as [Hi|[Hge Hi]]; [apply Hn, Hi|].
    destruct (renumber_lookup _ _ _ _ Hi) as (b0 & Hb0 & ->).
    apply list_elem_of_lookup_2, childBlocksFrom_elem in Hb0.
    cbn. split; [lia|apply Hb0].
  - cbn [blocks]. destruct Hnew as [->|Hle]; [rewrite app_nil_r; exact Hb|].
    right. exact Hle.
  - intros p sibs b. cbn [blocks siblingsByParent].
    destruct (decide (p = parentId)) as [->|Hne].
    + rewrite lookup_insert_eq. intros [= <-] Hin. split.
      * apply list_elem_of_lookup in Hin. destruct Hin as [k Hk].
        destruct (renumber_lookup _ _ _ _ Hk) as (b0 & Hb0 & ->).
        apply list_elem_of_lookup_2, childBlocksFrom_elem in Hb0. apply Hb0.
      * apply elem_of_app. right. exact Hin.
    + rewrite lookup_insert_ne by congruence. intros Hp Hin.
      destruct (Hs p sibs b Hp Hin) as [? ?]. split; [assumption|].
      apply elem_of_app. left. assumption.
Qed.

Lemma grows_refl (acc : Flattened) : grows acc acc.
Proof. split; [reflexivity|auto]. Qed.

Lemma grows_trans (a b c : Flattened) : grows a b -> grows b c -> grows a c.
Proof. intros [P1 K1] [P2 K2]. split; [etrans; eassumption|auto]. Qed.

Lemma forEach_tidy {A} (maxBlocks : Z) (items : list A)
    (body : A -> Flattened -> Prog (RState R) Flattened) :
  (forall x acc st acc' st',
      body x acc st = Some (Returned acc', st') ->
      tidy maxBlocks acc -> tidy maxBlocks acc' /\ grows acc acc') ->
  forall acc st acc' st',
    forEach items body acc st = Some (Returned acc', st') ->
    tidy maxBlocks acc -> tidy maxBlocks acc' /\ grows acc acc'.
Proof.
  intros Hbody. induction items as [|x rest IH]; intros acc st acc' st'.
  - intros [= <- <-] Ht. split; [exact Ht|apply grows_refl].
  - cbn [forEach]. unfold bind.
    destruct (body x acc st) as [[[acc1|e] st1]|] eqn:E; try discriminate.
    intros Hrest Ht. destruct (Hbody _ _ _ _ _ E Ht) as [Ht1 Hg1].
    destruct (IH _ _ _ _ Hrest Ht1) as [Ht2 Hg2].
    split; [exact Ht2|]. eapply grows_trans; eassumption.
Qed.

Lemma walk_tidy (pages : nat) (maxBlocks : Z) (fuel : nat) :
  forall parentId acc st acc' st',
    walk pages fuel maxBlocks parentId acc st = Some (Returned acc', st') ->
    tidy maxBlocks acc ->
    tidy maxBlocks acc' /\ grows acc acc' /\ is_Some (siblingsByParent acc' !! parentId).
Proof.
  induction fuel as [|fuel IH]; intros parentId acc st acc' st'; [discriminate|].
  cbn [walk]. unfold bind at 1.
  destruct (listDirectChildren pages parentId st) as [[[raw|e] st1]|]; try discriminate.
  unfold bind at 1. unfold liftOutcome.
  pose proof (pushSiblings_cases maxBlocks parentId (entries raw) (blocks acc) []) as Hp.
  cbv zeta in Hp.
  destruct (pushSiblings _ _ _ _ _) as [pushed|e]; [|discriminate].
  destruct Hp as [-> Hb]. cbn [fst snd app].
  intros Hfe Ht.
  pose proof (tidy_push maxBlocks parentId acc (entries raw) Ht Hb) as Ht1.
  eapply (forEach_tidy maxBlocks) in Hfe; [|clear Hfe|exact Ht1].
  - destruct Hfe as [Ht2 [Hpre Hkeys]]. split; [exact Ht2|]. split.
    + split.
      * etrans; [|exact Hpre]. cbn [blocks]. apply prefix_app_r. reflexivity.
      * intros p Hp. apply Hkeys. cbn [siblingsByParent].
        destruct (decide (p = parentId)) as [->|Hne].
        -- rewrite lookup_insert_eq. eauto.
        -- rewrite lookup_insert_ne by congruence. exact Hp.
    + apply Hkeys. cbn [siblingsByParent]. rewrite lookup_insert_eq. eauto.
  - intros x a s a' s'. destruct (has_children x).
    + intros Hw Hta. destruct (IH _ _ _ _ _ Hw Hta) as (? & ? & _). auto.
    + intros [= <- <-] Hta. split; [exact Hta|apply grows_refl].
Qed.

(** X22. Whatever the remote service answers, when [flattenScopeBlocks]
    returns, the [order_index] of every block is its position in the list
    and no block has an empty id; the list holds at most [maxBlocks]
    blocks; the blocks listed as siblings of a parent have that parent as
    [parent_id] and are in the list; and the siblings of the scope are
    listed. *)
Theorem flattened_blocks_are_numbered
    (fuel : nat) (scopeId : string) (maxBlocks : Z) (st st' : RState R)
    (flattened : Flattened) :
  flattenScopeBlocks fuel scopeId maxBlocks st = Some (Returned flattened, st') ->
  (forall i block, blocks flattened !! i = Some block ->
     order_index block = i /\ id block <> "")
  /\ (blocks flattened = [] \/ Z.of_nat (length (blocks flattened)) <= maxBlocks)
  /\ (forall parentId sibs block,
        siblingsByParent flattened !! parentId = Some sibs -> block ∈ sibs ->
        parent_id block = parentId /\ block ∈ blocks flattened)
  /\ is_Some (siblingsByParent flattened !! scopeId).
Proof.
  unfold flattenScopeBlocks. intros Hw.
  apply walk_tidy in Hw.
  - destruct Hw as ((Hn & Hb & Hs) & _ & Hk). auto.
  - split; [|split].
    + intros i b Hi. discriminate Hi.
    + left. reflexivity.
    + intros p sibs b Hp. cbn [siblingsByParent] in Hp.
      rewrite lookup_empty in Hp. discriminate.
Qed.

(** *** Reading and planning send nothing *)

(** X23. [selectBlocks] and a dry run of [replaceBlockRange] send no
    write request to the remote service, whatever they return or throw. *)
Theorem selection_and_dry_run_send_no_write
    (fuel : nat) (args : ReplaceArgs) (selector : BlockSelector) (st : RState R) :
  (forall o st',
     selectBlocks fuel (scopeId args) selector (maxBlocks args) st = Some (o, st') ->
     mutations st' = mutations st)
  /\ (dryRun args = true ->
      forall o st',
        replaceBlockRange fuel args st = Some (o, st') -> mutations st' = mutations st).
Proof.
  split.
  - intros o st'. unfold selectBlocks, bind, liftOutcome.
    destruct (normalizeSelector _ _) as [normalized|e]; [|intros [= <- <-]; reflexivity].
    destruct (flattenScopeBlocks _ _ _ _) as [[[flattened|e] st1]|] eqn:Ef; try discriminate.
    + intros [= <- <-]. apply (flattenScopeBlocks_mutations _ _ _ _ _ _ Ef).
    + intros [= <- <-]. apply (flattenScopeBlocks_mutations _ _ _ _ _ _ Ef).
  - intros Hdry o st'. unfold replaceBlockRange, bind, liftOutcome. rewrite Hdry.
    destruct (flattenScopeBlocks _ _ _ _) as [[[flattened|e] st1]|] eqn:Ef; try discriminate.
    + destruct (planRange flattened args) as [planned|e]; intros [= <- <-];
        apply (flattenScopeBlocks_mutations _ _ _ _ _ _ Ef).
    + intros [= <- <-]. apply (flattenScopeBlocks_mutations _ _ _ _ _ _ Ef).
Qed.

(** *** Deleting *)

Lemma deleteEach_sent (blockIds : list string) :
  forall (deletedIds : list string) (st : RState R) o st',
    deleteEach blockIds deletedIds st = Some (o, st') ->
    exists sent : list (string * bool),
      mutations st' = mutations st ++ map (fun x => MDelete x.1 x.2) sent
      /\ map fst sent `prefix_of` blockIds
      /\ (forall ids, o = Returned ids ->
          ids = deletedIds ++ blockIds
          /\ sent = map (fun b => (b, true)) blockIds).
Proof.
  induction blockIds as [|blockId rest IH]; intros deletedIds st o st'.
  - intros [= <- <-]. exists []. cbn. rewrite !app_nil_r.
    split; [reflexivity|]. split; [reflexivity|]. intros ids [= <-]. auto.
  - cbn [deleteEach]. unfold bind at 1. unfold callDelete.
    destruct (deleteBlock blockId (remote st)) as [[[]|e] r'].
    + cbn [isReturned]. intros Hrest.
      destruct (IH _ _ _ _ Hrest) as (sent & Hm & Hpre & Hok). cbn [mutations] in Hm.
      exists ((blockId, true) :: sent).
      split; [rewrite Hm; cbn; rewrite <- app_assoc; reflexivity|].
      split; [cbn [map fst]; apply prefix_cons, Hpre|].
      intros ids Ho. destruct (Hok ids Ho) as [-> ->].
      rewrite <- app_assoc. split; reflexivity.
    + intros [= <- <-]. exists [(blockId, false)].
      split; [reflexivity|]. split; [cbn [map fst]; apply prefix_cons, prefix_nil|].
      discriminate.
Qed.

(** X27. When [deleteBlocks] returns, it has asked the remote service to
    delete each of the given blocks once, in the order given, every
    request has succeeded, and the result lists exactly the given ids. *)
Theorem delete_blocks_reports_every_id
    (blockIds : list string) (st st' : RState R) (result : DeleteResult) :
  deleteBlocks blockIds st = Some (Returned result, st') ->
  deleted_ids result = blockIds
  /\ deleted_count result = length blockIds
  /\ mutations st' = mutations st ++ map (fun b => MDelete b true) blockIds
  /\ confirmedDeleted (mutations st') = confirmedDeleted (mutations st) ++ blockIds.
Proof.
  unfold deleteBlocks, bind.
  destruct (deleteEach blockIds [] st) as [[[ids|e] st1]|] eqn:Ed; try discriminate.
  intros [= <- <-]. cbn [deleted_ids deleted_count].
  destruct (deleteEach_sent _ _ _ _ _ Ed) as (sent & Hm & _ & Hok).
  destruct (Hok ids eq_refl) as [-> ->]. cbn [app].
  rewrite Hm, map_map. cbn [fst snd].
  repeat split.
  unfold confirmedDeleted. rewrite flat_map_app. f_equal.
  clear. induction blockIds as [|b l IH]; [reflexivity|].
  cbn [map flat_map app]. rewrite IH. reflexivity.
Qed.

(** *** Replacing a range *)

(** X26. Whatever happens in [replaceBlockRange], the write requests it
    sends are insertions followed by deletions.  A deletion is sent only
    after every insertion has succeeded, so a failed insertion leaves the
    old blocks in place; and the insertions carry blocks of the
    replacement, in order. *)
Theorem replace_inserts_before_deleting
    (fuel : nat) (args : ReplaceArgs) (st st' : RState R) (o : Outcome ReplaceResult) :
  replaceBlockRange fuel args st = Some (o, st') ->
  exists (appends : list (AppendPayload * bool)) (deletes : list (string * bool)),
    mutations st'
    = mutations st ++ map (fun x => MAppend x.1 x.2) appends
                   ++ map (fun x => MDelete x.1 x.2) deletes
    /\ (Forall (fun x => x.2 = true) appends \/ deletes = [])
    /\ concat (map (fun x => ap_children x.1) appends) `prefix_of` newBlocks args
    /\ (forall result, o = Returned result ->
        Forall (fun x => x.2 = true) appends /\ Forall (fun x => x.2 = true) deletes).
Proof.
  assert (Hnone : forall s1 : RState R,
            mutations s1 = mutations st ->
            exists (appends : list (AppendPayload * bool)) (deletes : list (string * bool)),
              mutations s1
              = mutations st ++ map (fun x => MAppend x.1 x.2) appends
                             ++ map (fun x => MDelete x.1 x.2) deletes
              /\ (Forall (fun x => x.2 = true) appends \/ deletes = [])
              /\ concat (map (fun x => ap_children x.1) appends) `prefix_of` newBlocks args
              /\ Forall (fun x => x.2 = true) appends /\ Forall (fun x => x.2 = true) deletes).
  { intros s1 Hs. exists [], []. cbn. rewrite app_nil_r.
    repeat split; auto using prefix_nil. }
  unfold replaceBlockRange. unfold bind at 1.
  destruct (flattenScopeBlocks _ _ _ _) as [[[flattened|e] st1]|] eqn:Ef; try discriminate.
  2:{ intros [= <- <-]. apply flattenScopeBlocks_mutations in Ef.
      destruct (Hnone _ Ef) as (a & d & ? & ? & ? & ? & ?). exists a, d.
      repeat split; auto. }
  apply flattenScopeBlocks_mutations in Ef.
  unfold bind at 1. unfold liftOutcome.
  destruct (planRange flattened args) as [planned|e].
  2:{ intros [= <- <-]. destruct (Hnone _ Ef) as (a & d & ? & ? & ? & ? & ?). exists a, d.
      repeat split; auto. }
  destruct (dryRun args).
  { intros [= <- <-]. destruct (Hnone _ Ef) as (a & d & ? & ? & ? & ? & ?). exists a, d.
    repeat split; auto. }
  unfold executePlan. unfold bind at 1.
  destruct (listDirectChildren _ _ _) as [[[raw|e] st2]|] eqn:El; try discriminate.
  2:{ intros [= <- <-]. apply listDirectChildren_mutations in El.
      destruct (Hnone st2 ltac:(congruence)) as (a & d & ? & ? & ? & ? & ?). exists a, d.
      repeat split; auto. }
  apply listDirectChildren_mutations in El.
  destruct (negb _).
  { intros [= <- <-].
    destruct (Hnone st2 ltac:(congruence)) as (a & d & ? & ? & ? & ? & ?). exists a, d.
    repeat split; auto. }
  unfold bind at 1.
  assert (Hins : forall oi st3,
            insertReplacement args (the_plan planned) st2 = Some (oi, st3) ->
            exists appends : list (AppendPayload * bool),
              mutations st3 = mutations st2 ++ map (fun x => MAppend x.1 x.2) appends
              /\ concat (map (fun x => ap_children x.1) appends) `prefix_of` newBlocks args
              /\ (isReturned oi = true -> Forall (fun x => x.2 = true) appends)).
  { intros oi st3. unfold insertReplacement.
    destruct (newBlocks args) as [|block rest] eqn:En.
    - intros [= <- <-]. exists []. cbn. rewrite app_nil_r.
      repeat split; auto using prefix_nil.
    - rewrite <- En. unfold insertBlocks. rewrite En. rewrite <- En. unfold bind.
      destruct (insertChunks _ _ _ _ _) as [[[ids|e] st4]|] eqn:Ei; try discriminate;
        intros [= <- <-];
        destruct (insertChunks_sent _ _ _ _ _ _ _ Ei) as (sent & Hm & _ & Hpre & _ & Hok & _);
        exists sent; (split; [exact Hm|]);
        (split; [apply (chunk_prefix _ 100); [lia|exact Hpre]|]).
      + intros _. apply (Hok eq_refl).
      + discriminate. }
  destruct (insertReplacement _ _ _) as [[[inserted|e] st3]|] eqn:Ei; try discriminate.
  - destruct (Hins _ _ eq_refl) as (appends & Hm3 & Hpre & Ht).
    specialize (Ht eq_refl).
    unfold bind at 1.
    destruct (deleteEach _ _ _) as [[[ids|e] st4]|] eqn:Ed; try discriminate.
    + intros [= <- <-].
      destruct (deleteEach_sent _ _ _ _ _ Ed) as (sent & Hm4 & _ & Hok).
      destruct (Hok ids eq_refl) as [_ ->].
      exists appends, (map (fun b => (b, true)) (map id (blocksToDelete planned))).
      split; [rewrite Hm4, Hm3, El, Ef, <- !app_assoc; reflexivity|].
      split; [left; exact Ht|]. split; [exact Hpre|].
      intros result _. split; [exact Ht|].
      apply Forall_map. apply Forall_forall. reflexivity.
    + intros [= <- <-].
      destruct (deleteEach_sent _ _ _ _ _ Ed) as (sent & Hm4 & _ & _).
      exists appends, sent.
      split; [rewrite Hm4, Hm3, El, Ef, <- !app_assoc; reflexivity|].
      split; [left; exact Ht|]. split; [exact Hpre|]. discriminate.
  - destruct (Hins _ _ eq_refl) as (appends & Hm3 & Hpre & _).
    intros [= <- <-]. exists appends, [].
    split; [rewrite Hm3, El, Ef; cbn; rewrite app_nil_r; reflexivity|].
    split; [right; reflexivity|]. split; [exact Hpre|]. discriminate.
Qed.

End More.

(** *** The theorems above on the memory remote *)

Lemma nothing_is_sent_for_empty_or_dry_run_witness :
  insertBlocks "page" [note] PosEnd true (memoryOf flatPage)
  = Some (Returned (WouldInsert "page" PosEnd 1 ["paragraph"]), memoryOf flatPage).
Proof.
  destruct (nothing_is_sent_for_empty_or_dry_run "page" [note] PosEnd true (memoryOf flatPage))
    as (_ & W).
  destruct W as (W & _); [discriminate|reflexivity|exact W].
Defined.

Lemma insert_sends_blocks_in_order_witness :
  exists sent : list (AppendPayload * bool),
    [MAppend noteRequest true] = map (fun x => MAppend x.1 x.2) sent
    /\ concat (map (fun x => ap_children x.1) sent) = [note].
Proof.
  destruct (insert_sends_blocks_in_order "page" [note] PosEnd (memoryOf flatPage)
              (memoryAfter flatPage 0 [MAppend noteRequest true])
              (Returned (Inserted "page" PosEnd 1 ["new-0"])))
    as (sent & Hm & _ & _ & _ & Hok & _).
  - discriminate.
  - by_vm.
  - exists sent. split; [exact Hm|]. apply (Hok _ eq_refl).
Defined.

Lemma flattened_blocks_are_numbered_witness :
  exists block,
    blocks (flattenedOf smallPage) !! 2%nat = Some block
    /\ order_index block = 2%nat
    /\ id block <> "".
Proof.
  destruct (flattened_blocks_are_numbered 5 "page" 100 (memoryOf smallPage)
              (memoryAfter smallPage 2 []) (flattenedOf smallPage)) as (W & _).
  - by_vm.
  - destruct (blocks (flattenedOf smallPage) !! 2%nat) as [block|] eqn:E;
      [|vm_compute in E; discriminate E].
    exists block. split; [reflexivity|]. apply (W _ _ E).
Defined.

Lemma selection_and_dry_run_send_no_write_witness :
  exists o st',
    replaceBlockRange 5 (rangeArgs "Alpha" "Beta" true true true) (memoryOf flatPage)
      = Some (o, st')
    /\ mutations st' = [].
Proof.
  destruct (replaceBlockRange 5 (rangeArgs "Alpha" "Beta" true true true) (memoryOf flatPage))
    as [[o st']|] eqn:E; [|vm_compute in E; discriminate E].
  destruct (selection_and_dry_run_send_no_write 5 (rangeArgs "Alpha" "Beta" true true true)
              anyBlock (memoryOf flatPage)) as (_ & W).
  exists o, st'. split; [reflexivity|]. exact (W eq_refl _ _ E).
Defined.

Lemma plan_deletes_the_range_witness :
  exists planned,
    planRange (flattenedOf flatPage) (rangeArgs "Alpha" "Beta" false true true)
      = Returned planned
    /\ (forall block,
          block ∈ blocksToDelete planned
          <-> block ∈ siblings planned /\ 1 <= Z.of_nat (sibling_index block) <= 1).
Proof.
  destruct (planRange (flattenedOf flatPage) (rangeArgs "Alpha" "Beta" false true true))
    as [planned|e] eqn:E; [|vm_compute in E; discriminate E].
  exists planned. split; [reflexivity|].
  assert (Hs : siblings planned = blocks (flattenedOf flatPage))
    by (vm_compute in E; injection E as <-; vm_compute; reflexivity).
  assert (Hf : replaceFromOf (rangeArgs "Alpha" "Beta" false true true)
                 (plan_start (the_plan planned)) = 1)
    by (vm_compute in E; injection E as <-; reflexivity).
  assert (Ht : replaceToOf (rangeArgs "Alpha" "Beta" false true true)
                 (plan_end (the_plan planned)) = 1)
    by (vm_compute in E; injection E as <-; reflexivity).
  destruct (plan_deletes_the_range _ _ _ E) as (_ & _ & _ & _ & _ & _ & _ & W).
  rewrite Hf, Ht in W. apply W.
  rewrite Hs. intros [|[|i]] block; vm_compute; intros [= <-]; reflexivity.
Defined.

Lemma replace_inserts_before_deleting_witness :
  exists o st' (appends : list (AppendPayload * bool)) (deletes : list (string * bool)),
    replaceBlockRange 5 (rangeArgs "Alpha" "Beta" true true false) (memoryOf flatPage)
      = Some (o, st')
    /\ mutations st' = map (fun x => MAppend x.1 x.2) appends
                       ++ map (fun x => MDelete x.1 x.2) deletes
    /\ (Forall (fun x => x.2 = true) appends \/ deletes = []).
Proof.
  destruct (replaceBlockRange 5 (rangeArgs "Alpha" "Beta" true true false) (memoryOf flatPage))
    as [[o st']|] eqn:E; [|vm_compute in E; discriminate E].
  destruct (replace_inserts_before_deleting _ _ _ _ _ E) as (appends & deletes & Hm & Hor & _).
  exists o, st', appends, deletes. split; [reflexivity|]. split; [exact Hm|exact Hor].
Defined.

Lemma delete_blocks_reports_every_id_witness :
  exists result st',
    deleteBlocks ["a"; "b"] (memoryOf flatPage) = Some (Returned result, st')
    /\ deleted_ids result = ["a"; "b"]
    /\ mutations st' = [MDelete "a" true; MDelete "b" true].
Proof.
  destruct (deleteBlocks ["a"; "b"] (memoryOf flatPage)) as [[[result|e] st']|] eqn:E;
    try (vm_compute in E; discriminate E).
  destruct (delete_blocks_reports_every_id _ _ _ _ E) as (Hi & _ & Hm & _).
  exists result, st'. split; [reflexivity|]. split; [exact Hi|exact Hm].
Defined.

End RepositoryMore.

(* ===================================================================== *)
(** ** Reading a block tree and retrying a page mutation                    *)
(* ===================================================================== *)

Module ReadingMore.
Import Repository Shape Reading PageMutation Demo Trees RepositoryFacts.

(** *** Sizes and levels *)

Lemma nodeSize_children (payload : Payload) (children : list Node) :
  nodeSize (mkNode payload (Some children)) = S (totalSize children).
Proof.
  reflexivity.
Qed.

Lemma nodeLevels_children (payload : Payload) (children : list Node) :
  nodeLevels (mkNode payload (Some children)) = S (levels children).
Proof.
  reflexivity.
Qed.

Lemma totalSize_app (l1 l2 : list Node) :
  totalSize (l1 ++ l2) = (totalSize l1 + totalSize l2)%nat.
Proof. induction l1 as [|x l1 IH]; [reflexivity|]. cbn [app totalSize]. rewrite IH. lia. Qed.

Lemma levels_app (l1 l2 : list Node) :
  levels (l1 ++ l2) = Nat.max (levels l1) (levels l2).
Proof. induction l1 as [|x l1 IH]; [reflexivity|]. cbn [app levels]. rewrite IH. lia. Qed.

Section More.
Context {R : Type} `{NotionClientAdapter R}.

Lemma advances_refl (maxBlocks : Z) (c : Counting R) : advances maxBlocks c c.
Proof. unfold advances. repeat split; auto. lia. Qed.

Lemma advances_trans (maxBlocks : Z) (c1 c2 c3 : Counting R) :
  advances maxBlocks c1 c2 -> advances maxBlocks c2 c3 -> advances maxBlocks c1 c3.
Proof.
  unfold advances. intros (A1 & B1 & M1 & T1) (A2 & B2 & M2 & T2).
  split; [lia|]. split; [lia|]. split; [congruence|].
  intros Ht. destruct (T2 Ht) as [Ht2|Hm]; [|right; exact Hm].
  destruct (T1 Ht2) as [?|?]; [left; assumption|right; lia].
Qed.

Lemma collectPage_collected
    (recurse : string -> Prog (Counting R) (list Node))
    (descend : bool) (maxBlocks : Z) (view : View) (depth : nat) :
  (forall blockId c out c',
      recurse blockId c = Some (out, c') -> collected maxBlocks depth [] c out c') ->
  forall items results c out c',
    collectPage recurse descend maxBlocks view items results c = Some (out, c') ->
    collected maxBlocks (if descend then S depth else 1%nat) results c out c'.
Proof.
  intros Hrec. induction items as [|rawBlock rest IH]; intros results c out c'.
  - intros [= <- <-]. split; [apply advances_refl|].
    intros nodes [= <-]. split; lia.
  - cbn [collectPage]. unfold bind at 1. unfold get.
    destruct (maxBlocks <=? count c) eqn:Elim.
    + apply Z.leb_le in Elim. unfold bind, modify, ret. intros [= <- <-]. split.
      * unfold advances, setTruncated. cbn. repeat split; auto; lia.
      * intros nodes [= <-]. cbn. split; lia.
    + apply Z.leb_gt in Elim.
      destruct rawBlock as [block|]; [|apply IH].
      unfold bind at 1. unfold modify at 1. cbv beta iota.
      assert (Hone : advances maxBlocks c (countOne c))
        by (unfold advances, countOne; cbn; repeat split; auto; lia).
      unfold bind at 1.
      destruct (descend && raw_has_children block) eqn:Ed.
      * destruct (raw_id block) as [blockId|].
        -- unfold bind at 1.
           destruct (recurse blockId (countOne c)) as [[[children|e] c1]|] eqn:Er;
             try discriminate.
           ++ destruct (Hrec _ _ _ _ Er) as [Ha Hn].
              destruct (Hn children eq_refl) as [Hsize Hlev].
              unfold ret at 1. intros Hrest. destruct (IH _ _ _ _ Hrest) as [Ha2 Hn2].
              split; [eapply advances_trans; [|exact Ha2];
                      eapply advances_trans; eassumption|].
              intros nodes Hout. destruct (Hn2 nodes Hout) as [Hs2 Hl2].
              rewrite totalSize_app in Hs2. rewrite levels_app in Hl2.
              cbn [totalSize levels] in Hs2, Hl2.
              rewrite nodeSize_children in Hs2. rewrite nodeLevels_children in Hl2.
              apply andb_prop in Ed. destruct Ed as [-> _].
              cbn [totalSize levels] in Hsize, Hlev.
              unfold countOne in Hsize. cbn [count] in Hsize.
              split; lia.
           ++ intros [= <- <-]. destruct (Hrec _ _ _ _ Er) as [Ha _].
              split; [eapply advances_trans; eassumption|discriminate].
        -- unfold ret at 1. intros Hrest. destruct (IH _ _ _ _ Hrest) as [Ha2 Hn2].
           split; [eapply advances_trans; eassumption|].
           intros nodes Hout. destruct (Hn2 nodes Hout) as [Hs2 Hl2].
           rewrite totalSize_app in Hs2. rewrite levels_app in Hl2.
           cbn [totalSize levels nodeSize nodeLevels] in Hs2, Hl2.
           unfold countOne in Hs2. cbn [count] in Hs2.
           split; [lia|]. destruct descend; lia.
      * unfold ret at 1. intros Hrest. destruct (IH _ _ _ _ Hrest) as [Ha2 Hn2].
        split; [eapply advances_trans; eassumption|].
        intros nodes Hout. destruct (Hn2 nodes Hout) as [Hs2 Hl2].
        rewrite totalSize_app in Hs2. rewrite levels_app in Hl2.
        cbn [totalSize levels nodeSize nodeLevels] in Hs2, Hl2.
        unfold countOne in Hs2. cbn [count] in Hs2.
        split; [lia|]. destruct descend; lia.
Qed.

Lemma onNet_callList (payload : ListPayload) (c : Counting R) out c' :
  onNet (callList payload) c = Some (out, c') ->
  count c' = count c /\ truncated c' = truncated c
  /\ mutations (net c') = mutations (net c).
Proof.
  unfold onNet, callList. destruct (listBlockChildren _ _) as [o r'].
  intros [= <- <-]. cbn. auto.
Qed.

Lemma collectLoop_collected (maxBlocks : Z) (view : View) (fuel : nat) :
  forall blockId depth cursor results c out c',
    collectLoop fuel blockId depth maxBlocks view cursor results c = Some (out, c') ->
    collected maxBlocks (Z.to_nat (Z.max 1 depth)) results c out c'.
Proof.
  induction fuel as [|fuel IH]; intros blockId depth cursor results c out c'; [discriminate|].
  cbn [collectLoop]. unfold bind at 1. unfold get at 1.
  destruct (count c <? maxBlocks) eqn:Elim.
  2:{ intros [= <- <-]. split; [apply advances_refl|]. intros nodes [= <-]. split; lia. }
  apply Z.ltb_lt in Elim.
  unfold bind at 1.
  destruct (onNet _ c) as [[[response|e] c1]|] eqn:El; try discriminate.
  2:{ intros [= <- <-]. apply onNet_callList in El. destruct El as (Hc & Ht & Hm).
      split; [|discriminate].
      unfold advances. rewrite Hc, Ht, Hm. repeat split; auto; lia. }
  apply onNet_callList in El. destruct El as (Hc & Ht & Hm).
  assert (H01 : advances maxBlocks c c1).
  { unfold advances. rewrite Hc, Ht, Hm. repeat split; auto; lia. }
  unfold bind at 1.
  destruct (collectPage _ _ _ _ _ _ c1) as [[[results'|e] c2]|] eqn:Ep; try discriminate.
  2:{ intros [= <- <-].
      apply (collectPage_collected _ _ _ _ (Z.to_nat (Z.max 1 (depth - 1)))) in Ep.
      - destruct Ep as [Ha _]. split; [eapply advances_trans; eassumption|discriminate].
      - intros b x o x'. apply IH. }
  apply (collectPage_collected _ _ _ _ (Z.to_nat (Z.max 1 (depth - 1)))) in Ep;
    [|intros b x o x'; apply IH].
  destruct Ep as [H12 Hn]. destruct (Hn results' eq_refl) as [Hsize Hlev].
  assert (Hlev' : (levels results' <= Nat.max (levels results) (Z.to_nat (Z.max 1 depth)))%nat).
  { destruct (1 <? depth) eqn:Ed; [apply Z.ltb_lt in Ed|apply Z.ltb_ge in Ed]; lia. }
  assert (H02 : advances maxBlocks c c2) by (eapply advances_trans; eassumption).
  unfold bind at 1. unfold get at 1.
  destruct (maxBlocks <=? count c2) eqn:Efull.
  - apply Z.leb_le in Efull.
    destruct (lr_has_more response); unfold bind, modify, ret; intros [= <- <-].
    + split.
      * eapply advances_trans; [exact H02|].
        unfold advances, setTruncated. cbn. repeat split; auto; lia.
      * intros nodes [= <-]. cbn [count setTruncated]. rewrite Hc in Hsize. split; lia.
    + split; [exact H02|]. intros nodes [= <-]. rewrite Hc in Hsize. split; lia.
  - destruct (_ || _).
    + intros [= <- <-]. split; [exact H02|].
      intros nodes [= <-]. rewrite Hc in Hsize. split; lia.
    + intros Hrest. destruct (IH _ _ _ _ _ _ _ Hrest) as [H23 Hn3].
      split; [eapply advances_trans; eassumption|].
      intros nodes Hout. destruct (Hn3 nodes Hout) as [Hs3 Hl3].
      rewrite Hc in Hsize. split; lia.
Qed.

Lemma collectLoop_full (maxBlocks : Z) (view : View) (fuel : nat)
    (blockId : string) (depth : Z) (cursor : option string) (results : list Node)
    (c : Counting R) :
  maxBlocks <= count c ->
  collectLoop (S fuel) blockId depth maxBlocks view cursor results c
  = Some (Returned results, c).
Proof.
  intros Hfull. cbn [collectLoop]. unfold bind, get.
  replace (count c <? maxBlocks) with false by (symmetry; apply Z.ltb_ge; exact Hfull).
  reflexivity.
Qed.

(** X28. Whatever the remote service answers, when [getBlocks] returns,
    the number of blocks it reports is the number of blocks it returns,
    nested ones included, and is at most [maxBlocks]; the blocks are
    nested at most [depth] levels deep (one level for a [depth] below 1);
    [truncated] is set only when exactly [maxBlocks] blocks are returned;
    and no write request has been sent. *)
Theorem get_blocks_respects_the_limit
    (renderBlocksToMarkdown : list Node -> Z -> string)
    (fuel : nat) (pageOrBlockId : string) (maxBlocks depth : Z) (view : BlockReadFormat)
    (st st' : RState R) (result : BlocksResult) :
  getBlocks renderBlocksToMarkdown fuel pageOrBlockId maxBlocks depth view st
    = Some (Returned result, st') ->
  0 <= returned_blocks result <= Z.max 0 maxBlocks
  /\ (gb_truncated result = true -> returned_blocks result = maxBlocks)
  /\ (forall nodes,
        gb_blocks result = Some nodes ->
        Z.of_nat (totalSize nodes) = returned_blocks result
        /\ (levels nodes <= Z.to_nat (Z.max 1 depth))%nat)
  /\ (gb_blocks result = None <-> view = FormatMarkdown)
  /\ mutations st' = mutations st.
Proof.
  unfold getBlocks, collectChildren.
  set (internalView := match view with FormatCompact => Compact | _ => Full end).
  set (c0 := mkCounting st 0 false).
  destruct (collectLoop _ _ _ _ _ _ _ c0) as [[[nodes|e] c]|] eqn:E; try discriminate.
  assert (Hfacts : 0 <= count c <= Z.max 0 maxBlocks
                   /\ (truncated c = true -> count c = maxBlocks)
                   /\ Z.of_nat (totalSize nodes) = count c
                   /\ (levels nodes <= Z.to_nat (Z.max 1 depth))%nat
                   /\ mutations (net c) = mutations st).
  { destruct (Z.le_gt_cases maxBlocks 0) as [Hle|Hgt].
    - destruct fuel as [|fuel]; [discriminate|].
      rewrite collectLoop_full in E by exact Hle. injection E as <- <-.
      cbn. repeat split; try lia; discriminate.
    - destruct (collectLoop_collected _ _ _ _ _ _ _ _ _ _ E) as [(A & B & M & T) Hn].
      destruct (Hn nodes eq_refl) as [Hs Hl]. cbn in A, B, M, T, Hs, Hl.
      split; [lia|]. split; [|split; [lia|split; [lia|exact M]]].
      intros Ht. destruct (T Ht) as [?|?]; [discriminate|lia]. }
  destruct Hfacts as (Hc & Ht & Hs & Hl & Hm).
  intros [= <- <-].
  destruct view; cbn;
    (split; [exact Hc|]); (split; [exact Ht|]);
    (split; [intros nodes' [= <-] || intros nodes' [=]; auto|]);
    (split; [|exact Hm]); split; congruence.
Qed.

(** *** One page of results *)

Lemma collectPage_leaves
    (recurse : string -> Prog (Counting R) (list Node)) (maxBlocks : Z) (view : View) :
  forall (children : list RawBlock) (results : list Node) (c : Counting R),
    count c <= maxBlocks ->
    collectPage recurse false maxBlocks view (map Some children) results c
    = Some (Returned (results
                      ++ map (leaf view) (take (Z.to_nat (maxBlocks - count c)) children)),
            mkCounting (net c)
                       (Z.min maxBlocks (count c + Z.of_nat (length children)))
                       (truncated c || (maxBlocks <? count c + Z.of_nat (length children)))).
Proof.
  induction children as [|block rest IH]; intros results c Hle.
  - cbn [map collectPage length]. rewrite take_nil. cbn [map]. rewrite app_nil_r.
    replace (Z.min maxBlocks (count c + Z.of_nat 0)) with (count c) by lia.
    replace (maxBlocks <? count c + Z.of_nat 0) with false by (symmetry; apply Z.ltb_ge; lia).
    rewrite orb_false_r. destruct c; reflexivity.
  - cbn [map collectPage]. unfold bind at 1. unfold get.
    destruct (maxBlocks <=? count c) eqn:Elim.
    + apply Z.leb_le in Elim. unfold bind, modify, ret, setTruncated.
      replace (Z.to_nat (maxBlocks - count c)) with 0%nat by lia.
      cbn [take map length]. rewrite app_nil_r.
      replace (Z.min maxBlocks (count c + Z.of_nat (S (length rest)))) with (count c) by lia.
      replace (maxBlocks <? count c + Z.of_nat (S (length rest))) with true
        by (symmetry; apply Z.ltb_lt; lia).
      rewrite orb_true_r. reflexivity.
    + apply Z.leb_gt in Elim.
      unfold bind at 1. unfold modify at 1. cbv beta iota.
      cbn [andb]. unfold bind at 1. unfold ret at 1.
      rewrite IH by (unfold countOne; cbn [count]; lia).
      unfold countOne. cbn [count net truncated length].
      replace (Z.to_nat (maxBlocks - count c))
        with (S (Z.to_nat (maxBlocks - (count c + 1)))) by lia.
      cbn [take map]. rewrite <- app_assoc. cbn [app]. unfold leaf at 2.
      replace (count c + 1 + Z.of_nat (length rest))
        with (count c + Z.of_nat (S (length rest))) by lia.
      reflexivity.
Qed.

(** X29. One page of results, without descent ([depth] at most 1): when
    the first listing returns [children] and either says there are no more
    or holds at least [maxBlocks] blocks, [getBlocks] lists once and
    returns the first [maxBlocks] of them, without [children] of their
    own.  [truncated] says whether something was left out: blocks of the
    page, or further pages when the page holds exactly [maxBlocks]. *)
Theorem get_blocks_first_page
    (renderBlocksToMarkdown : list Node -> Z -> string)
    (fuel : nat) (pageOrBlockId : string) (maxBlocks depth : Z) (view : BlockReadFormat)
    (st : RState R) (response : ListResponse) (children : list RawBlock) (r' : R) :
  0 < maxBlocks ->
  depth <= 1 ->
  listBlockChildren {| lp_block_id := pageOrBlockId;
                       lp_page_size := 100;
                       lp_start_cursor := None |} (remote st)
    = (Returned response, r') ->
  lr_results response = Some (map Some children) ->
  lr_has_more response = false \/ maxBlocks <= Z.of_nat (length children) ->
  let nodes := map (leaf (internalViewOf view)) (take (Z.to_nat maxBlocks) children) in
  exists result,
    getBlocks renderBlocksToMarkdown (S fuel) pageOrBlockId maxBlocks depth view st
      = Some (Returned result, mkRState r' (mutations st))
    /\ returned_blocks result = Z.min maxBlocks (Z.of_nat (length children))
    /\ gb_truncated result
       = (maxBlocks <? Z.of_nat (length children))
         || ((maxBlocks =? Z.of_nat (length children)) && lr_has_more response)
    /\ gb_blocks result = (if view is FormatMarkdown then None else Some nodes)
    /\ gb_content_markdown result
       = (if view is FormatMarkdown then Some (renderBlocksToMarkdown nodes 0) else None).
Proof.
  intros Hmax Hdepth Hlist Hres Hmore nodes.
  unfold getBlocks, collectChildren.
  change (match view with FormatCompact => Compact | _ => Full end)
    with (internalViewOf view).
  cbn [collectLoop]. unfold bind at 1. unfold get at 1. cbn [count].
  replace (0 <? maxBlocks) with true by (symmetry; apply Z.ltb_lt; exact Hmax).
  unfold bind at 1. unfold onNet at 1, callList. cbn [net truthy].
  rewrite Hlist. cbv beta iota. rewrite Hres.
  change (default [] (Some (map Some children))) with (map Some children).
  replace (1 <? depth) with false by (symmetry; apply Z.ltb_ge; exact Hdepth).
  unfold bind at 1. rewrite collectPage_leaves by (cbn [count]; lia).
  cbn [count net truncated app orb]. rewrite Z.sub_0_r, Z.add_0_l. fold nodes.
  unfold bind at 1. unfold get at 1. cbn [count].
  destruct (maxBlocks <=? Z.min maxBlocks (Z.of_nat (length children))) eqn:Efull.
  - apply Z.leb_le in Efull.
    assert (Hlen : maxBlocks <= Z.of_nat (length children)) by lia.
    assert (Htr : (if lr_has_more response then true
                   else maxBlocks <? Z.of_nat (length children))
                  = (maxBlocks <? Z.of_nat (length children))
                    || ((maxBlocks =? Z.of_nat (length children)) && lr_has_more response)).
    { destruct (lr_has_more response); [|rewrite andb_false_r, orb_false_r; reflexivity].
      rewrite andb_true_r.
      destruct (maxBlocks <? Z.of_nat (length children)) eqn:E1; [reflexivity|].
      apply Z.ltb_ge in E1. symmetry. apply Z.eqb_eq. lia. }
    destruct (lr_has_more response); unfold bind, modify, ret, setTruncated;
      cbn [count net truncated];
      destruct view; eexists; (split; [reflexivity|]); cbn; rewrite <- Htr; repeat split.
  - apply Z.leb_gt in Efull.
    assert (Hlen : Z.of_nat (length children) < maxBlocks) by lia.
    destruct Hmore as [Hmore|Hmore]; [|lia]. rewrite Hmore. cbn [negb orb]. unfold ret.
    replace (maxBlocks <? Z.of_nat (length children)) with false
      by (symmetry; apply Z.ltb_ge; lia).
    destruct view; eexists; (split; [reflexivity|]); cbn;
      rewrite ?andb_false_r; repeat split.
Qed.

End More.

(** *** Retrying a page mutation *)

(** X30. [withBestEffortPageMutation] retries once: when the page is
    retrieved and [apply] returns, that is the result; when [apply] throws
    an error whose status is not 409, that error is the result; and when
    it throws with status 409, the page is retrieved and [apply] called a
    second time, and whatever that attempt gives is the result, be it a
    second 409, which is thrown as it is. *)
Theorem conflict_is_retried_once {W P A : Type}
    (retrievePage : string -> W -> Outcome (RemoteValue P) * W)
    (pageId : string) (apply : P -> W -> Outcome A * W)
    (w w1 w2 : W) (value : RemoteValue P) (currentPage : P) (o : Outcome A) :
  retrievePage pageId w = (Returned value, w1) ->
  asPage value = Returned currentPage ->
  apply currentPage w1 = (o, w2) ->
  withBestEffortPageMutation retrievePage pageId apply w
  = Some match o with
         | Returned response => (Returned response, w2)
         | Threw error =>
             if bool_decide (PageMutation.getStatus error = Some 409)
             then finalAttempt retrievePage pageId apply w2
             else (Threw error, w2)
         end.
Proof.
  intros Hget Hpage Happly.
  unfold withBestEffortPageMutation. cbn [attemptFrom].
  change (1 <=? 2) with true. cbv iota.
  unfold bind at 1. unfold callRetrieve at 1. rewrite Hget.
  unfold bind at 1. unfold liftOutcome at 1. rewrite Hpage.
  unfold tryCatch at 1. unfold callApply at 1. rewrite Happly.
  destruct o as [response|error]; [reflexivity|].
  change (1 <? 2) with true. rewrite andb_true_r.
  destruct (bool_decide _); [|reflexivity].
  change (1 + 1 <=? 2) with true. cbv iota.
  unfold finalAttempt, bind, callRetrieve, liftOutcome, tryCatch, callApply.
  destruct (retrievePage pageId w2) as [[value2|e2] w3]; [|reflexivity].
  destruct (asPage value2) as [page2|e2]; [|reflexivity].
  destruct (apply page2 w3) as [[response2|error2] w4]; [reflexivity|].
  change (1 + 1 <? 2) with false. rewrite andb_false_r. reflexivity.
Qed.

Lemma conflict_is_retried_once_witness :
  withBestEffortPageMutation retrieveVersion "p1" updateOnce 0%nat
  = Some (Returned "updated", 1%nat).
Proof.
  rewrite (conflict_is_retried_once retrieveVersion "p1" updateOnce 0%nat 0%nat 1%nat
             (AnObject (Some "page") 0%nat) 0%nat (Threw conflict409));
    reflexivity.
Defined.

Lemma get_blocks_respects_the_limit_witness :
  exists result st',
    getBlocks (fun _ _ => "") 5 "page" 2 2 FormatCompact (memoryOf smallPage)
      = Some (Returned result, st')
    /\ 0 <= returned_blocks result <= 2
    /\ mutations st' = [].
Proof.
  destruct (getBlocks (fun _ _ => "") 5 "page" 2 2 FormatCompact (memoryOf smallPage))
    as [[[result|e] st']|] eqn:E; try (vm_compute in E; discriminate E).
  destruct (get_blocks_respects_the_limit _ _ _ _ _ _ _ _ _ E) as (Hc & _ & _ & _ & Hm).
  exists result, st'. split; [reflexivity|]. split; [exact Hc|exact Hm].
Defined.

Lemma get_blocks_first_page_witness :
  exists result,
    getBlocks (fun _ _ => "") 1 "page" 2 1 FormatCompact (memoryOf flatPage)
      = Some (Returned result, memoryAfter flatPage 1 [])
    /\ returned_blocks result = 2
    /\ gb_truncated result = false.
Proof.
  destruct (get_blocks_first_page (fun _ _ => "") 0 "page" 2 1 FormatCompact
              (memoryOf flatPage)
              (onePage [paragraph "a" "Alpha" false; paragraph "b" "Beta" false] false)
              [paragraph "a" "Alpha" false; paragraph "b" "Beta" false]
              (mkMemory flatPage 1 None []))
    as (result & He & Hn & Ht & _).
  - lia.
  - lia.
  - by_vm.
  - reflexivity.
  - left. reflexivity.
  - exists result. split; [exact He|]. split; [exact Hn|exact Ht].
Defined.

End ReadingMore.

(* ===================================================================== *)
(** ** The scan limit of the flattener                                     *)
(* ===================================================================== *)

Module ScanMore.
Import Repository Shape Reading Demo Trees RepositoryFacts RepositoryMore.

Section Static.
Context {R : Type} `{NotionClientAdapter R}.
Variable childrenOf : string -> list RawBlock.
Variable pages : nat.
Variable maxBlocks : Z.
Variable steady : RState R -> Prop.

Hypothesis static : forall (parentId : string) (st : RState R),
  steady st ->
  exists st',
    listDirectChildren pages parentId st = Some (Returned (childrenOf parentId), st')
    /\ steady st'.

Lemma forEach_over_limit (depth : nat) :
  (forall parentId acc st L,
      steady st ->
      levelOrder depth childrenOf parentId = Some L ->
      Z.of_nat (length (blocks acc)) <= maxBlocks ->
      maxBlocks < Z.of_nat (length (blocks acc) + length L) ->
      exists st',
        walk pages depth maxBlocks parentId acc st
        = Some (Threw (scanLimitError maxBlocks), st')) ->
  forall (sibs : list FlatBlock) acc st L,
    steady st ->
    allOf (map (belowWith (levelOrder depth childrenOf)) sibs) = Some L ->
    Z.of_nat (length (blocks acc)) <= maxBlocks ->
    maxBlocks < Z.of_nat (length (blocks acc) + length L) ->
    exists st',
      forEach sibs
        (fun sibling a =>
           if has_children sibling then walk pages depth maxBlocks (id sibling) a
           else ret a) acc st = Some (Threw (scanLimitError maxBlocks), st').
Proof.
  intros IHwalk. induction sibs as [|s sibs IH]; intros acc st L Hst Hall Hle Hover.
  - cbn in Hall. injection Hall as <-. cbn [length] in Hover. lia.
  - cbn [map allOf] in Hall.
    destruct (belowWith (levelOrder depth childrenOf) s) as [Ls|] eqn:Es; [|discriminate].
    destruct (allOf (map (belowWith (levelOrder depth childrenOf)) sibs))
      as [Lrest|] eqn:Er; [|discriminate].
    injection Hall as <-. rewrite length_app in Hover.
    cbn [forEach]. unfold belowWith in Es.
    destruct (has_children s).
    + destruct (Z.le_gt_cases (Z.of_nat (length (blocks acc) + length Ls)) maxBlocks)
        as [Hfit|Hbig].
      * destruct (walk_levelOrder childrenOf pages maxBlocks steady static depth
                    (id s) acc st Ls Hst Es Hfit) as (acc1 & st1 & Hw & Hst1 & Hb).
        rewrite (bind_Returned _ _ _ _ _ Hw).
        apply (IH acc1 st1 Lrest Hst1 eq_refl).
        -- rewrite Hb, length_app, renumber_length. lia.
        -- rewrite Hb, length_app, renumber_length. lia.
      * destruct (IHwalk (id s) acc st Ls Hst Es Hle ltac:(lia)) as (st1 & Hw).
        exists st1. apply bind_Threw. exact Hw.
    + injection Es as <-. unfold bind at 1, ret at 1.
      apply (IH acc st Lrest Hst eq_refl Hle). cbn [length] in Hover. lia.
Qed.

Lemma walk_over_limit (depth : nat) :
  forall parentId acc st L,
    steady st ->
    levelOrder depth childrenOf parentId = Some L ->
    Z.of_nat (length (blocks acc)) <= maxBlocks ->
    maxBlocks < Z.of_nat (length (blocks acc) + length L) ->
    exists st',
      walk pages depth maxBlocks parentId acc st
      = Some (Threw (scanLimitError maxBlocks), st').
Proof.
  induction depth as [|depth IH]; intros parentId acc st L Hst Hlevel Hle Hover; [discriminate|].
  cbn [levelOrder] in Hlevel.
  set (sibs := childBlocksFrom parentId (imap (fun i x => (i, x)) (childrenOf parentId))) in *.
  destruct (allOf (map (belowWith (levelOrder depth childrenOf)) sibs))
    as [Lbelow|] eqn:Eb; [|discriminate].
  injection Hlevel as <-. rewrite length_app in Hover.
  cbn [walk]. destruct (static parentId st Hst) as (st1 & Hl & Hst1).
  rewrite (bind_Returned _ _ _ _ _ Hl).
  unfold bind at 1. unfold liftOutcome.
  pose proof (pushSiblings_cases maxBlocks parentId (entries (childrenOf parentId))
                (blocks acc) []) as Hp.
  cbv zeta in Hp. unfold entries in Hp |- *. fold sibs in Hp.
  destruct (pushSiblings _ _ _ _ _) as [pushed|error].
  - destruct Hp as [-> Hfit]. cbn [fst snd app].
    rewrite <- (below_renumber childrenOf depth (length (blocks acc)) sibs) in Eb.
    apply (forEach_over_limit depth IH _ _ st1 Lbelow Hst1 Eb).
    + cbn [blocks]. destruct Hfit as [->|Hfit]; [rewrite app_nil_r; exact Hle|exact Hfit].
    + cbn [blocks]. rewrite length_app, renumber_length. lia.
  - destruct Hp as [-> _]. exists st1. reflexivity.
Qed.

(** X8. The scan limit is enforced, not applied silently: for a remote
    tree that does not change while it is read and holds more than
    [maxBlocks] blocks, [flattenScopeBlocks] does not return a shortened
    list but throws [invalid_input] "Selection scan exceeded max blocks",
    having sent no write request. *)
Theorem scan_limit_is_enforced
    (scopeId : string) (st : RState R) (L : list FlatBlock) :
  steady st ->
  levelOrder pages childrenOf scopeId = Some L ->
  0 <= maxBlocks < Z.of_nat (length L) ->
  exists st',
    flattenScopeBlocks pages scopeId maxBlocks st
      = Some (Threw (scanLimitError maxBlocks), st')
    /\ code (scanLimitError maxBlocks) = Some "invalid_input"
    /\ mutations st' = mutations st.
Proof.
  intros Hst Hlevel [H0 Hover].
  destruct (walk_over_limit pages scopeId {| blocks := []; siblingsByParent := ∅ |} st L
              Hst Hlevel) as (st' & Hw).
  - cbn [blocks length]. lia.
  - cbn [blocks length]. lia.
  - exists st'. split; [exact Hw|]. split; [reflexivity|].
    apply (walk_mutations _ _ _ _ _ _ _ _ Hw).
Qed.

End Static.

Lemma scan_limit_is_enforced_witness :
  exists st',
    flattenScopeBlocks 5 "page" 2 (memoryOf smallPage)
      = Some (Threw (scanLimitError 2), st')
    /\ mutations st' = [].
Proof.
  destruct (levelOrder 5 (listing smallPage) "page") as [L|] eqn:E;
    [|vm_compute in E; discriminate E].
  destruct (scan_limit_is_enforced (listing smallPage) 5 2 (steadyOn smallPage)
              (memory_static smallPage 4) "page" (memoryOf smallPage) L)
    as (st' & Hf & _ & Hm).
  - split; reflexivity.
  - exact E.
  - vm_compute in E. injection E as <-. split; [lia|]. vm_compute. reflexivity.
  - exists st'. split; [exact Hf|exact Hm].
Defined.

End ScanMore.

(* ===================================================================== *)
(** ** Reading a tree that does not change                                 *)
(* ===================================================================== *)

Module TreeMore.
Import Repository Shape Reading Demo Trees RepositoryFacts ReadingMore.

Section Static.
Context {R : Type} `{NotionClientAdapter R}.
Variable childrenOf : string -> list RawBlock.
Variable steady : RState R -> Prop.
Variable maxBlocks : Z.
Variable view : View.

(** The remote tree does not change while it is read, and the children of
    a block come in one page. *)
Hypothesis static : forall (parentId : string) (st : RState R),
  steady st ->
  exists response r',
    listBlockChildren {| lp_block_id := parentId;
                         lp_page_size := 100;
                         lp_start_cursor := None |} (remote st)
      = (Returned response, r')
    /\ lr_results response = Some (map Some (childrenOf parentId))
    /\ lr_has_more response = false
    /\ steady (mkRState r' (mutations st)).

Lemma collectPage_static
    (recurse : string -> Prog (Counting R) (list Node)) (levels' : nat) :
  ((0 < levels')%nat ->
   forall blockId c,
     steady (net c) ->
     count c + Z.of_nat (totalSize (treeOf levels' childrenOf view blockId)) <= maxBlocks ->
     exists c',
       recurse blockId c = Some (Returned (treeOf levels' childrenOf view blockId), c')
       /\ count c' = count c + Z.of_nat (totalSize (treeOf levels' childrenOf view blockId))
       /\ truncated c' = truncated c
       /\ steady (net c')) ->
  let nodeOf := fun block =>
    mkNode (payloadFor view block)
      (if (0 <? levels')%nat && raw_has_children block then
         match raw_id block with
         | Some blockId => Some (treeOf levels' childrenOf view blockId)
         | None => None
         end
       else None) in
  forall (children : list RawBlock) (results : list Node) (c : Counting R),
    steady (net c) ->
    count c + Z.of_nat (totalSize (map nodeOf children)) <= maxBlocks ->
    exists c',
      collectPage recurse (0 <? levels')%nat maxBlocks view (map Some children) results c
      = Some (Returned (results ++ map nodeOf children), c')
      /\ count c' = count c + Z.of_nat (totalSize (map nodeOf children))
      /\ truncated c' = truncated c
      /\ steady (net c').
Proof.
  intros Hrec nodeOf. induction children as [|block rest IH]; intros results c Hst Hfit.
  - exists c. cbn. rewrite app_nil_r. repeat split; auto. lia.
  - cbn [map totalSize] in Hfit.
    assert (Hpos : (1 <= nodeSize (nodeOf block))%nat) by (unfold nodeOf; destruct (_ && _); [destruct (raw_id block)|]; cbn; lia).
    cbn [map collectPage]. unfold bind at 1. unfold get.
    replace (maxBlocks <=? count c) with false by (symmetry; apply Z.leb_gt; lia).
    unfold bind at 1. unfold modify at 1. cbv beta iota.
    unfold bind at 1.
    destruct ((0 <? levels')%nat && raw_has_children block) eqn:Ed.
    + destruct (raw_id block) as [blockId|] eqn:Eid.
      * assert (Hnode : nodeOf block
                        = mkNode (payloadFor view block)
                                 (Some (treeOf levels' childrenOf view blockId))).
        { unfold nodeOf. rewrite Ed, Eid. reflexivity. }
        apply andb_prop in Ed. destruct Ed as [Hlev _]. apply Nat.ltb_lt in Hlev.
        rewrite Hnode in Hfit, Hpos |- *. rewrite nodeSize_children in Hfit.
        destruct (Hrec Hlev blockId (countOne c)) as (c1 & Hr & Hc1 & Ht1 & Hs1).
        { exact Hst. }
        { unfold countOne. cbn [count]. lia. }
        unfold bind at 1. rewrite Hr. unfold ret at 1.
        destruct (IH (results ++ [mkNode (payloadFor view block)
                                         (Some (treeOf levels' childrenOf view blockId))])
                     c1 Hs1) as (c2 & Hp & Hc2 & Ht2 & Hs2).
        { rewrite Hc1. unfold countOne. cbn [count]. lia. }
        exists c2. rewrite Hp, <- app_assoc. cbn [app].
        split; [reflexivity|]. cbn [totalSize]. rewrite nodeSize_children.
        split; [rewrite Hc2, Hc1; unfold countOne; cbn [count]; lia|].
        split; [rewrite Ht2, Ht1; reflexivity|exact Hs2].
      * assert (Hnode : nodeOf block = mkNode (payloadFor view block) None).
        { unfold nodeOf. rewrite Eid. destruct (_ && _); reflexivity. }
        rewrite Hnode in Hfit, Hpos |- *. cbn [nodeSize] in Hfit.
        unfold ret at 1.
        destruct (IH (results ++ [mkNode (payloadFor view block) None]) (countOne c) Hst)
          as (c2 & Hp & Hc2 & Ht2 & Hs2).
        { unfold countOne. cbn [count]. lia. }
        exists c2. rewrite Hp, <- app_assoc. cbn [app].
        split; [reflexivity|]. cbn [totalSize nodeSize].
        split; [rewrite Hc2; unfold countOne; cbn [count]; lia|].
        split; [rewrite Ht2; reflexivity|exact Hs2].
    + assert (Hnode : nodeOf block = mkNode (payloadFor view block) None).
      { unfold nodeOf. rewrite Ed. reflexivity. }
      rewrite Hnode in Hfit, Hpos |- *. cbn [nodeSize] in Hfit.
      unfold ret at 1.
      destruct (IH (results ++ [mkNode (payloadFor view block) None]) (countOne c) Hst)
        as (c2 & Hp & Hc2 & Ht2 & Hs2).
      { unfold countOne. cbn [count]. lia. }
      exists c2. rewrite Hp, <- app_assoc. cbn [app].
      split; [reflexivity|]. cbn [totalSize nodeSize].
      split; [rewrite Hc2; unfold countOne; cbn [count]; lia|].
      split; [rewrite Ht2; reflexivity|exact Hs2].
Qed.

Lemma collectLoop_static (levels : nat) :
  forall (fuel : nat) (blockId : string) (depth : Z) (results : list Node) (c : Counting R),
    (levels <= fuel)%nat ->
    Z.to_nat (Z.max 1 depth) = levels ->
    steady (net c) ->
    count c + Z.of_nat (totalSize (treeOf levels childrenOf view blockId)) <= maxBlocks ->
    exists c',
      collectLoop fuel blockId depth maxBlocks view None results c
      = Some (Returned (results ++ treeOf levels childrenOf view blockId), c')
      /\ count c' = count c + Z.of_nat (totalSize (treeOf levels childrenOf view blockId))
      /\ truncated c' = truncated c
      /\ steady (net c').
Proof.
  induction levels as [|levels' IH]; intros fuel blockId depth results c Hfuel Hdepth Hst Hfit;
    [lia|].
  destruct fuel as [|fuel]; [lia|].
  cbn [collectLoop]. unfold bind at 1. unfold get at 1.
  destruct (count c <? maxBlocks) eqn:Elim.
  - apply Z.ltb_lt in Elim.
    unfold bind at 1. unfold onNet at 1, callList. cbn [truthy].
    destruct (static blockId (net c) Hst) as (response & r' & Hl & Hres & Hmore & Hst1).
    rewrite Hl. cbv beta iota. rewrite Hres.
    change (default [] (Some (map Some (childrenOf blockId))))
      with (map Some (childrenOf blockId)).
    replace (1 <? depth) with (0 <? levels')%nat
      by (destruct (0 <? levels')%nat eqn:E1; symmetry;
          [apply Nat.ltb_lt in E1; apply Z.ltb_lt|apply Nat.ltb_ge in E1; apply Z.ltb_ge]; lia).
    unfold bind at 1.
    cbn [treeOf] in Hfit |- *.
    assert (Hrec : (0 < levels')%nat ->
              forall childId c0,
                steady (net c0) ->
                count c0 + Z.of_nat (totalSize (treeOf levels' childrenOf view childId))
                  <= maxBlocks ->
                exists c',
                  collectLoop fuel childId (depth - 1) maxBlocks view None [] c0
                  = Some (Returned (treeOf levels' childrenOf view childId), c')
                  /\ count c' = count c0
                                + Z.of_nat (totalSize (treeOf levels' childrenOf view childId))
                  /\ truncated c' = truncated c0
                  /\ steady (net c')).
    { intros Hlev childId c0 Hst0 Hfit0.
      destruct (IH fuel childId (depth - 1) [] c0) as (c' & Hc & ?); try assumption; try lia.
      exists c'. cbn [app] in Hc. auto. }
    destruct (collectPage_static
                (fun childId => collectLoop fuel childId (depth - 1) maxBlocks view None [])
                levels' Hrec (childrenOf blockId) results
                (mkCounting (mkRState r' (mutations (net c))) (count c) (truncated c))
                Hst1 Hfit) as (c2 & Hp & Hc2 & Ht2 & Hs2).
    rewrite Hp. cbn [count truncated net] in Hc2, Ht2.
    unfold bind at 1. unfold get at 1.
    destruct (maxBlocks <=? count c2).
    + rewrite Hmore. unfold bind, ret. exists c2. auto.
    + rewrite Hmore. cbn [negb orb]. unfold ret. exists c2. auto.
  - apply Z.ltb_ge in Elim. exists c.
    assert (Hempty : treeOf (S levels') childrenOf view blockId = []).
    { destruct (treeOf (S levels') childrenOf view blockId) as [|node rest]; [reflexivity|].
      cbn [totalSize] in Hfit. destruct node as [p [ch|]];
        [rewrite nodeSize_children in Hfit|cbn [nodeSize] in Hfit]; lia. }
    rewrite Hempty, app_nil_r. cbn. repeat split; auto. lia.
Qed.

End Static.

Section Tree.
Context {R : Type} `{NotionClientAdapter R}.
Variable childrenOf : string -> list RawBlock.
Variable steady : RState R -> Prop.

(** The remote tree does not change while it is read, and the children of
    a block come in one page. *)
Hypothesis static : forall (parentId : string) (st : RState R),
  steady st ->
  exists response r',
    listBlockChildren {| lp_block_id := parentId;
                         lp_page_size := 100;
                         lp_start_cursor := None |} (remote st)
      = (Returned response, r')
    /\ lr_results response = Some (map Some (childrenOf parentId))
    /\ lr_has_more response = false
    /\ steady (mkRState r' (mutations st)).

(** X9. For a remote tree that does not change while it is read and lists
    the children of a block in one page: when the blocks down to [depth]
    levels are at most [maxBlocks], [getBlocks] returns exactly that tree,
    each block with the blocks below it where it has children and the
    depth allows, reports its size as [returned_blocks], and does not set
    [truncated]. *)
Theorem get_blocks_returns_the_tree
    (renderBlocksToMarkdown : list Node -> Z -> string)
    (fuel : nat) (pageOrBlockId : string) (maxBlocks depth : Z) (view : BlockReadFormat)
    (st : RState R) :
  steady st ->
  (Z.to_nat (Z.max 1 depth) <= fuel)%nat ->
  let tree :=
    treeOf (Z.to_nat (Z.max 1 depth)) childrenOf (internalViewOf view) pageOrBlockId in
  Z.of_nat (totalSize tree) <= maxBlocks ->
  exists result st',
    getBlocks renderBlocksToMarkdown fuel pageOrBlockId maxBlocks depth view st
      = Some (Returned result, st')
    /\ returned_blocks result = Z.of_nat (totalSize tree)
    /\ gb_truncated result = false
    /\ gb_blocks result = (if view is FormatMarkdown then None else Some tree)
    /\ gb_content_markdown result
       = (if view is FormatMarkdown then Some (renderBlocksToMarkdown tree 0) else None)
    /\ steady st'.
Proof.
  intros Hst Hfuel tree Hfit.
  unfold getBlocks, collectChildren.
  change (match view with FormatCompact => Compact | _ => Full end)
    with (internalViewOf view).
  destruct (collectLoop_static childrenOf steady maxBlocks (internalViewOf view) static
              (Z.to_nat (Z.max 1 depth)) fuel pageOrBlockId depth []
              (mkCounting st 0 false) Hfuel eq_refl Hst)
    as (c' & Hc & Hn & Ht & Hs).
  { cbn [count]. fold tree. lia. }
  rewrite Hc. cbn [app count truncated] in *. fold tree in Hn |- *.
  destruct view; eexists _, _; (split; [reflexivity|]); cbn; rewrite Hn, Ht; auto.
Qed.

End Tree.

Lemma memory_lists_one_page (tree : gmap string (list RawBlock))
    (parentId : string) (st : RState MemoryRemote) :
  steadyOn tree st ->
  exists response r',
    listBlockChildren {| lp_block_id := parentId;
                         lp_page_size := 100;
                         lp_start_cursor := None |} (remote st)
      = (Returned response, r')
    /\ lr_results response = Some (map Some (listing tree parentId))
    /\ lr_has_more response = false
    /\ steadyOn tree (mkRState r' (mutations st)).
Proof.
  destruct st as [[tree0 n edit failing] log]. unfold steadyOn.
  cbn [remote childrenOf editAfter]. intros [-> ->].
  do 2 eexists. split; [reflexivity|]. repeat split.
Qed.

Lemma get_blocks_returns_the_tree_witness :
  exists result st',
    getBlocks (fun _ _ => "") 5 "page" 100 2 FormatCompact (memoryOf smallPage)
      = Some (Returned result, st')
    /\ returned_blocks result = 3
    /\ gb_truncated result = false.
Proof.
  destruct (get_blocks_returns_the_tree (listing smallPage) (steadyOn smallPage)
              (memory_lists_one_page smallPage) (fun _ _ => "") 5 "page" 100 2
              FormatCompact (memoryOf smallPage))
    as (result & st' & Hg & Hn & Ht & _).
  - split; reflexivity.
  - vm_compute. lia.
  - vm_compute. discriminate.
  - exists result, st'. split; [exact Hg|]. split; [|exact Ht].
    rewrite Hn. vm_compute. reflexivity.
Defined.

End TreeMore.

(* ===================================================================== *)
(** ** The order of the endpoints of a range                               *)
(* ===================================================================== *)

Module RangeFacts.
Import Repository Demo Trees RepositoryFacts.

Section Facts.
Context {R : Type} `{NotionClientAdapter R}.

Lemma insertChunks_total (parentId : string) (chunks : list (list NewBlock)) :
  forall (position : BlockInsertPosition) (insertedIds : list string) (st : RState R),
    exists o st', insertChunks parentId chunks position insertedIds st = Some (o, st').
Proof.
  induction chunks as [|children rest IH]; intros position insertedIds st.
  - do 2 eexists. reflexivity.
  - cbn [insertChunks]. unfold bind at 1. unfold callAppend.
    destruct (appendBlockChildren _ (remote st)) as [[response|e] r'].
    + apply IH.
    + do 2 eexists. reflexivity.
Qed.

(** C7, as amended. When both selectors resolve to siblings of one
    parent and the start block comes after the end block in sibling
    order, [replaceBlockRange] throws [invalid_input] and sends no write.
    The comparison is made on the sibling indices as resolved, before the
    inclusive/exclusive adjustment.  When the start block does not come
    after the end block and only the adjusted range is empty, the request
    is accepted, provided the siblings recorded for the parent reach up to
    the index of the start block: the plan has nothing to delete and its
    anchor is the start of the parent or the sibling before the adjusted
    start; a dry run returns that plan; and a run that is not a dry run and
    finds the fingerprint unchanged sends the new blocks to the parent, the
    first request at the anchor, and no deletion, so that only an insertion
    can make it fail. *)
Theorem start_after_end_is_rejected
    (fuel : nat) (args : ReplaceArgs) (st st1 : RState R)
    (flattened : Flattened) (start end_ : Resolved) :
  flattenScopeBlocks fuel (scopeId args) (maxBlocks args) st = Some (Returned flattened, st1) ->
  resolveSelectorStrict (blocks flattened) (startSelector args) "start-selector-json"
    = Returned start ->
  resolveSelectorStrict (blocks flattened) (endSelector args) "end-selector-json"
    = Returned end_ ->
  parent_id (selected start) = parent_id (selected end_) ->
  let parent := parent_id (selected start) in
  let sibs := default [] (siblingsByParent flattened !! parent) in
  let replaceFrom := replaceFromOf args (selected start) in
  ((sibling_index (selected end_) < sibling_index (selected start))%nat ->
     replaceBlockRange fuel args st = Some (Threw startAfterEndError, st1)
     /\ code startAfterEndError = Some "invalid_input"
     /\ mutations st1 = mutations st)
  /\ ((sibling_index (selected start) <= sibling_index (selected end_))%nat ->
      replaceToOf args (selected end_) < replaceFrom ->
      (sibling_index (selected start) < length sibs)%nat ->
      exists planned,
        planRange flattened args = Returned planned
        /\ blocksToDelete planned = []
        /\ delete_ids (the_plan planned) = []
        /\ delete_count (the_plan planned) = 0%nat
        /\ plan_parent_id (the_plan planned) = parent
        /\ match insert_position (the_plan planned) with
           | PosStart => replaceFrom = 0
           | PosAfterBlock after =>
               replaceFrom <> 0
               /\ exists before,
                    sibs !! Z.to_nat (replaceFrom - 1) = Some before /\ id before = after
           | PosEnd => False
           end
        /\ (dryRun args = true ->
            replaceBlockRange fuel args st
            = Some (Returned (DryRun (the_plan planned) (blockTypes (newBlocks args))), st1))
        /\ (dryRun args = false ->
            forall currentSiblingsRaw st2,
              listDirectChildren fuel parent st1 = Some (Returned currentSiblingsRaw, st2) ->
              siblingsFingerprint sibs
              = siblingsFingerprint (currentSiblingsOf parent currentSiblingsRaw) ->
              exists o st3 (sent : list (AppendPayload * bool)),
                replaceBlockRange fuel args st = Some (o, st3)
                /\ mutations st3 = mutations st ++ map (fun x => MAppend x.1 x.2) sent
                /\ Forall (fun x => ap_block_id x.1 = parent) sent
                /\ (forall x, head sent = Some x ->
                      ap_position x.1 = insert_position (the_plan planned))
                /\ concat (map (fun x => ap_children x.1) sent) `prefix_of` newBlocks args
                /\ (forall result, o = Returned result ->
                      concat (map (fun x => ap_children x.1) sent) = newBlocks args
                      /\ Forall (fun x => x.2 = true) sent
                      /\ exists ids,
                           result = Replaced (the_plan planned) (length (newBlocks args))
                                             ids 0)
                /\ (forall error, o = Threw error ->
                      exists done failed r,
                        sent = done ++ [(failed, false)]
                        /\ appendBlockChildren failed r = (Threw error, remote st3)))).
Proof.
  intros Hflat Hs He Hparent parent sibs replaceFrom. split.
  - intros Hlt. unfold replaceBlockRange.
    rewrite (bind_Returned _ _ _ _ _ Hflat).
    unfold bind at 1. unfold liftOutcome, planRange. rewrite Hs, He, Hparent.
    rewrite String.eqb_refl. cbn [negb].
    replace (sibling_index (selected end_) <? sibling_index (selected start))%nat with true
      by (symmetry; apply Nat.ltb_lt; exact Hlt).
    repeat split. apply flattenScopeBlocks_mutations in Hflat. exact Hflat.
  - intros Hle Hempty Hlen.
    assert (Hplan : exists planned,
              planRange flattened args = Returned planned
              /\ blocksToDelete planned = []
              /\ delete_ids (the_plan planned) = []
              /\ delete_count (the_plan planned) = 0%nat
              /\ plan_parent_id (the_plan planned) = parent
              /\ siblings planned = sibs
              /\ insert_count (the_plan planned) = length (newBlocks args)
              /\ match insert_position (the_plan planned) with
                 | PosStart => replaceFrom = 0
                 | PosAfterBlock after =>
                     replaceFrom <> 0
                     /\ exists before,
                          sibs !! Z.to_nat (replaceFrom - 1) = Some before
                          /\ id before = after
                 | PosEnd => False
                 end).
    { unfold planRange. rewrite Hs, He, Hparent. rewrite String.eqb_refl. cbn [negb].
      replace (sibling_index (selected end_) <? sibling_index (selected start))%nat with false
        by (symmetry; apply Nat.ltb_ge; exact Hle).
      rewrite <- Hparent. fold parent sibs replaceFrom.
      replace (replaceFrom <=? replaceToOf args (selected end_))
        with false by (symmetry; apply Z.leb_gt; exact Hempty).
      destruct (replaceFrom =? 0) eqn:E0.
      - eexists. split; [reflexivity|]. cbn. apply Z.eqb_eq in E0. repeat split. exact E0.
      - assert (Hin : (Z.to_nat (replaceFrom - 1) < length sibs)%nat).
        { apply Z.eqb_neq in E0. unfold replaceFrom, replaceFromOf in *.
          destruct (inclusiveStart args); lia. }
        apply lookup_lt_is_Some_2 in Hin. destruct Hin as [before Hb]. rewrite Hb.
        eexists. split; [reflexivity|]. cbn. apply Z.eqb_neq in E0.
        repeat split; [exact E0|]. exists before. split; reflexivity. }
    destruct Hplan as (planned & Hplan & Hdel & Hids & Hcount & Hpar & Hsibs & Hic & Hpos).
    exists planned.
    split; [exact Hplan|]. split; [exact Hdel|]. split; [exact Hids|].
    split; [exact Hcount|]. split; [exact Hpar|]. split; [exact Hpos|].
    assert (Hm1 : mutations st1 = mutations st)
      by (apply flattenScopeBlocks_mutations in Hflat; exact Hflat).
    split.
    + intros Hdry. unfold replaceBlockRange.
      rewrite (bind_Returned _ _ _ _ _ Hflat).
      unfold bind at 1. unfold liftOutcome. rewrite Hplan, Hdry. reflexivity.
    + intros Hdry currentSiblingsRaw st2 Hlist Hfp.
      assert (Hm2 : mutations st2 = mutations st)
        by (apply listDirectChildren_mutations in Hlist; congruence).
      unfold replaceBlockRange.
      rewrite (bind_Returned _ _ _ _ _ Hflat).
      unfold bind at 1. unfold liftOutcome. rewrite Hplan, Hdry.
      unfold executePlan. rewrite Hpar, Hsibs, Hdel.
      rewrite (bind_Returned _ _ _ _ _ Hlist).
      apply String.eqb_eq in Hfp. rewrite Hfp. cbn [negb].
      unfold insertReplacement. rewrite Hpar.
      destruct (newBlocks args) as [|block rest] eqn:En.
      * exists (Returned (Replaced (the_plan planned) 0 [] 0)), st2, [].
        split; [reflexivity|]. cbn [map]. rewrite app_nil_r.
        split; [exact Hm2|]. split; [constructor|]. split; [discriminate|].
        split; [apply prefix_nil|]. split.
        -- intros result [= <-]. split; [reflexivity|]. split; [constructor|].
           exists []. reflexivity.
        -- discriminate.
      * rewrite <- En. unfold insertBlocks. rewrite En. rewrite <- En.
        destruct (insertChunks_total parent (chunk (length (newBlocks args)) (newBlocks args) 100)
                    (insert_position (the_plan planned)) [] st2) as (oi & st3 & Hi).
        destruct (RepositoryMore.insertChunks_sent _ _ _ _ _ _ _ Hi)
          as (sent & Hm & Hp & Hpre & Hhead & Hok & Hbad).
        unfold bind at 1. unfold bind at 1. unfold bind at 1. rewrite Hi.
        destruct oi as [ids|error].
        -- exists (Returned (Replaced (the_plan planned) (length (newBlocks args)) ids 0)),
                  st3, sent.
           destruct (Hok eq_refl) as [Hc Ht].
           split; [reflexivity|]. split; [rewrite Hm, Hm2; reflexivity|].
           split; [exact Hp|]. split; [exact Hhead|].
           split; [rewrite Hc, RepositoryMore.chunk_concat by lia; reflexivity|].
           split.
           ++ intros result [= <-].
              split; [rewrite Hc, RepositoryMore.chunk_concat by lia; reflexivity|].
              split; [exact Ht|]. exists ids. reflexivity.
           ++ discriminate.
        -- exists (Threw error), st3, sent.
           split; [reflexivity|]. split; [rewrite Hm, Hm2; reflexivity|].
           split; [exact Hp|]. split; [exact Hhead|].
           split; [apply (RepositoryMore.chunk_prefix _ 100); [lia|exact Hpre]|].
           split; [discriminate|].
           intros error' [= <-]. destruct (Hbad error eq_refl) as (done & failed & r & Hsent & _ & Hf).
           exists done, failed, r. split; [exact Hsent|exact Hf].
Qed.

End Facts.

(** The theorem on the memory remote: [beta] before [alpha] is rejected,
    and the empty range between [alpha] and [beta], both excluded, is
    filled after [a] without a deletion. *)
Lemma start_after_end_is_rejected_witness :
  (exists st1,
     replaceBlockRange 5 (rangeArgs "beta" "alpha" true true false) (memoryOf flatPage)
       = Some (Threw startAfterEndError, st1)
     /\ mutations st1 = [])
  /\ (exists o st3 (sent : list (AppendPayload * bool)),
        replaceBlockRange 5 (rangeArgs "alpha" "beta" false false false) (memoryOf flatPage)
          = Some (o, st3)
        /\ mutations st3 = map (fun x => MAppend x.1 x.2) sent
        /\ Forall (fun x => ap_block_id x.1 = "page") sent).
Proof.
  split.
  - edestruct (start_after_end_is_rejected 5 (rangeArgs "beta" "alpha" true true false)
                 (memoryOf flatPage)) as [Hreject _].
    + vm_compute. reflexivity.
    + vm_compute. reflexivity.
    + vm_compute. reflexivity.
    + reflexivity.
    + destruct Hreject as (Hr & _ & Hm); [vm_compute; lia|].
      eexists. split; [exact Hr|exact Hm].
  - edestruct (start_after_end_is_rejected 5 (rangeArgs "alpha" "beta" false false false)
                 (memoryOf flatPage)) as [_ Hempty].
    + vm_compute. reflexivity.
    + vm_compute. reflexivity.
    + vm_compute. reflexivity.
    + reflexivity.
    + destruct Hempty as (planned & _ & _ & _ & _ & _ & _ & _ & Hrun);
        [vm_compute; lia|vm_compute; reflexivity|vm_compute; lia|].
      edestruct (Hrun eq_refl) as (o & st3 & sent & Hr & Hm & Hp & _).
      * vm_compute. reflexivity.
      * vm_compute. reflexivity.
      * exists o, st3, sent. split; [exact Hr|]. split; [exact Hm|exact Hp].
Defined.

End RangeFacts.

(* ===================================================================== *)
(** ** Properties of the store behind its lock                             *)
(* ===================================================================== *)

Module LockedFacts.
Import Store Mutation Demo Checks Samples Faults.

Lemma tryFinally_releaseLock {A} (fn : Prog Locked.Disk A) (d : Locked.Disk) :
  Locked.tryFinally fn Locked.releaseLock d = fn d.
Proof.
  unfold Locked.tryFinally, Locked.releaseLock, ret.
  destruct (fn d) as [[o d']|]; reflexivity.
Qed.

Section Facts.
Context {Resp : Type} `{JsonCodec Resp}.
Variable fs : Locked.FileSystem.

Abbreviation acquireLoop := (Locked.acquireLoop fs).
Abbreviation acquireLock := (Locked.acquireLock fs).
Abbreviation saveDataUnlocked := (Locked.saveDataUnlocked fs).
Abbreviation loadDataUnlocked := (Locked.loadDataUnlocked fs).

Abbreviation lockError := (Locked.lockError fs).
Abbreviation writesSucceed := (Locked.writesSucceed fs).

(** *** The lock *)

Lemma acquireLoop_cases (fuel : nat) (deadline : Z) (d : Locked.Disk) :
  deadline - clock (Locked.disk_env d) <= 30 * Z.of_nat fuel ->
  exists o d',
    acquireLoop fuel deadline d = Some (o, d')
    /\ clock (Locked.disk_env d) <= clock (Locked.disk_env d')
    /\ match o with
       | Returned _ => True
       | Threw e => lockError e
       end.
Proof.
  revert d. induction fuel as [|fuel IH]; intros d Hd.
  - cbn [Locked.acquireLoop]. unfold bind, Locked.dateNow.
    replace (clock (Locked.disk_env d) <? deadline) with false
      by (symmetry; apply Z.ltb_ge; lia).
    do 2 eexists. split; [reflexivity|]. split; [lia|]. left. reflexivity.
  - cbn [Locked.acquireLoop]. unfold bind at 1. unfold Locked.dateNow.
    destruct (clock (Locked.disk_env d) <? deadline) eqn:Et.
    2:{ do 2 eexists. split; [reflexivity|]. split; [lia|]. left. reflexivity. }
    unfold bind at 1. unfold Locked.request.
    destruct (Locked.openLock fs (Locked.requests d)) as [[]|error] eqn:Eo.
    + do 2 eexists. split; [reflexivity|]. cbn. split; [lia|exact I].
    + destruct (bool_decide (code error = Some "EEXIST")) eqn:Ec; cbn [negb].
      * unfold bind at 1. unfold Locked.tryClearStaleLock, ret.
        unfold bind at 1. unfold Locked.sleepMs, modify.
        pose proof (Z.mod_pos_bound (Locked.random fs (Locked.requests d)) 20 ltac:(lia)) as Hr.
        match goal with |- context [acquireLoop fuel deadline ?d1] =>
          destruct (IH d1) as (o & d' & Hl & Hc & Ho)
        end.
        { cbn [Locked.disk_env clock]. unfold Locked.LOCK_POLL_INTERVAL_MS. lia. }
        exists o, d'. split; [exact Hl|]. split; [|exact Ho].
        cbn [Locked.disk_env clock] in Hc. unfold Locked.LOCK_POLL_INTERVAL_MS in Hc. lia.
      * apply bool_decide_eq_false in Ec.
        do 2 eexists. split; [reflexivity|]. split; [cbn; lia|].
        right. exists (Locked.requests d), error. auto.
Qed.

Lemma acquireLock_cases (d : Locked.Disk) :
  exists o d',
    acquireLock d = Some (o, d')
    /\ clock (Locked.disk_env d) <= clock (Locked.disk_env d')
    /\ match o with
       | Returned _ => True
       | Threw e => lockError e
       end.
Proof.
  unfold Locked.acquireLock, bind, Locked.dateNow.
  apply acquireLoop_cases. unfold Locked.LOCK_WAIT_TIMEOUT_MS.
  change (Z.of_nat 1167) with 1167. lia.
Qed.

Lemma withLock_acquired {A} (fn : Prog Locked.Disk A) (d d1 : Locked.Disk) :
  acquireLock d = Some (Returned tt, d1) ->
  Locked.withLock fs fn d = fn d1.
Proof.
  intros Ha. unfold Locked.withLock. rewrite (bind_Returned _ _ _ _ _ Ha).
  apply tryFinally_releaseLock.
Qed.

Lemma withLock_refused {A} (fn : Prog Locked.Disk A) (d d1 : Locked.Disk) (e : Thrown) :
  acquireLock d = Some (Threw e, d1) ->
  Locked.withLock fs fn d = Some (Threw e, d1).
Proof.
  intros Ha. unfold Locked.withLock. apply bind_Threw. exact Ha.
Qed.

(** *** Reading and writing the file *)

(** The write of the store file either succeeds and leaves the data in the
    file, or throws the error of the file system and leaves the file as it
    was. *)
Lemma saveDataUnlocked_cases (data : StoreData) (d : Locked.Disk) :
  (Locked.writeStore fs (Locked.requests d) = Returned tt
   /\ saveDataUnlocked data d
      = Some (Returned tt,
              Locked.mkDisk (mkEnv (clock (Locked.disk_env d)) (Stored data))
                            (S (Locked.requests d))))
  \/ (exists e,
        Locked.writeStore fs (Locked.requests d) = Threw e
        /\ saveDataUnlocked data d
           = Some (Threw e, Locked.mkDisk (Locked.disk_env d) (S (Locked.requests d)))).
Proof.
  unfold Locked.saveDataUnlocked, bind, Locked.request.
  destruct (Locked.writeStore fs (Locked.requests d)) as [[]|e].
  - left. split; reflexivity.
  - right. exists e. split; reflexivity.
Qed.

(** [loadDataUnlocked] returns what [Store.loadDataUnlocked] returns and
    leaves the file that it leaves, unless a write fails. *)
Lemma loadDataUnlocked_cases (d : Locked.Disk) :
  let t := clock (Locked.disk_env d) in
  let f := file (Locked.disk_env d) in
  (exists n,
     loadDataUnlocked d
     = Some (Returned (Store.loadDataUnlocked t f).1,
             Locked.mkDisk (mkEnv t (Store.loadDataUnlocked t f).2) n))
  \/ (exists e n,
        Locked.writeStore fs n = Threw e
        /\ loadDataUnlocked d = Some (Threw e, Locked.mkDisk (Locked.disk_env d) (S n))).
Proof.
  intros t f. destruct d as [[t0 f0] n0]. cbn [Locked.disk_env clock file] in *. subst t f.
  unfold Locked.loadDataUnlocked, bind, get. cbv beta iota. cbn [Locked.disk_env clock file].
  destruct f0 as [| |data].
  - left. exists n0. reflexivity.
  - destruct (saveDataUnlocked_cases ∅ (Locked.mkDisk (mkEnv t0 Corrupt) n0))
      as [[_ Hs]|(e & He & Hs)]; rewrite Hs.
    + left. exists (S n0). reflexivity.
    + right. exists e, n0. split; [exact He|reflexivity].
  - cbn [Store.loadDataUnlocked]. cbv zeta.
    destruct (bool_decide (prune t0 data = data)) eqn:Ep; cbn [negb].
    + left. exists n0. unfold ret. cbn [fst snd].
      apply bool_decide_eq_true in Ep. reflexivity.
    + destruct (saveDataUnlocked_cases (prune t0 data)
                  (Locked.mkDisk (mkEnv t0 (Stored data)) n0)) as [[_ Hs]|(e & He & Hs)];
        rewrite Hs.
      * left. exists (S n0). reflexivity.
      * right. exists e, n0. split; [exact He|reflexivity].
Qed.

(** *** The operations when the lock is acquired and the writes succeed *)

Lemma saveDataUnlocked_granted (data : StoreData) (d : Locked.Disk) :
  writesSucceed ->
  saveDataUnlocked data d
  = Some (Returned tt,
          Locked.mkDisk (mkEnv (clock (Locked.disk_env d)) (Stored data))
                        (S (Locked.requests d))).
Proof.
  intros Hw. destruct (saveDataUnlocked_cases data d) as [[_ Hs]|(e & He & _)]; [exact Hs|].
  rewrite Hw in He. discriminate He.
Qed.

Lemma loadDataUnlocked_granted (d : Locked.Disk) :
  writesSucceed ->
  exists n,
    loadDataUnlocked d
    = Some (Returned (Store.loadDataUnlocked (clock (Locked.disk_env d))
                                             (file (Locked.disk_env d))).1,
            Locked.mkDisk
              (mkEnv (clock (Locked.disk_env d))
                     (Store.loadDataUnlocked (clock (Locked.disk_env d))
                                             (file (Locked.disk_env d))).2) n).
Proof.
  intros Hw. destruct (loadDataUnlocked_cases d) as [Hl|(e & n & He & _)]; [exact Hl|].
  rewrite Hw in He. discriminate He.
Qed.

Ltac under_lock Ha Hw d1 :=
  rewrite (withLock_acquired _ _ _ Ha);
  let n := fresh "n" in
  let Hl := fresh "Hl" in
  destruct (loadDataUnlocked_granted d1 Hw) as [n Hl];
  unfold bind at 1; rewrite Hl; clear Hl;
  destruct (Store.loadDataUnlocked (clock (Locked.disk_env d1)) (file (Locked.disk_env d1)))
    as [data f1];
  cbn [fst snd].

(** With the lock acquired in state [d1] and the writes succeeding, an
    operation returns what the operation of [Store] returns at the clock
    and on the file of [d1], and leaves the file that it leaves. *)
Lemma lookup_granted (k c h : string) (d d1 : Locked.Disk) :
  acquireLock d = Some (Returned tt, d1) ->
  writesSucceed ->
  let ideal := Store.lookup (Resp := Resp) (clock (Locked.disk_env d1)) k c h
                 (file (Locked.disk_env d1)) in
  exists n,
    Locked.lookup fs k c h d
    = Some (ideal.1, Locked.mkDisk (mkEnv (clock (Locked.disk_env d1)) ideal.2) n).
Proof.
  intros Ha Hw ideal. subst ideal. unfold Locked.lookup, Store.lookup.
  under_lock Ha Hw d1.
  destruct (data !! compositeKey k c) as [entry|]; [|eexists; reflexivity].
  destruct (negb _); [eexists; reflexivity|].
  destruct (String.eqb _ _); [eexists; reflexivity|].
  destruct (JSON_parse _); eexists; reflexivity.
Qed.

Lemma reserve_granted (k c h : string) (d d1 : Locked.Disk) :
  acquireLock d = Some (Returned tt, d1) ->
  writesSucceed ->
  let ideal := Store.reserve (Resp := Resp) (clock (Locked.disk_env d1)) k c h
                 (file (Locked.disk_env d1)) in
  exists n,
    Locked.reserve fs k c h d
    = Some (ideal.1, Locked.mkDisk (mkEnv (clock (Locked.disk_env d1)) ideal.2) n).
Proof.
  intros Ha Hw ideal. subst ideal. unfold Locked.reserve, Store.reserve.
  under_lock Ha Hw d1. cbv zeta.
  destruct (data !! compositeKey k c) as [entry|].
  - destruct (negb _); [eexists; reflexivity|].
    destruct (String.eqb _ _); [eexists; reflexivity|].
    destruct (JSON_parse _); eexists; reflexivity.
  - unfold bind, Locked.dateNow. rewrite saveDataUnlocked_granted by exact Hw.
    eexists. reflexivity.
Qed.

Lemma complete_granted (k c h : string) (response : Resp) (d d1 : Locked.Disk) :
  acquireLock d = Some (Returned tt, d1) ->
  writesSucceed ->
  let ideal := Store.complete (clock (Locked.disk_env d1)) k c h response
                 (file (Locked.disk_env d1)) in
  exists n,
    Locked.complete fs k c h response d
    = Some (ideal.1, Locked.mkDisk (mkEnv (clock (Locked.disk_env d1)) ideal.2) n).
Proof.
  intros Ha Hw ideal. subst ideal. unfold Locked.complete, Store.complete.
  under_lock Ha Hw d1. cbv zeta.
  destruct (data !! compositeKey k c) as [entry|].
  - destruct (negb _); [eexists; reflexivity|].
    unfold bind, Locked.dateNow. rewrite saveDataUnlocked_granted by exact Hw.
    eexists. reflexivity.
  - unfold bind, Locked.dateNow. rewrite saveDataUnlocked_granted by exact Hw.
    eexists. reflexivity.
Qed.

Lemma release_granted (k c h : string) (d d1 : Locked.Disk) :
  acquireLock d = Some (Returned tt, d1) ->
  writesSucceed ->
  let ideal := Store.release (clock (Locked.disk_env d1)) k c h
                 (file (Locked.disk_env d1)) in
  exists n,
    Locked.release fs k c h d
    = Some (ideal.1, Locked.mkDisk (mkEnv (clock (Locked.disk_env d1)) ideal.2) n).
Proof.
  intros Ha Hw ideal. subst ideal. unfold Locked.release, Store.release.
  under_lock Ha Hw d1. cbv zeta.
  destruct (data !! compositeKey k c) as [entry|]; [|eexists; reflexivity].
  destruct (_ && _); [|eexists; reflexivity].
  rewrite saveDataUnlocked_granted by exact Hw. eexists. reflexivity.
Qed.

(** *** What the operations can throw *)

(** [release] returns or throws, and it throws only an error of the lock or
    the error of a failed write. *)
Lemma release_cases (k c h : string) (d : Locked.Disk) :
  exists o d',
    Locked.release fs k c h d = Some (o, d')
    /\ forall e, o = Threw e ->
         lockError e \/ exists n, Locked.writeStore fs n = Threw e.
Proof.
  unfold Locked.release.
  destruct (acquireLock_cases d) as ([[]|e] & d1 & Ha & _ & He).
  2:{ rewrite (withLock_refused _ _ _ _ Ha). do 2 eexists. split; [reflexivity|].
      intros e' [= <-]. left. exact He. }
  rewrite (withLock_acquired _ _ _ Ha). unfold bind at 1.
  destruct (loadDataUnlocked_cases d1) as [[n ->]|(e & n & Hw & ->)].
  2:{ do 2 eexists. split; [reflexivity|]. intros e' [= <-]. right. eauto. }
  destruct (Store.loadDataUnlocked _ _) as [data f1]. cbn [fst snd]. cbv zeta.
  destruct (data !! compositeKey k c) as [entry|];
    [|unfold ret; do 2 eexists; split; [reflexivity|discriminate]].
  destruct (_ && _); [|unfold ret; do 2 eexists; split; [reflexivity|discriminate]].
  match goal with |- context [saveDataUnlocked ?x ?y] =>
    destruct (saveDataUnlocked_cases x y) as [[_ ->]|(e & Hw & ->)]
  end.
  - do 2 eexists. split; [reflexivity|discriminate].
  - do 2 eexists. split; [reflexivity|]. intros e' [= <-]. right. eauto.
Qed.

(** [complete] returns or throws, and it throws only an error of the lock,
    an error of a write, or the error for an entry with another hash. *)
Lemma complete_cases (k c h : string) (response : Resp) (d : Locked.Disk) :
  exists o d',
    Locked.complete fs k c h response d = Some (o, d')
    /\ forall e, o = Threw e ->
         lockError e
         \/ (exists n, Locked.writeStore fs n = Threw e)
         \/ (e = finalizeError
             /\ exists d1 entry,
                  acquireLock d = Some (Returned tt, d1)
                  /\ visible (clock (Locked.disk_env d1)) (file (Locked.disk_env d1))
                       !! compositeKey k c = Some entry
                  /\ inputHash entry <> h).
Proof.
  unfold Locked.complete.
  destruct (acquireLock_cases d) as ([[]|e] & d1 & Ha & _ & He).
  2:{ rewrite (withLock_refused _ _ _ _ Ha). do 2 eexists. split; [reflexivity|].
      intros e' [= <-]. left. exact He. }
  rewrite (withLock_acquired _ _ _ Ha). unfold bind at 1.
  destruct (loadDataUnlocked_cases d1) as [[n ->]|(e & n & Hw & ->)].
  2:{ do 2 eexists. split; [reflexivity|]. intros e' [= <-]. right. left. eauto. }
  unfold visible.
  destruct (Store.loadDataUnlocked _ _) as [data f1] eqn:L. cbn [fst snd]. cbv zeta.
  assert (Hsave : forall data' d2,
            exists o d',
              (now <- Locked.dateNow ;; saveDataUnlocked (data' now))%prog d2 = Some (o, d')
              /\ forall e, o = Threw e -> exists n, Locked.writeStore fs n = Threw e).
  { intros data' d2. unfold bind, Locked.dateNow.
    match goal with |- context [saveDataUnlocked ?x ?y] =>
      destruct (saveDataUnlocked_cases x y) as [[_ ->]|(e & Hw & ->)]
    end.
    - do 2 eexists. split; [reflexivity|]. discriminate.
    - do 2 eexists. split; [reflexivity|]. intros e' [= <-]. eauto. }
  destruct (data !! compositeKey k c) as [entry|] eqn:E.
  - destruct (String.eqb_spec (inputHash entry) h) as [Heq|Hne]; cbn [negb].
    + match goal with
      | |- context [bind Locked.dateNow (fun now => saveDataUnlocked (@?g now)) ?d2] =>
          destruct (Hsave g d2) as (o & d' & -> & Ho)
      end.
      do 2 eexists. split; [reflexivity|]. intros e Heo. right. left. exact (Ho e Heo).
    + do 2 eexists. split; [reflexivity|]. intros e [= <-]. right. right.
      split; [reflexivity|]. exists d1, entry. rewrite L. auto.
  - match goal with
    | |- context [bind Locked.dateNow (fun now => saveDataUnlocked (@?g now)) ?d2] =>
        destruct (Hsave g d2) as (o & d' & -> & Ho)
    end.
    do 2 eexists. split; [reflexivity|]. intros e Heo. right. left. exact (Ho e Heo).
Qed.

(** *** Every operation ends *)

Lemma withLock_total {A} (fn : Prog Locked.Disk A) :
  (forall d1, exists o d',
     fn d1 = Some (o, d') /\ clock (Locked.disk_env d1) <= clock (Locked.disk_env d')) ->
  forall d, exists o d',
    Locked.withLock fs fn d = Some (o, d')
    /\ clock (Locked.disk_env d) <= clock (Locked.disk_env d').
Proof.
  intros Hfn d.
  destruct (acquireLock_cases d) as ([[]|e] & d1 & Ha & Hc & _).
  - rewrite (withLock_acquired _ _ _ Ha).
    destruct (Hfn d1) as (o & d' & -> & Hc'). exists o, d'. split; [reflexivity|lia].
  - rewrite (withLock_refused _ _ _ _ Ha). eauto.
Qed.

Lemma lookup_total (k c h : string) (d : Locked.Disk) :
  exists o d',
    Locked.lookup (Resp := Resp) fs k c h d = Some (o, d')
    /\ clock (Locked.disk_env d) <= clock (Locked.disk_env d').
Proof.
  unfold Locked.lookup. apply withLock_total. intros d1. unfold bind at 1.
  destruct (loadDataUnlocked_cases d1) as [[n ->]|(e & n & _ & ->)].
  2:{ do 2 eexists. split; [reflexivity|]. cbn. lia. }
  destruct (Store.loadDataUnlocked _ _) as [data f1]. cbn [fst snd].
  destruct (data !! compositeKey k c) as [entry|];
    [|do 2 eexists; split; [reflexivity|cbn; lia]].
  destruct (negb _); [do 2 eexists; split; [reflexivity|cbn; lia]|].
  destruct (String.eqb _ _); [do 2 eexists; split; [reflexivity|cbn; lia]|].
  destruct (JSON_parse _); do 2 eexists; (split; [reflexivity|cbn; lia]).
Qed.

Lemma reserve_total (k c h : string) (d : Locked.Disk) :
  exists o d',
    Locked.reserve (Resp := Resp) fs k c h d = Some (o, d')
    /\ clock (Locked.disk_env d) <= clock (Locked.disk_env d').
Proof.
  unfold Locked.reserve. apply withLock_total. intros d1. unfold bind at 1.
  destruct (loadDataUnlocked_cases d1) as [[n ->]|(e & n & _ & ->)].
  2:{ do 2 eexists. split; [reflexivity|]. cbn. lia. }
  destruct (Store.loadDataUnlocked _ _) as [data f1]. cbn [fst snd]. cbv zeta.
  destruct (data !! compositeKey k c) as [entry|].
  - destruct (negb _); [do 2 eexists; split; [reflexivity|cbn; lia]|].
    destruct (String.eqb _ _); [do 2 eexists; split; [reflexivity|cbn; lia]|].
    destruct (JSON_parse _); do 2 eexists; (split; [reflexivity|cbn; lia]).
  - unfold bind, Locked.dateNow.
    match goal with |- context [saveDataUnlocked ?x ?y] =>
      destruct (saveDataUnlocked_cases x y) as [[_ ->]|(e & _ & ->)]
    end; do 2 eexists; (split; [reflexivity|cbn; lia]).
Qed.

(** *** Completing a key that has no entry *)

Lemma complete_absent (now : Z) (k c h : string) (response : Resp) (f : File) :
  visible now f !! compositeKey k c = None ->
  Store.complete now k c h response f
  = (Returned tt,
     Stored (<[compositeKey k c := mkEntry h (JSON_stringify response) now]> (visible now f))).
Proof.
  unfold visible, Store.complete. destruct (Store.loadDataUnlocked now f) as [data f1].
  cbn [fst]. intros ->. reflexivity.
Qed.

Lemma lookup_terminal (now : Z) (k c h : string) (response : Resp) (data : StoreData)
    (t : Z) :
  data !! compositeKey k c = Some (mkEntry h (JSON_stringify response) t) ->
  now - t <= PRUNE_TTL_MS ->
  storable response ->
  (Store.lookup now k c h (Stored data)).1 = Returned (LReplay response).
Proof.
  intros E Hage [Hparse Hpend]. unfold Store.lookup.
  rewrite StoreFacts.loadDataUnlocked_stored. cbv beta iota zeta.
  rewrite StoreFacts.prune_lookup, E. unfold expired. cbn [createdAt].
  replace (PRUNE_TTL_MS <? now - t) with false by (symmetry; apply Z.ltb_ge; exact Hage).
  cbn [inputHash responseJson]. rewrite String.eqb_refl. cbn [negb].
  apply String.eqb_neq in Hpend. rewrite Hpend, Hparse. reflexivity.
Qed.

(** C10, as amended. When [complete] acquires the lock, the store then
    shows no entry for the composite key and the writes of the store file
    succeed, [complete] does not throw: it stores a terminal entry with
    the given input hash and the JSON text of the outcome, stamped with the
    time at which the lock was acquired.  A later [lookup] with the same
    key, command and hash replays the outcome if it acquires the lock while
    the file still holds that entry, not more than the TTL after that time,
    and if the outcome is terminal (its JSON text parses back to it and is
    not the pending sentinel).  [complete] always returns or
    throws, and it throws only an error of [acquireLock], the error of a
    failed write, or the [internal_error] for an entry with another input
    hash, which it does throw when it finds such an entry. *)
Theorem complete_absent_creates_entry
    (idempotencyKey command hash : string) (response : Resp) (d : Locked.Disk) :
  let completed :=
    Locked.complete fs idempotencyKey command hash response d in
  let shown (d1 : Locked.Disk) :=
    visible (clock (Locked.disk_env d1)) (file (Locked.disk_env d1))
      !! compositeKey idempotencyKey command in
  (forall d1,
     acquireLock d = Some (Returned tt, d1) ->
     writesSucceed ->
     shown d1 = None ->
     exists data' n,
       completed
       = Some (Returned tt,
               Locked.mkDisk (mkEnv (clock (Locked.disk_env d1)) (Stored data')) n)
       /\ data' !! compositeKey idempotencyKey command
          = Some (mkEntry hash (JSON_stringify response) (clock (Locked.disk_env d1)))
       /\ forall later later1 stored,
            acquireLock later = Some (Returned tt, later1) ->
            file (Locked.disk_env later1) = Stored stored ->
            stored !! compositeKey idempotencyKey command
              = data' !! compositeKey idempotencyKey command ->
            clock (Locked.disk_env later1) - clock (Locked.disk_env d1) <= PRUNE_TTL_MS ->
            storable response ->
            exists later',
              Locked.lookup fs idempotencyKey command hash later
              = Some (Returned (LReplay response), later'))
  /\ (exists o d',
        completed = Some (o, d')
        /\ forall e, o = Threw e ->
             lockError e
             \/ (exists n, Locked.writeStore fs n = Threw e)
             \/ (e = finalizeError
                 /\ exists d1 entry,
                      acquireLock d = Some (Returned tt, d1)
                      /\ shown d1 = Some entry
                      /\ inputHash entry <> hash))
  /\ (forall d1 entry,
        acquireLock d = Some (Returned tt, d1) ->
        writesSucceed ->
        shown d1 = Some entry ->
        inputHash entry <> hash ->
        exists d',
          completed = Some (Threw finalizeError, d')
          /\ code finalizeError = Some "internal_error").
Proof.
  intros completed shown. subst completed shown. cbv beta. split; [|split].
  - intros d1 Ha Hw Habs.
    destruct (complete_granted idempotencyKey command hash response d d1 Ha Hw) as [n Hc].
    cbv zeta in Hc. rewrite (complete_absent _ _ _ _ _ _ Habs) in Hc. cbn [fst snd] in Hc.
    do 2 eexists. split; [exact Hc|]. split; [apply lookup_insert_eq|].
    intros later later1 stored Hl Hfile Hkept Hage Hst.
    destruct (lookup_granted idempotencyKey command hash later later1 Hl Hw) as [n' Hlk].
    cbv zeta in Hlk. rewrite Hfile in Hlk.
    rewrite (lookup_terminal _ _ _ _ response _ (clock (Locked.disk_env d1))) in Hlk;
      [eexists; exact Hlk|rewrite Hkept; apply lookup_insert_eq|exact Hage|exact Hst].
  - apply complete_cases.
  - intros d1 entry Ha Hw Hshown Hne.
    destruct (complete_granted idempotencyKey command hash response d d1 Ha Hw) as [n Hc].
    cbv zeta in Hc. rewrite Hc. unfold visible in Hshown. unfold Store.complete.
    destruct (Store.loadDataUnlocked _ _) as [data f1]. cbn [fst] in Hshown.
    cbv zeta. rewrite Hshown. apply String.eqb_neq in Hne. rewrite Hne. cbn [negb fst snd].
    eexists. split; reflexivity.
Qed.

End Facts.

(* ===================================================================== *)
(** ** Properties of the coordinator on the store behind its lock          *)
(* ===================================================================== *)

Section Coordinator.
Context {Shape Resp : Type} `{JsonCodec Resp} `{RequestHash Shape}.
Variable fs : Locked.FileSystem.

Abbreviation pollLoop := (Locked.pollLoop (Resp := Resp) fs).
Abbreviation awaitReservation :=
  (Locked.awaitReservation (Resp := Resp) fs).
Abbreviation acquireReservation :=
  (Locked.acquireReservation (Shape := Shape) (Resp := Resp) fs).
Abbreviation executeMutationWithIdempotency :=
  (Locked.executeMutationWithIdempotency (Shape := Shape) (Resp := Resp)
     fs).
Abbreviation release := (Locked.release fs).

(** *** Store operations leave the books of the invocation alone *)

Lemma locked_onStore_books {A} (op : Prog Locked.Disk A) s o s' :
  Locked.onStore op s = Some (o, s') -> sameBooks (Locked.frame s) (Locked.frame s').
Proof.
  unfold Locked.onStore. destruct (op _) as [[o' d']|]; [|discriminate].
  intros [= <- <-]. repeat split.
Qed.

Lemma locked_pollLoop_books (fuel : nat) (deadline : Z) (key command hash : string) s o s' :
  pollLoop fuel deadline key command hash s = Some (o, s') ->
  sameBooks (Locked.frame s) (Locked.frame s').
Proof.
  revert s. induction fuel as [|fuel IH]; intros s.
  - cbn [Locked.pollLoop]. unfold bind, Locked.step, Mutation.dateNow.
    destruct (_ <? _); [discriminate|]. intros [= <- <-]. apply MutationMore.sameBooks_refl.
  - cbn [Locked.pollLoop]. unfold bind at 1. unfold Locked.step at 1, Mutation.dateNow.
    destruct (_ <? _); [|intros [= <- <-]; apply MutationMore.sameBooks_refl].
    unfold bind at 1. unfold Locked.step at 1, sleep, modify. cbv beta iota.
    unfold bind at 1. unfold Locked.store_lookup at 1.
    match goal with |- context [Locked.onStore ?op ?s1] =>
      destruct (Locked.onStore op s1) as [[[current|err] s2]|] eqn:El; [| |discriminate]
    end.
    + apply locked_onStore_books in El. cbn [Locked.frame] in El.
      assert (Hb : sameBooks (Locked.frame s) (Locked.frame s2))
        by (eapply MutationMore.sameBooks_trans; [|exact El]; repeat split).
      destruct current.
      * unfold bind, ret, Locked.store_reserve.
        destruct (Locked.onStore _ s2) as [[[l|err] s3]|] eqn:Er; [| |discriminate];
          intros [= <- <-]; apply locked_onStore_books in Er; eapply MutationMore.sameBooks_trans; eassumption.
      * intros Hrec. apply IH in Hrec. eapply MutationMore.sameBooks_trans; eassumption.
      * intros [= <- <-]. exact Hb.
      * intros [= <- <-]. exact Hb.
    + intros [= <- <-]. apply locked_onStore_books in El. cbn [Locked.frame] in El.
      eapply MutationMore.sameBooks_trans; [|exact El]. repeat split.
Qed.

Lemma locked_awaitReservation_books (fuel : nat) (lookup0 : IdempotencyReservation Resp)
    (key command hash : string) s o s' :
  awaitReservation fuel lookup0 key command hash s = Some (o, s') ->
  sameBooks (Locked.frame s) (Locked.frame s').
Proof.
  revert lookup0 s. induction fuel as [|fuel IH]; intros lookup0 s.
  - destruct lookup0; cbn [Locked.awaitReservation]; try discriminate;
      intros [= <- <-]; apply MutationMore.sameBooks_refl.
  - destruct lookup0; cbn [Locked.awaitReservation];
      try (intros [= <- <-]; apply MutationMore.sameBooks_refl).
    unfold bind at 1. unfold Locked.step at 1, Mutation.dateNow. unfold bind at 1.
    destruct (Locked.pollLoop _ _ _ _ _ _ _) as [[[resolved|err] s1]|] eqn:Ep;
      [| |discriminate].
    + apply locked_pollLoop_books in Ep. cbn [Locked.frame] in Ep. destruct resolved as [l|].
      * intros [= <- <-]. exact Ep.
      * unfold bind at 1. unfold Locked.store_reserve at 1.
        destruct (Locked.onStore _ s1) as [[[l|err] s2]|] eqn:Er; [| |discriminate].
        -- apply locked_onStore_books in Er.
           assert (Hb : sameBooks (Locked.frame s) (Locked.frame s2))
             by (eapply MutationMore.sameBooks_trans; eassumption).
           destruct l; try (intros Hrec; apply IH in Hrec; eapply MutationMore.sameBooks_trans; eassumption).
           intros [= <- <-]. exact Hb.
        -- intros [= <- <-]. apply locked_onStore_books in Er. eapply MutationMore.sameBooks_trans; eassumption.
    + intros [= <- <-]. apply locked_pollLoop_books in Ep. exact Ep.
Qed.

Lemma locked_acquireReservation_books (args : MutationArgs Shape Resp) key hash s o s' :
  acquireReservation args key hash s = Some (o, s') ->
  sameBooks (Locked.frame s) (Locked.frame s').
Proof.
  unfold Locked.acquireReservation, bind, Locked.store_reserve.
  destruct (Locked.onStore _ s) as [[[first|err] s1]|] eqn:Er; [| |discriminate].
  - intros Ha. apply locked_awaitReservation_books in Ha. apply locked_onStore_books in Er.
    eapply MutationMore.sameBooks_trans; eassumption.
  - intros [= <- <-]. apply locked_onStore_books in Er. exact Er.
Qed.

Lemma locked_attempt_owned (args : MutationArgs Shape Resp) key hash s0 s1 lookup1 :
  acquireReservation args key hash s0 = Some (Returned lookup1, s1) ->
  ownedBy lookup1 = true ->
  Locked.attempt fs args key hash s0
  = Locked.runOwned fs args key hash s1.
Proof.
  intros Hacq Hown. unfold Locked.attempt. rewrite (bind_Returned _ _ _ _ _ Hacq).
  destruct lookup1; try discriminate Hown; reflexivity.
Qed.

(** The failure handler: [release] when the reservation is owned, then the
    audit record and the error; or the error of [release]. *)
Lemma onFailure_owned (args : MutationArgs Shape Resp) key hash error s released d' :
  ownsReservation (flags (Locked.frame s)) = true ->
  release key (commandName args) hash
    (Locked.mkDisk (env (Locked.frame s)) (Locked.asked s)) = Some (released, d') ->
  Locked.onFailure fs args key hash error s
  = match released with
    | Returned _ =>
        let fr := Locked.frame s in
        Some (Threw error,
              Locked.mkSession
                (mkFrame (Locked.disk_env d') (runCalls fr) (recoverCalls fr)
                   (auditLog fr
                    ++ [auditOf args key false (Some (flags fr, outcomeUncertain (flags fr)))
                                (clock (Locked.disk_env d'))])
                   (flags fr))
                (Locked.requests d'))
    | Threw storeError =>
        Some (Threw storeError,
              Locked.mkSession (withEnv (Locked.disk_env d') (Locked.frame s))
                               (Locked.requests d'))
    end.
Proof.
  intros Hown Hrel.
  unfold Locked.onFailure. unfold bind at 1. unfold get at 1. rewrite Hown.
  unfold bind at 1. unfold Locked.store_release, Locked.onStore. rewrite Hrel.
  destruct released as [[]|storeError]; reflexivity.
Qed.

(** An invocation that owns the reservation and whose guarded [run] ends
    with an error goes to the failure handler with that error. *)
Lemma execute_owned_failure (args : MutationArgs Shape Resp) s0 s1 lookup1 e fr2 :
  let requestHash := hashObject (requestShape args) in
  let idempotencyKey :=
    buildInternalIdempotencyKey (clock (env (Locked.frame s0))) (commandName args)
                                (requestShape args) in
  acquireReservation args idempotencyKey requestHash
    (Locked.mkSession (withFlags (fun _ => noFlags) (Locked.frame s0)) (Locked.asked s0))
    = Some (Returned lookup1, s1) ->
  ownedBy lookup1 = true ->
  tryCatch (callRun (run args)) (onRunError args)
           (withFlags setOwnsReservation (Locked.frame s1)) = Some (Threw e, fr2) ->
  executeMutationWithIdempotency args s0
  = Locked.onFailure fs args idempotencyKey requestHash e
      (Locked.mkSession fr2 (Locked.asked s1)).
Proof.
  intros requestHash idempotencyKey Hacq Hown Hguard.
  unfold Locked.executeMutationWithIdempotency. fold requestHash idempotencyKey.
  unfold tryCatch at 1. rewrite (locked_attempt_owned _ _ _ _ _ _ Hacq Hown).
  unfold Locked.runOwned. unfold bind at 1. unfold Locked.step at 1, setFlag, modify.
  cbv beta iota. unfold bind at 1. unfold Locked.step at 1. cbn [Locked.frame Locked.asked].
  rewrite Hguard. reflexivity.
Qed.

(** *** Failures of [run] *)

(** C2, as amended. Whenever the coordinator owns the reservation and
    [run] throws an ambiguous error, and [recover] is absent, returns null
    or throws, the coordinator calls [release] and neither [complete] nor
    [run] again.  When [release] returns, the invocation throws the one
    retryable "outcome could not be confirmed" error, whatever the error of
    [run] was, and the audit record says [ok = false],
    [outcome_uncertain = true].  When [release] throws (the lock is not
    acquired, or the store file cannot be written), its error reaches the
    caller instead and no audit record is written. *)
Theorem ambiguous_failure_is_unconfirmed
    (args : MutationArgs Shape Resp) (s0 s1 : Locked.Session)
    (lookup1 : IdempotencyReservation Resp) (error : Thrown) (e2 : Env) :
  let requestHash := hashObject (requestShape args) in
  let idempotencyKey :=
    buildInternalIdempotencyKey (clock (env (Locked.frame s0))) (commandName args)
                                (requestShape args) in
  acquireReservation args idempotencyKey requestHash
    (Locked.mkSession (withFlags (fun _ => noFlags) (Locked.frame s0)) (Locked.asked s0))
    = Some (Returned lookup1, s1) ->
  ownedBy lookup1 = true ->
  run args (env (Locked.frame s1)) = (Threw error, e2) ->
  isAmbiguousMutationError error (isAmbiguousError args) = true ->
  recoveryFails args e2 ->
  exists released d3,
    release idempotencyKey (commandName args) requestHash
      (Locked.mkDisk (afterRecover args e2) (Locked.asked s1)) = Some (released, d3)
    /\ match released with
       | Returned _ =>
           exists sEnd event,
             executeMutationWithIdempotency args s0 = Some (Threw unconfirmedError, sEnd)
             /\ code unconfirmedError = Some "retryable_upstream"
             /\ retryable unconfirmedError = true
             /\ env (Locked.frame sEnd) = Locked.disk_env d3
             /\ runCalls (Locked.frame sEnd) = S (runCalls (Locked.frame s0))
             /\ auditLog (Locked.frame sEnd) = auditLog (Locked.frame s0) ++ [event]
             /\ ev_ok event = false
             /\ ev_outcome_uncertain event = Some true
       | Threw storeError =>
           (Locked.lockError fs storeError
            \/ exists n, Locked.writeStore fs n = Threw storeError)
           /\ exists sEnd,
                executeMutationWithIdempotency args s0 = Some (Threw storeError, sEnd)
                /\ env (Locked.frame sEnd) = Locked.disk_env d3
                /\ runCalls (Locked.frame sEnd) = S (runCalls (Locked.frame s0))
                /\ auditLog (Locked.frame sEnd) = auditLog (Locked.frame s0)
       end.
Proof.
  intros requestHash idempotencyKey Hacq Hown Hrun Hamb Hrec.
  destruct (locked_acquireReservation_books _ _ _ _ _ _ Hacq) as (Hr & Hc & Ha & Hf).
  cbn [Locked.frame runCalls recoverCalls auditLog flags withFlags] in Hr, Hc, Ha, Hf.
  destruct (release_cases fs idempotencyKey (commandName args)
              requestHash (Locked.mkDisk (afterRecover args e2) (Locked.asked s1)))
    as (released & d3 & Hrel & Hwhy).
  exists released, d3. split; [exact Hrel|].
  rewrite (execute_owned_failure args s0 s1 lookup1 _ _ Hacq Hown
             (MutationFacts.guardedRun_unconfirmed args
                (withFlags setOwnsReservation (Locked.frame s1)) error e2 Hrun Hamb Hrec)).
  fold requestHash idempotencyKey.
  match goal with
  | |- context [Locked.onFailure _ _ _ _ ?err ?s] =>
      rewrite (onFailure_owned args idempotencyKey requestHash err s released d3 eq_refl Hrel)
  end.
  destruct released as [[]|storeError].
  - do 2 eexists. split; [reflexivity|]. cbn. rewrite Hr, Ha. repeat split.
  - split; [exact (Hwhy storeError eq_refl)|].
    eexists. split; [reflexivity|]. cbn. rewrite Hr, Ha. repeat split.
Qed.

(** X13. When the coordinator owns the reservation and [run] throws an
    error that is not ambiguous, [recover] is not called and the
    coordinator calls [release].  When [release] returns, the caller gets
    the very error of [run], and the one audit record says [ok = false]
    with neither recovery attempted nor the outcome uncertain.  When
    [release] throws, the caller gets the error of [release] and no audit
    record is written. *)
Theorem plain_failure_propagates
    (args : MutationArgs Shape Resp) (s0 s1 : Locked.Session)
    (lookup1 : IdempotencyReservation Resp) (error : Thrown) (e2 : Env) :
  let requestHash := hashObject (requestShape args) in
  let idempotencyKey :=
    buildInternalIdempotencyKey (clock (env (Locked.frame s0))) (commandName args)
                                (requestShape args) in
  acquireReservation args idempotencyKey requestHash
    (Locked.mkSession (withFlags (fun _ => noFlags) (Locked.frame s0)) (Locked.asked s0))
    = Some (Returned lookup1, s1) ->
  ownedBy lookup1 = true ->
  run args (env (Locked.frame s1)) = (Threw error, e2) ->
  isAmbiguousMutationError error (isAmbiguousError args) = false ->
  exists released d3,
    release idempotencyKey (commandName args) requestHash
      (Locked.mkDisk e2 (Locked.asked s1)) = Some (released, d3)
    /\ match released with
       | Returned _ =>
           exists sEnd event,
             executeMutationWithIdempotency args s0 = Some (Threw error, sEnd)
             /\ env (Locked.frame sEnd) = Locked.disk_env d3
             /\ runCalls (Locked.frame sEnd) = S (runCalls (Locked.frame s0))
             /\ recoverCalls (Locked.frame sEnd) = recoverCalls (Locked.frame s0)
             /\ auditLog (Locked.frame sEnd) = auditLog (Locked.frame s0) ++ [event]
             /\ ev_ok event = false
             /\ ev_recovery_attempted event = Some false
             /\ ev_outcome_uncertain event = Some false
       | Threw storeError =>
           (Locked.lockError fs storeError
            \/ exists n, Locked.writeStore fs n = Threw storeError)
           /\ exists sEnd,
                executeMutationWithIdempotency args s0 = Some (Threw storeError, sEnd)
                /\ env (Locked.frame sEnd) = Locked.disk_env d3
                /\ runCalls (Locked.frame sEnd) = S (runCalls (Locked.frame s0))
                /\ recoverCalls (Locked.frame sEnd) = recoverCalls (Locked.frame s0)
                /\ auditLog (Locked.frame sEnd) = auditLog (Locked.frame s0)
       end.
Proof.
  intros requestHash idempotencyKey Hacq Hown Hrun Hamb.
  destruct (locked_acquireReservation_books _ _ _ _ _ _ Hacq) as (Hr & Hc & Ha & Hf).
  cbn [Locked.frame runCalls recoverCalls auditLog flags withFlags] in Hr, Hc, Ha, Hf.
  destruct (release_cases fs idempotencyKey (commandName args)
              requestHash (Locked.mkDisk e2 (Locked.asked s1)))
    as (released & d3 & Hrel & Hwhy).
  exists released, d3. split; [exact Hrel|].
  assert (Hguard : tryCatch (callRun (run args)) (onRunError args)
                     (withFlags setOwnsReservation (Locked.frame s1))
                   = Some (Threw error,
                           mkFrame e2 (S (runCalls (Locked.frame s1)))
                             (recoverCalls (Locked.frame s1)) (auditLog (Locked.frame s1))
                             (setOwnsReservation (flags (Locked.frame s1))))).
  { unfold tryCatch, callRun. cbn [env withFlags]. rewrite Hrun. cbv beta iota.
    unfold onRunError. rewrite Hamb. reflexivity. }
  rewrite (execute_owned_failure args s0 s1 lookup1 _ _ Hacq Hown Hguard).
  fold requestHash idempotencyKey.
  match goal with
  | |- context [Locked.onFailure _ _ _ _ ?err ?s] =>
      rewrite (onFailure_owned args idempotencyKey requestHash err s released d3 eq_refl Hrel)
  end.
  destruct released as [[]|storeError].
  - do 2 eexists. split; [reflexivity|]. cbn. rewrite Hr, Hc, Ha, Hf. repeat split.
  - split; [exact (Hwhy storeError eq_refl)|].
    eexists. split; [reflexivity|]. cbn. rewrite Hr, Hc, Ha. repeat split.
Qed.

(** *** Every invocation ends *)

Lemma locked_pollLoop_total (fuel : nat) (deadline : Z) (key command hash : string) s :
  deadline - clock (env (Locked.frame s)) <= 50 * Z.of_nat fuel ->
  exists out, pollLoop fuel deadline key command hash s = Some out.
Proof.
  revert s. induction fuel as [|fuel IH]; intros s Hfuel.
  - cbn [Locked.pollLoop]. unfold bind, Locked.step, Mutation.dateNow.
    replace (clock (env (Locked.frame s)) <? deadline) with false
      by (symmetry; apply Z.ltb_ge; lia).
    eexists. reflexivity.
  - cbn [Locked.pollLoop]. unfold bind at 1. unfold Locked.step at 1, Mutation.dateNow.
    destruct (clock (env (Locked.frame s)) <? deadline); [|eexists; reflexivity].
    unfold bind at 1. unfold Locked.step at 1, sleep, modify. cbv beta iota.
    unfold bind at 1. unfold Locked.store_lookup, Locked.onStore at 1.
    cbn [Locked.frame Locked.asked env withEnv].
    match goal with |- context [Locked.lookup fs key command hash ?d] =>
      destruct (lookup_total fs key command hash d) as ([current|err] & d' & -> & Hc)
    end; [|eexists; reflexivity].
    cbn [Locked.disk_env clock] in Hc.
    destruct current; try (eexists; reflexivity).
    + unfold bind, Locked.store_reserve, Locked.onStore, ret.
      match goal with |- context [Locked.reserve fs key command hash ?d] =>
        destruct (reserve_total fs key command hash d) as ([l|err] & d'' & -> & _)
      end; eexists; reflexivity.
    + apply IH. cbn [Locked.frame env withEnv]. lia.
Qed.

Lemma locked_awaitReservation_total (lookup0 : IdempotencyReservation Resp)
    (key command hash : string) s :
  exists out, awaitReservation 2 lookup0 key command hash s = Some out.
Proof.
  destruct lookup0; try (eexists; reflexivity).
  cbn [Locked.awaitReservation]. unfold bind at 1. unfold Locked.step at 1, Mutation.dateNow.
  unfold bind at 1.
  match goal with |- context [Locked.pollLoop fs 300 ?deadline key command hash ?s1] =>
    destruct (locked_pollLoop_total 300 deadline key command hash s1
                ltac:(cbn [Locked.frame]; lia)) as [[[resolved|err] s'] ->]
  end; [|eexists; reflexivity].
  destruct resolved as [l|]; [eexists; reflexivity|].
  unfold bind, Locked.store_reserve, Locked.onStore.
  match goal with |- context [Locked.reserve fs key command hash ?d] =>
    destruct (reserve_total fs key command hash d) as ([l|err] & d'' & -> & _)
  end; [|eexists; reflexivity].
  destruct l; eexists; reflexivity.
Qed.

Lemma locked_onFailure_total (args : MutationArgs Shape Resp) key hash error s :
  exists out, Locked.onFailure fs args key hash error s = Some out.
Proof.
  unfold Locked.onFailure. unfold bind at 1. unfold get at 1.
  destruct (ownsReservation (flags (Locked.frame s))) eqn:Hown.
  - unfold bind at 1. unfold Locked.store_release, Locked.onStore.
    destruct (release_cases fs key (commandName args) hash
                (Locked.mkDisk (env (Locked.frame s)) (Locked.asked s)))
      as ([[]|err] & d' & -> & _); eexists; reflexivity.
  - eexists. reflexivity.
Qed.

Lemma locked_persistAndReport_total (args : MutationArgs Shape Resp) key hash response s :
  exists sEnd,
    Locked.persistAndReport fs args key hash response s = Some (Returned response, sEnd).
Proof.
  unfold Locked.persistAndReport, bind, tryCatch, Locked.store_complete, Locked.onStore,
    get, Locked.step, safeAppendAuditLog, setFlag, modify, ret.
  destruct (complete_cases fs key (commandName args) hash response
              (Locked.mkDisk (env (Locked.frame s)) (Locked.asked s)))
    as ([[]|err] & d' & -> & _); eexists; reflexivity.
Qed.

(** The invocation returns or throws: no loop of the coordinator or of
    the lock runs out of fuel. *)
Lemma locked_execute_total (args : MutationArgs Shape Resp) s0 :
  exists out, executeMutationWithIdempotency args s0 = Some out.
Proof.
  unfold Locked.executeMutationWithIdempotency.
  set (hash := hashObject (requestShape args)).
  set (key := buildInternalIdempotencyKey _ _ _).
  set (s1 := Locked.mkSession _ _).
  pose proof (locked_onFailure_total args key hash) as Hfail.
  unfold tryCatch at 1, Locked.attempt, Locked.acquireReservation.
  unfold bind at 1. unfold bind at 1. unfold Locked.store_reserve at 1, Locked.onStore at 1.
  match goal with |- context [Locked.reserve fs key (commandName args) hash ?d] =>
    destruct (reserve_total fs key (commandName args) hash d) as ([first|err] & d' & -> & _)
  end; [|apply Hfail].
  match goal with |- context [Locked.awaitReservation fs 2 first key (commandName args) hash ?s] =>
    destruct (locked_awaitReservation_total first key (commandName args) hash s)
      as [[[l|err] s2] ->]
  end; [|apply Hfail].
  assert (Hown : exists out,
    match Locked.runOwned fs args key hash s2 with
    | Some (Returned a, s') => Some (Returned a, s')
    | Some (Threw e, s') => Locked.onFailure fs args key hash e s'
    | None => None
    end = Some out).
  { unfold Locked.runOwned. unfold bind at 1. unfold Locked.step at 1, setFlag, modify.
    cbv beta iota. unfold bind at 1. unfold Locked.step at 1.
    cbn [Locked.frame Locked.asked].
    destruct (tryCatch (callRun (run args)) (onRunError args)
                       (withFlags setOwnsReservation (Locked.frame s2)))
      as [[[response|err] fr3]|] eqn:Eg.
    - destruct (locked_persistAndReport_total args key hash response
                  (Locked.mkSession fr3 (Locked.asked s2))) as [sEnd ->].
      eexists. reflexivity.
    - apply Hfail.
    - exfalso. revert Eg. unfold tryCatch, callRun.
      destruct (run args _) as [[r|err] e1]; [discriminate|].
      unfold onRunError.
      destruct (negb _); [discriminate|].
      destruct (recover args) as [rc|]; [|discriminate].
      unfold tryCatch, bind, callRecover, setFlag, modify, throw, ret.
      destruct (rc _) as [[[r|]|err3] e3]; discriminate. }
  destruct l; try exact Hown.
  - eexists. reflexivity.
  - apply Hfail.
Qed.

(** *** One audit record *)

Ltac settle Hr Hc :=
  cbn [runCalls recoverCalls auditLog flags withFlags setOwnsReservation
         setRecoveryAttempted setRecoverySucceeded setOutcomeUncertain ownsReservation];
  rewrite ?Hr, ?Hc; auto; try (right; split; [reflexivity|congruence]).

(** X17. Every invocation ends, returning or throwing, and whatever path
    it takes it writes at most one audit record, [run] is called at most
    once, and [recover] at most once and only after [run], when a [recover]
    callback was given.  The invocation writes exactly one record, which
    carries the command name, the request id and the idempotency key and
    whose [ok] says whether a response was returned, unless [release]
    throws in the failure handler: then the caller gets the error of
    [release] and no record is written. *)
Theorem one_audit_record_per_invocation
    (args : MutationArgs Shape Resp) (s0 : Locked.Session) :
  let requestHash := hashObject (requestShape args) in
  let idempotencyKey :=
    buildInternalIdempotencyKey (clock (env (Locked.frame s0))) (commandName args)
                                (requestShape args) in
  let fr0 := Locked.frame s0 in
  exists o sEnd,
    executeMutationWithIdempotency args s0 = Some (o, sEnd)
    /\ (runCalls (Locked.frame sEnd) = runCalls fr0
        \/ runCalls (Locked.frame sEnd) = S (runCalls fr0))
    /\ (recoverCalls (Locked.frame sEnd) = recoverCalls fr0
        \/ (recoverCalls (Locked.frame sEnd) = S (recoverCalls fr0)
            /\ runCalls (Locked.frame sEnd) = S (runCalls fr0)
            /\ recover args <> None))
    /\ ((exists event,
           auditLog (Locked.frame sEnd) = auditLog fr0 ++ [event]
           /\ ev_ok event = match o with Returned _ => true | Threw _ => false end
           /\ ev_command event = commandName args
           /\ ev_request_id event = requestId args
           /\ ev_idempotency_key event = idempotencyKey)
        \/ (auditLog (Locked.frame sEnd) = auditLog fr0
            /\ runCalls (Locked.frame sEnd) = S (runCalls fr0)
            /\ exists d d' storeError,
                 release idempotencyKey (commandName args) requestHash d
                   = Some (Threw storeError, d')
                 /\ (Locked.lockError fs storeError
                     \/ exists n, Locked.writeStore fs n = Threw storeError)
                 /\ o = Threw storeError)).
Proof.
  intros requestHash idempotencyKey fr0. subst fr0.
  destruct (locked_execute_total args s0) as [[o sEnd] Hexec].
  exists o, sEnd. split; [exact Hexec|]. revert Hexec.
  unfold Locked.executeMutationWithIdempotency. fold requestHash idempotencyKey.
  unfold tryCatch at 1. unfold Locked.attempt. unfold bind at 1.
  destruct (Locked.acquireReservation _ _ _ _ _) as [[[lookup1|err] s1]|] eqn:Hacq;
    [| |discriminate].
  2:{ destruct (locked_acquireReservation_books _ _ _ _ _ _ Hacq) as (Hr & Hc & Ha & Hf).
      cbn [Locked.frame runCalls recoverCalls auditLog flags withFlags] in Hr, Hc, Ha, Hf.
      unfold Locked.onFailure, bind, get, Locked.step, safeAppendAuditLog, modify, throw.
      rewrite Hf. cbn [ownsReservation noFlags]. unfold ret.
      intros [= <- <-]. cbn. rewrite Hr, Hc, Ha.
      split; [left; reflexivity|]. split; [left; reflexivity|].
      left. eexists. repeat split. }
  destruct (locked_acquireReservation_books _ _ _ _ _ _ Hacq) as (Hr & Hc & Ha & Hf).
  cbn [Locked.frame runCalls recoverCalls auditLog flags withFlags] in Hr, Hc, Ha, Hf.
  assert (Hown : forall o sEnd,
    match Locked.runOwned fs args idempotencyKey requestHash s1
    with
    | Some (Returned a, s') => Some (Returned a, s')
    | Some (Threw e, s') =>
        Locked.onFailure fs args idempotencyKey requestHash e s'
    | None => None
    end = Some (o, sEnd) ->
    (runCalls (Locked.frame sEnd) = runCalls (Locked.frame s0)
     \/ runCalls (Locked.frame sEnd) = S (runCalls (Locked.frame s0)))
    /\ (recoverCalls (Locked.frame sEnd) = recoverCalls (Locked.frame s0)
        \/ (recoverCalls (Locked.frame sEnd) = S (recoverCalls (Locked.frame s0))
            /\ runCalls (Locked.frame sEnd) = S (runCalls (Locked.frame s0))
            /\ recover args <> None))
    /\ ((exists event,
           auditLog (Locked.frame sEnd) = auditLog (Locked.frame s0) ++ [event]
           /\ ev_ok event = match o with Returned _ => true | Threw _ => false end
           /\ ev_command event = commandName args
           /\ ev_request_id event = requestId args
           /\ ev_idempotency_key event = idempotencyKey)
        \/ (auditLog (Locked.frame sEnd) = auditLog (Locked.frame s0)
            /\ runCalls (Locked.frame sEnd) = S (runCalls (Locked.frame s0))
            /\ exists d d' storeError,
                 release idempotencyKey (commandName args) requestHash d
                   = Some (Threw storeError, d')
                 /\ (Locked.lockError fs storeError
                     \/ exists n, Locked.writeStore fs n = Threw storeError)
                 /\ o = Threw storeError))).
  { clear o sEnd. intros o sEnd.
    assert (Hfail : forall error fr2,
      ownsReservation (flags fr2) = true ->
      runCalls fr2 = S (runCalls (Locked.frame s0)) ->
      (recoverCalls fr2 = recoverCalls (Locked.frame s0)
       \/ (recoverCalls fr2 = S (recoverCalls (Locked.frame s0)) /\ recover args <> None)) ->
      auditLog fr2 = auditLog (Locked.frame s0) ->
      Locked.onFailure fs args idempotencyKey requestHash
        error (Locked.mkSession fr2 (Locked.asked s1)) = Some (o, sEnd) ->
      (runCalls (Locked.frame sEnd) = runCalls (Locked.frame s0)
       \/ runCalls (Locked.frame sEnd) = S (runCalls (Locked.frame s0)))
      /\ (recoverCalls (Locked.frame sEnd) = recoverCalls (Locked.frame s0)
          \/ (recoverCalls (Locked.frame sEnd) = S (recoverCalls (Locked.frame s0))
              /\ runCalls (Locked.frame sEnd) = S (runCalls (Locked.frame s0))
              /\ recover args <> None))
      /\ ((exists event,
             auditLog (Locked.frame sEnd) = auditLog (Locked.frame s0) ++ [event]
             /\ ev_ok event = match o with Returned _ => true | Threw _ => false end
             /\ ev_command event = commandName args
             /\ ev_request_id event = requestId args
             /\ ev_idempotency_key event = idempotencyKey)
          \/ (auditLog (Locked.frame sEnd) = auditLog (Locked.frame s0)
              /\ runCalls (Locked.frame sEnd) = S (runCalls (Locked.frame s0))
              /\ exists d d' storeError,
                   release idempotencyKey (commandName args) requestHash d
                     = Some (Threw storeError, d')
                   /\ (Locked.lockError fs storeError
                       \/ exists n, Locked.writeStore fs n = Threw storeError)
                   /\ o = Threw storeError))).
    { intros error fr2 Howned Hruns Hrecs Hlog.
      destruct (release_cases fs idempotencyKey
                  (commandName args) requestHash
                  (Locked.mkDisk (env fr2) (Locked.asked s1)))
        as (released & d3 & Hrel & Hwhy).
      rewrite (onFailure_owned args idempotencyKey requestHash error
                 (Locked.mkSession fr2 (Locked.asked s1)) released d3 Howned Hrel).
      destruct released as [[]|storeError]; intros [= <- <-];
        cbn [Locked.frame runCalls recoverCalls auditLog withEnv]; rewrite Hruns, Hlog.
      - split; [right; reflexivity|].
        split; [destruct Hrecs as [->|[-> Hrc]]; [left; reflexivity|right; auto]|].
        left. eexists. repeat split.
      - split; [right; reflexivity|].
        split; [destruct Hrecs as [->|[-> Hrc]]; [left; reflexivity|right; auto]|].
        right. split; [reflexivity|]. split; [reflexivity|].
        exists (Locked.mkDisk (env fr2) (Locked.asked s1)), d3, storeError.
        split; [exact Hrel|]. split; [exact (Hwhy storeError eq_refl)|reflexivity]. }
    assert (Hdone : forall response fr2,
      runCalls fr2 = S (runCalls (Locked.frame s0)) ->
      (recoverCalls fr2 = recoverCalls (Locked.frame s0)
       \/ (recoverCalls fr2 = S (recoverCalls (Locked.frame s0)) /\ recover args <> None)) ->
      auditLog fr2 = auditLog (Locked.frame s0) ->
      match Locked.persistAndReport fs args idempotencyKey
              requestHash response (Locked.mkSession fr2 (Locked.asked s1))
      with
      | Some (Returned a, s') => Some (Returned a, s')
      | Some (Threw e, s') =>
          Locked.onFailure fs args idempotencyKey
            requestHash e s'
      | None => None
      end = Some (o, sEnd) ->
      (runCalls (Locked.frame sEnd) = runCalls (Locked.frame s0)
       \/ runCalls (Locked.frame sEnd) = S (runCalls (Locked.frame s0)))
      /\ (recoverCalls (Locked.frame sEnd) = recoverCalls (Locked.frame s0)
          \/ (recoverCalls (Locked.frame sEnd) = S (recoverCalls (Locked.frame s0))
              /\ runCalls (Locked.frame sEnd) = S (runCalls (Locked.frame s0))
              /\ recover args <> None))
      /\ ((exists event,
             auditLog (Locked.frame sEnd) = auditLog (Locked.frame s0) ++ [event]
             /\ ev_ok event = match o with Returned _ => true | Threw _ => false end
             /\ ev_command event = commandName args
             /\ ev_request_id event = requestId args
             /\ ev_idempotency_key event = idempotencyKey)
          \/ (auditLog (Locked.frame sEnd) = auditLog (Locked.frame s0)
              /\ runCalls (Locked.frame sEnd) = S (runCalls (Locked.frame s0))
              /\ exists d d' storeError,
                   release idempotencyKey (commandName args) requestHash d
                     = Some (Threw storeError, d')
                   /\ (Locked.lockError fs storeError
                       \/ exists n, Locked.writeStore fs n = Threw storeError)
                   /\ o = Threw storeError))).
    { intros response fr2 Hruns Hrecs Hlog.
      unfold Locked.persistAndReport, bind, tryCatch, Locked.store_complete, Locked.onStore,
        get, Locked.step, safeAppendAuditLog, setFlag, modify, ret.
      cbn [Locked.frame Locked.asked].
      destruct (Locked.complete _ _ _ _ _ _) as [[[[]|err] d']|]; [| |discriminate];
        intros [= <- <-];
        cbn [Locked.frame runCalls recoverCalls auditLog withEnv withFlags];
        rewrite Hruns, Hlog;
        (split; [right; reflexivity|]);
        (split; [destruct Hrecs as [->|[-> Hrc]]; [left; reflexivity|right; auto]|]);
        left; eexists; repeat split. }
    unfold Locked.runOwned. unfold bind at 1. unfold Locked.step at 1, setFlag, modify.
    cbv beta iota. unfold bind at 1. unfold Locked.step at 1.
    cbn [Locked.frame Locked.asked].
    unfold tryCatch at 1. unfold callRun. cbn [env withFlags].
    destruct (run args (env (Locked.frame s1))) as [[response|err] e1].
    - cbv beta iota. apply Hdone; settle Hr Hc.
    - cbv beta iota. unfold onRunError.
      destruct (negb _).
      + unfold throw at 1. cbv beta iota. apply Hfail; settle Hr Hc.
      + destruct (recover args) as [rc|] eqn:Hrc.
        * unfold bind at 1. unfold setFlag at 1, modify. cbv beta iota.
          unfold tryCatch at 1. unfold bind at 1. unfold callRecover.
          cbn [env withFlags runCalls recoverCalls auditLog flags].
          destruct (rc e1) as [[[response|]|err'] e2]; cbv beta iota.
          -- unfold bind at 1. unfold setFlag at 1, modify, ret. cbv beta iota.
             apply Hdone; settle Hr Hc.
          -- unfold bind at 1. unfold setFlag at 1, modify, throw. cbv beta iota.
             apply Hfail; settle Hr Hc.
          -- unfold bind at 1. unfold setFlag at 1, modify, throw. cbv beta iota.
             apply Hfail; settle Hr Hc.
        * unfold bind at 1. unfold setFlag at 1, modify. cbv beta iota.
          unfold bind at 1. unfold setFlag at 1, modify, throw. cbv beta iota.
          apply Hfail; settle Hr Hc. }
  destruct lookup1 as [| |response|storedHash]; try apply Hown.
  - unfold bind, Locked.step, Mutation.dateNow, safeAppendAuditLog, modify, ret.
    intros [= <- <-]. cbn. rewrite Hr, Hc, Ha.
    split; [left; reflexivity|]. split; [left; reflexivity|].
    left. eexists. repeat split.
  - unfold throw, Locked.onFailure, bind, get, Locked.step, safeAppendAuditLog, modify, ret.
    rewrite Hf. cbn [ownsReservation noFlags]. intros [= <- <-]. cbn. rewrite Hr, Hc, Ha.
    split; [left; reflexivity|]. split; [left; reflexivity|].
    left. eexists. repeat split.
Qed.

End Coordinator.

(* ===================================================================== *)
(** ** The two embeddings agree when the lock is free                      *)
(* ===================================================================== *)

Lemma agrees_ret {A} (a : A) : Locked.agrees (ret a) (ret a).
Proof. intros s o fr' [= <- <-]. exists (Locked.asked s). destruct s. reflexivity. Qed.

Lemma agrees_throw {A} (e : Thrown) : Locked.agrees (A := A) (throw e) (throw e).
Proof. intros s o fr' [= <- <-]. exists (Locked.asked s). destruct s. reflexivity. Qed.

Lemma agrees_step {A} (m : Prog Frame A) : Locked.agrees m (Locked.step m).
Proof.
  intros s o fr' Hm. exists (Locked.asked s). unfold Locked.step. rewrite Hm. reflexivity.
Qed.

Lemma agrees_bind {A B} (m : Prog Frame A) (m' : Prog Locked.Session A)
    (k : A -> Prog Frame B) (k' : A -> Prog Locked.Session B) :
  Locked.agrees m m' ->
  (forall a, Locked.agrees (k a) (k' a)) ->
  Locked.agrees (bind m k) (bind m' k').
Proof.
  intros Hm Hk s o fr'. unfold bind.
  destruct (m (Locked.frame s)) as [[[a|e] fr1]|] eqn:E; [| |discriminate].
  - destruct (Hm _ _ _ E) as [n ->]. intros Hka. exact (Hk a (Locked.mkSession fr1 n) _ _ Hka).
  - destruct (Hm _ _ _ E) as [n ->]. intros [= <- <-]. eauto.
Qed.

Lemma agrees_tryCatch {A} (m : Prog Frame A) (m' : Prog Locked.Session A)
    (h : Thrown -> Prog Frame A) (h' : Thrown -> Prog Locked.Session A) :
  Locked.agrees m m' ->
  (forall e, Locked.agrees (h e) (h' e)) ->
  Locked.agrees (tryCatch m h) (tryCatch m' h').
Proof.
  intros Hm Hh s o fr'. unfold tryCatch.
  destruct (m (Locked.frame s)) as [[[a|e] fr1]|] eqn:E; [| |discriminate].
  - destruct (Hm _ _ _ E) as [n ->]. intros [= <- <-]. eauto.
  - destruct (Hm _ _ _ E) as [n ->]. intros Hhe. exact (Hh e (Locked.mkSession fr1 n) _ _ Hhe).
Qed.

Lemma agrees_get {A} (k : Frame -> Prog Frame A)
    (k' : Locked.Session -> Prog Locked.Session A) :
  (forall s, Locked.agrees (k (Locked.frame s)) (k' s)) ->
  Locked.agrees (bind get k) (bind get k').
Proof. intros Hk s o fr'. unfold bind, get. apply Hk. Qed.

Section Agreement.
Context {Shape Resp : Type} `{JsonCodec Resp} `{RequestHash Shape}.
Variable fs : Locked.FileSystem.

(** The lock file can always be created at once, the other processes write
    the store file only while this one sleeps or runs a callback, and every
    write succeeds. *)
Hypothesis lock_free : Locked.lockFree fs.
Hypothesis writes_succeed : Locked.writesSucceed fs.

Lemma acquireLoop_free (fuel : nat) (deadline : Z) (d : Locked.Disk) :
  clock (Locked.disk_env d) < deadline ->
  Locked.acquireLoop fs (S fuel) deadline d
  = Some (Returned tt, Locked.mkDisk (Locked.disk_env d) (S (Locked.requests d))).
Proof.
  intros Hd. cbn [Locked.acquireLoop]. unfold bind at 1. unfold Locked.dateNow.
  replace (clock (Locked.disk_env d) <? deadline) with true
    by (symmetry; apply Z.ltb_lt; exact Hd).
  unfold bind, Locked.request. destruct (lock_free (Locked.requests d)) as [-> Hidle].
  unfold Locked.locked, modify. cbn [Locked.disk_env Locked.requests].
  rewrite Hidle. destruct d as [[t f] n]. reflexivity.
Qed.

Lemma acquireLock_free (d : Locked.Disk) :
  Locked.acquireLock fs d
  = Some (Returned tt, Locked.mkDisk (Locked.disk_env d) (S (Locked.requests d))).
Proof.
  unfold Locked.acquireLock, bind at 1, Locked.dateNow.
  apply (acquireLoop_free 1166). unfold Locked.LOCK_WAIT_TIMEOUT_MS. lia.
Qed.

Lemma agrees_onStore {A} (ideal : Z -> File -> Outcome A * File) (op : Prog Locked.Disk A) :
  (forall d d1,
     Locked.acquireLock fs d = Some (Returned tt, d1) ->
     exists n,
       op d = Some ((ideal (clock (Locked.disk_env d1)) (file (Locked.disk_env d1))).1,
                    Locked.mkDisk
                      (mkEnv (clock (Locked.disk_env d1))
                             (ideal (clock (Locked.disk_env d1)) (file (Locked.disk_env d1))).2)
                      n)) ->
  Locked.agrees (Mutation.onStore ideal) (Locked.onStore op).
Proof.
  intros Hop s o fr'. unfold Mutation.onStore, Locked.onStore.
  destruct (Hop _ _ (acquireLock_free (Locked.mkDisk (env (Locked.frame s)) (Locked.asked s))))
    as [n ->].
  cbn [Locked.disk_env Locked.requests].
  destruct (ideal _ _) as [o' f']. intros [= <- <-]. cbn [fst snd]. eauto.
Qed.

Lemma agrees_lookup (k c h : string) :
  Locked.agrees (Mutation.onStore (fun t => Store.lookup (Resp := Resp) t k c h))
                (Locked.store_lookup fs k c h).
Proof.
  apply agrees_onStore. intros d d1 Ha.
  exact (lookup_granted fs k c h d d1 Ha writes_succeed).
Qed.

Lemma agrees_reserve (k c h : string) :
  Locked.agrees (Mutation.onStore (fun t => Store.reserve (Resp := Resp) t k c h))
                (Locked.store_reserve fs k c h).
Proof.
  apply agrees_onStore. intros d d1 Ha.
  exact (reserve_granted fs k c h d d1 Ha writes_succeed).
Qed.

Lemma agrees_complete (k c h : string) (response : Resp) :
  Locked.agrees (Mutation.onStore (fun t => Store.complete t k c h response))
                (Locked.store_complete fs k c h response).
Proof.
  apply agrees_onStore. intros d d1 Ha.
  exact (complete_granted fs k c h response d d1 Ha
           writes_succeed).
Qed.

Lemma agrees_release (k c h : string) :
  Locked.agrees (Mutation.onStore (fun t => Store.release t k c h))
                (Locked.store_release fs k c h).
Proof.
  apply agrees_onStore. intros d d1 Ha.
  exact (release_granted fs k c h d d1 Ha writes_succeed).
Qed.

Lemma agrees_pollLoop (fuel : nat) (deadline : Z) (k c h : string) :
  Locked.agrees (Mutation.pollLoop (Resp := Resp) (Locked.others fs) fuel deadline k c h)
                (Locked.pollLoop fs fuel deadline k c h).
Proof.
  induction fuel as [|fuel IH]; cbn [Mutation.pollLoop Locked.pollLoop].
  - apply agrees_bind; [apply agrees_step|]. intros now.
    destruct (now <? deadline); [intros s o fr'; discriminate|apply agrees_ret].
  - apply agrees_bind; [apply agrees_step|]. intros now.
    destruct (now <? deadline); [|apply agrees_ret].
    apply agrees_bind; [apply agrees_step|]. intros _.
    apply agrees_bind; [apply agrees_lookup|]. intros current.
    destruct current.
    + apply agrees_bind; [apply agrees_reserve|]. intros l. apply agrees_ret.
    + exact IH.
    + apply agrees_ret.
    + apply agrees_ret.
Qed.

Lemma agrees_awaitReservation (fuel : nat) (lookup0 : IdempotencyReservation Resp)
    (k c h : string) :
  Locked.agrees (Mutation.awaitReservation (Locked.others fs) fuel lookup0 k c h)
                (Locked.awaitReservation fs fuel lookup0 k c h).
Proof.
  revert lookup0. induction fuel as [|fuel IH]; intros lookup0;
    destruct lookup0; cbn [Mutation.awaitReservation Locked.awaitReservation];
    try apply agrees_ret.
  - intros s o fr'. discriminate.
  - apply agrees_bind; [apply agrees_step|]. intros now.
    apply agrees_bind; [apply agrees_pollLoop|]. intros resolved.
    destruct resolved as [l|]; [apply agrees_ret|].
    apply agrees_bind; [apply agrees_reserve|]. intros l.
    destruct l; try apply IH. apply agrees_throw.
Qed.

(** With a free lock and succeeding writes, an invocation on the store
    behind its lock ends as the invocation of [Mutation] does: with the
    same outcome, in the same frame. *)
Lemma free_lock_agrees (args : MutationArgs Shape Resp) :
  Locked.agrees (Mutation.executeMutationWithIdempotency (Locked.others fs) args)
                (Locked.executeMutationWithIdempotency fs args).
Proof.
  intros s o fr'.
  unfold Mutation.executeMutationWithIdempotency, Locked.executeMutationWithIdempotency.
  set (requestHash := hashObject (requestShape args)).
  set (idempotencyKey := buildInternalIdempotencyKey _ _ _).
  intros Hm.
  refine (_ : exists n, _ (Locked.mkSession (withFlags (fun _ => noFlags) (Locked.frame s))
                                             (Locked.asked s)) = _).
  revert Hm.
  change (withFlags (fun _ => noFlags) (Locked.frame s))
    with (Locked.frame (Locked.mkSession (withFlags (fun _ => noFlags) (Locked.frame s))
                                         (Locked.asked s))) at 1.
  generalize (Locked.mkSession (withFlags (fun _ => noFlags) (Locked.frame s)) (Locked.asked s)).
  intros s1.
  revert s1 o fr'.
  change (Locked.agrees
            (tryCatch (Mutation.attempt (Locked.others fs) args idempotencyKey requestHash)
                      (Mutation.onFailure args idempotencyKey requestHash))
            (tryCatch (Locked.attempt fs args idempotencyKey
                         requestHash)
                      (Locked.onFailure fs args idempotencyKey
                         requestHash))).
  assert (Hpersist : forall response,
            Locked.agrees
              (Mutation.persistAndReport args idempotencyKey requestHash response)
              (Locked.persistAndReport fs args idempotencyKey
                 requestHash response)).
  { intros response. unfold Mutation.persistAndReport, Locked.persistAndReport.
    apply agrees_bind.
    - apply agrees_tryCatch; [apply agrees_complete|]. intros _. apply agrees_step.
    - intros _. apply agrees_get. intros s1.
      apply agrees_bind; [apply agrees_step|]. intros _. apply agrees_ret. }
  apply agrees_tryCatch.
  - unfold Mutation.attempt, Locked.attempt. apply agrees_bind.
    + unfold Mutation.acquireReservation, Locked.acquireReservation.
      apply agrees_bind; [apply agrees_reserve|]. intros first.
      apply agrees_awaitReservation.
    + assert (Hrun : Locked.agrees
                       (Mutation.runOwned args idempotencyKey requestHash)
                       (Locked.runOwned fs args idempotencyKey
                          requestHash)).
      { unfold Mutation.runOwned, Locked.runOwned.
        apply agrees_bind; [apply agrees_step|]. intros _.
        apply agrees_bind; [apply agrees_step|]. exact Hpersist. }
      intros lookup1. destruct lookup1; try exact Hrun.
      * apply agrees_bind; [apply agrees_step|]. intros now.
        apply agrees_bind; [apply agrees_step|]. intros _. apply agrees_ret.
      * apply agrees_throw.
  - intros e. unfold Mutation.onFailure, Locked.onFailure.
    apply agrees_get. intros s1.
    apply agrees_bind.
    + destruct (ownsReservation (flags (Locked.frame s1)));
        [apply agrees_release|apply agrees_ret].
    + intros _. apply agrees_get. intros s2.
      apply agrees_bind; [apply agrees_step|]. intros _. apply agrees_throw.
Qed.

End Agreement.

(** *** The theorems above at concrete stores and invocations *)

Lemma complete_absent_creates_entry_witness :
  exists data' n later',
    Locked.complete (Resp := string) calm
      "k1" "pages.update" "h1" "{}" (Locked.mkDisk (mkEnv 2000 Missing) 0)
    = Some (Returned tt, Locked.mkDisk (mkEnv 2000 (Stored data')) n)
    /\ Locked.lookup (Resp := string) calm
         "k1" "pages.update" "h1" (Locked.mkDisk (mkEnv 3000 (Stored data')) n)
       = Some (Returned (LReplay "{}"), later').
Proof.
  destruct (complete_absent_creates_entry (Resp := string) calm
              "k1" "pages.update" "h1" "{}" (Locked.mkDisk (mkEnv 2000 Missing) 0))
    as (W & _).
  destruct (W (Locked.mkDisk (mkEnv 2000 Missing) 1)) as (data' & n & Hc & _ & Hl).
  - by_vm.
  - intros k. reflexivity.
  - reflexivity.
  - destruct (Hl (Locked.mkDisk (mkEnv 3000 (Stored data')) n)
                 (Locked.mkDisk (mkEnv 3000 (Stored data')) (S n)) data') as [later' Hlk].
    + reflexivity.
    + reflexivity.
    + reflexivity.
    + vm_compute. discriminate.
    + split; [reflexivity|vm_compute; discriminate].
    + exists data', n, later'. split; [exact Hc|exact Hlk].
Defined.

(** C10 as stated fails.  With no entry in the store, [complete] throws an
    [internal_error] when the lock file cannot be created.  When it
    returns, an outcome whose JSON text is the text of the pending sentinel
    is read back as pending, and a [lookup] made after the TTL misses. *)
Lemma completion_can_fail_or_be_forgotten :
  (Locked.complete (Resp := string) (lockFailingFrom 0 EACCES)
     "k1" "pages.update" "h1" "{}" (Locked.mkDisk (mkEnv 2000 Missing) 0)
   = Some (Threw (Locked.lockFailedError EACCES), Locked.mkDisk (mkEnv 2000 Missing) 1)
   /\ code (Locked.lockFailedError EACCES) = Some "internal_error")
  /\ (exists d',
        Locked.complete (Resp := string) calm
          "k1" "pages.update" "h1" PENDING_RESPONSE_JSON
          (Locked.mkDisk (mkEnv 2000 Missing) 0) = Some (Returned tt, d')
        /\ (fst <$> Locked.lookup (Resp := string) calm
                      "k1" "pages.update" "h1" d')
           = Some (Returned LPending))
  /\ (exists d',
        Locked.complete (Resp := string) calm
          "k1" "pages.update" "h1" "{}"
          (Locked.mkDisk (mkEnv 2000 Missing) 0) = Some (Returned tt, d')
        /\ (fst <$> Locked.lookup (Resp := string) calm
                      "k1" "pages.update" "h1"
                      (Locked.mkDisk (mkEnv 182001 (file (Locked.disk_env d')))
                                     (Locked.requests d')))
           = Some (Returned LMiss)).
Proof.
  split; [split; [by_vm|reflexivity]|]. split.
  - eexists. split; [vm_compute; reflexivity|]. vm_compute. reflexivity.
  - eexists. split; [vm_compute; reflexivity|]. vm_compute. reflexivity.
Qed.

Lemma ambiguous_failure_is_unconfirmed_witness :
  exists sEnd,
    Locked.executeMutationWithIdempotency calm timeoutArgs
      (startSession (mkEnv 1000 Missing)) = Some (Threw unconfirmedError, sEnd)
    /\ runCalls (Locked.frame sEnd) = 1%nat
    /\ length (auditLog (Locked.frame sEnd)) = 1%nat.
Proof.
  destruct (ambiguous_failure_is_unconfirmed calm timeoutArgs
              (startSession (mkEnv 1000 Missing)) reservedSession RExecute gatewayTimeout
              (mkEnv 1000 (Stored reservedStore)))
    as (released & d3 & Hrel & W).
  - by_vm.
  - reflexivity.
  - reflexivity.
  - reflexivity.
  - exact I.
  - assert (Hgo : Locked.release calm updateKey "pages.update"
                    (hashObject "{page_id:p1}")
                    (Locked.mkDisk (mkEnv 1000 (Stored reservedStore)) 2)
                  = Some (Returned tt, Locked.mkDisk (mkEnv 1000 (Stored ∅)) 4)) by by_vm.
    pose proof (eq_trans (eq_sym Hrel) Hgo) as E. injection E as -> ->.
    destruct W as (sEnd & event & He & _ & _ & _ & Hr & Ha & _).
    exists sEnd. split; [exact He|]. split; [exact Hr|]. rewrite Ha. reflexivity.
Defined.

(** C2 as stated fails.  The coordinator owns the reservation, [run]
    throws an ambiguous error and there is no [recover]; the release
    cannot create the lock file, and the caller gets the [internal_error]
    of the store, not the retryable "outcome could not be confirmed" error;
    no audit record is written and the reservation stays in the store.
    When the lock file is held by another process throughout, the caller
    gets "store is busy" after the 35 seconds of waiting; and when the
    release cannot write the store file, the caller gets the error of the
    file system. *)
Lemma release_failure_replaces_unconfirmed :
  Locked.acquireReservation (lockFailingFrom 2 EACCES) timeoutArgs
    updateKey (hashObject "{page_id:p1}") (startSession (mkEnv 1000 Missing))
  = Some (Returned RExecute, reservedSession)
  /\ run timeoutArgs (env (Locked.frame reservedSession))
     = (Threw gatewayTimeout, mkEnv 1000 (Stored reservedStore))
  /\ isAmbiguousMutationError gatewayTimeout (isAmbiguousError timeoutArgs) = true
  /\ recover timeoutArgs = None
  /\ Locked.executeMutationWithIdempotency (lockFailingFrom 2 EACCES)
       timeoutArgs (startSession (mkEnv 1000 Missing))
     = Some (Threw (Locked.lockFailedError EACCES), strandedSession)
  /\ Locked.lockFailedError EACCES <> unconfirmedError
  /\ code (Locked.lockFailedError EACCES) = Some "internal_error"
  /\ retryable (Locked.lockFailedError EACCES) = false
  /\ auditLog (Locked.frame strandedSession) = []
  /\ (exists sEnd,
        Locked.executeMutationWithIdempotency (lockFailingFrom 2 EEXIST)
          timeoutArgs (startSession (mkEnv 1000 Missing))
        = Some (Threw Locked.storeBusyError, sEnd)
        /\ Locked.storeBusyError <> unconfirmedError
        /\ clock (env (Locked.frame sEnd)) = 36010
        /\ auditLog (Locked.frame sEnd) = [])
  /\ (exists sEnd,
        Locked.executeMutationWithIdempotency (writeFailingFrom 3 ENOSPC)
          timeoutArgs (startSession (mkEnv 1000 Missing))
        = Some (Threw ENOSPC, sEnd)
        /\ ENOSPC <> unconfirmedError
        /\ auditLog (Locked.frame sEnd) = []).
Proof.
  split; [by_vm|]. split; [reflexivity|]. split; [reflexivity|]. split; [reflexivity|].
  split; [by_vm|]. split; [discriminate|]. split; [reflexivity|]. split; [reflexivity|].
  split; [reflexivity|]. split.
  - eexists. split; [vm_compute; reflexivity|]. split; [discriminate|]. split; reflexivity.
  - eexists. split; [vm_compute; reflexivity|]. split; [discriminate|reflexivity].
Qed.

Lemma plain_failure_propagates_witness :
  exists sEnd,
    Locked.executeMutationWithIdempotency calm invalidArgs
      (startSession (mkEnv 1000 Missing)) = Some (Threw validationError, sEnd)
    /\ runCalls (Locked.frame sEnd) = 1%nat
    /\ recoverCalls (Locked.frame sEnd) = 0%nat.
Proof.
  destruct (plain_failure_propagates calm invalidArgs
              (startSession (mkEnv 1000 Missing)) reservedSession RExecute validationError
              (mkEnv 1000 (Stored reservedStore)))
    as (released & d3 & Hrel & W).
  - by_vm.
  - reflexivity.
  - reflexivity.
  - reflexivity.
  - assert (Hgo : Locked.release calm updateKey "pages.update"
                    (hashObject "{page_id:p1}")
                    (Locked.mkDisk (mkEnv 1000 (Stored reservedStore)) 2)
                  = Some (Returned tt, Locked.mkDisk (mkEnv 1000 (Stored ∅)) 4)) by by_vm.
    pose proof (eq_trans (eq_sym Hrel) Hgo) as E. injection E as -> ->.
    destruct W as (sEnd & event & He & _ & Hr & Hc & _).
    exists sEnd. split; [exact He|]. split; [exact Hr|exact Hc].
Defined.

Lemma one_audit_record_per_invocation_witness :
  exists event,
    auditLog (Locked.frame failedSession) = [event]
    /\ ev_ok event = false
    /\ ev_request_id event = "req-1".
Proof.
  destruct (one_audit_record_per_invocation calm invalidArgs
              (startSession (mkEnv 1000 Missing)))
    as (o & sEnd & Hexec & _ & _ & W).
  assert (Hgo : Locked.executeMutationWithIdempotency calm invalidArgs
                  (startSession (mkEnv 1000 Missing))
                = Some (Threw validationError, failedSession)) by by_vm.
  pose proof (eq_trans (eq_sym Hexec) Hgo) as E. injection E as -> ->.
  destruct W as [(event & Ha & Hok & _ & Hid & _)|(Ha & _)].
  - exists event. split; [exact Ha|]. split; [exact Hok|exact Hid].
  - discriminate Ha.
Defined.

End LockedFacts.
